(** * Yorkie document core: Text, Object and the Set operation

    A shallow embedding of
      - [pkg/document/crdt] text.go   (TextValue, Text),
      - [pkg/document/json] object.go (Object),
      - [pkg/document/operation] set.go (Set.Execute),
    together with the parts of the Go standard library they call
    ([unicode/utf16], the string/rune conversions) and models of the
    collaborators whose code is not part of the sources at hand
    (Ticket, RHT, RGATreeSplit, Root).

    Conventions.
      - A Go [string] is a Rocq [string]: a sequence of bytes.
      - A Go [int], [rune], [uint16], [uint64] is a [Z]; no arithmetic of the
        modelled code can overflow, so no wrap-around is written out.
      - A pointer that may be [nil] is an [option]; a linked list of nodes is
        the [list] of its nodes in [next] order.
      - A Go panic is the [Panicked] outcome. *)

From Stdlib Require Import ZArith Lia List Ascii String Bool.
From stdpp Require Import gmap strings list fin_maps.

Local Open Scope string_scope.
Local Open Scope list_scope.
Local Open Scope Z_scope.

(* ===================================================================== *)
(** ** Outcomes of Go calls                                               *)
(* ===================================================================== *)

(** A call either returns or panics with a message. *)
Inductive outcome (A : Type) : Type :=
  | Returned (a : A)
  | Panicked (msg : string).
Arguments Returned {A} a.
Arguments Panicked {A} msg.

(** Sequencing: a panic of the first call is the outcome of the whole. *)
#[global] Instance outcome_bind : MBind outcome :=
  fun A B (k : A -> outcome B) (m : outcome A) =>
    match m with
    | Returned a => k a
    | Panicked msg => Panicked msg
    end.

#[global] Instance outcome_ret : MRet outcome := fun A a => Returned a.

(* ===================================================================== *)
(** ** time.Ticket                                                        *)
(* ===================================================================== *)

(** Modelled from the spec: the package [pkg/document/time] is not among the
    sources.  A ticket is [(lamport, delimiter, actorID)]; the actor ID is an
    opaque byte sequence. *)
Record Ticket : Type := mkTicket {
  lamport : Z;
  delimiter : Z;
  actorID : string
}.

(** Modelled from the spec: [Ticket.Compare], absent from the sources: "compare
    lamport first, then delimiter, then actorID lexicographically". *)
Definition Ticket_Compare (t other : Ticket) : comparison :=
  match (lamport t ?= lamport other)%Z with
  | Eq =>
      match (delimiter t ?= delimiter other)%Z with
      | Eq => String.compare (actorID t) (actorID other)
      | c => c
      end
  | c => c
  end.

(** Modelled from the spec: [Ticket.After], absent from the sources. *)
Definition Ticket_After (t other : Ticket) : bool :=
  match Ticket_Compare t other with
  | Gt => true
  | _ => false
  end.

(** A method of [*time.Ticket] called on [nil], or handed [nil] where it reads
    the fields of its argument, is a [nil] dereference. *)
Definition Ticket_After_ptr (t other : option Ticket) : outcome bool :=
  match t, other with
  | Some a, Some b => Returned (Ticket_After a b)
  | _, _ => Panicked "invalid memory address or nil pointer dereference"
  end.

Definition is_nil {A : Type} (p : option A) : bool :=
  match p with
  | None => true
  | Some _ => false
  end.

(** The operators [&&] and [||] of Go: the right operand is evaluated only
    when the left one does not decide. *)
Definition and_then (a b : outcome bool) : outcome bool :=
  x ← a; if x : bool then b else Returned false.
Definition or_else (a b : outcome bool) : outcome bool :=
  x ← a; if x : bool then Returned true else b.

Definition hexDigit (n : N) : ascii :=
  if (n <? 10)%N then ascii_of_N (48 + n) else ascii_of_N (87 + n).

Fixpoint hexEncode (s : string) : string :=
  match s with
  | EmptyString => EmptyString
  | String c rest =>
      let n := N_of_ascii c in
      String (hexDigit (n / 16)) (String (hexDigit (n mod 16)) (hexEncode rest))
  end.

(** Modelled from the spec: [Ticket.ActorIDHex], absent from the sources: the
    actor of a ticket as the key of the selection table. *)
Definition Ticket_ActorIDHex (t : Ticket) : string := hexEncode (actorID t).

#[global] Instance Ticket_eq_dec : EqDecision Ticket.
Proof. solve_decision. Defined.

#[global] Instance Ticket_countable : Countable Ticket.
Proof.
  refine (inj_countable'
            (fun t => (lamport t, delimiter t, actorID t))
            (fun p => mkTicket p.1.1 p.1.2 p.2) _).
  intros []; reflexivity.
Defined.

(* ===================================================================== *)
(** ** crdt.RHT                                                           *)
(* ===================================================================== *)

(** Modelled from the spec: the replicated hash table is not among the
    sources.  An entry is [(value, setAt, tombstoneAt)], kept per key. *)
Record RHTEntry (V : Type) : Type := mkRHTEntry {
  rht_value : V;
  rht_setAt : Ticket;
  rht_tombstoneAt : option Ticket
}.
Arguments mkRHTEntry {V} _ _ _.
Arguments rht_value {V} _.
Arguments rht_setAt {V} _.
Arguments rht_tombstoneAt {V} _.

Abbreviation RHT V := (gmap string (RHTEntry V)).

Definition NewRHT {V : Type} : RHT V := ∅.

(** The ticket [executedAt] is ordered after every ticket the entry records:
    the ticket of its write and, where the entry is tombstoned, the ticket of
    its removal. *)
Definition supersedes {V : Type} (executedAt : Ticket) (prev : RHTEntry V)
    : bool :=
  Ticket_After executedAt (rht_setAt prev)
  && match rht_tombstoneAt prev with
     | Some removedAt => Ticket_After executedAt removedAt
     | None => true
     end.

(** Modelled from the spec: [RHT.Set] "installs [(key, value, ticket)] only
    if no existing entry for [key] has a ticket ordered after [ticket]", a
    removal being an entry "with its own ticket": "a set or remove operation
    with ticket T is applied to a key only if T is ordered after the key's
    currently recorded ticket"; otherwise it is a no-op. *)
Definition RHT_Set {V : Type} (key : string) (value : V) (executedAt : Ticket)
    (rht : RHT V) : RHT V :=
  match rht !! key with
  | Some prev =>
      if supersedes executedAt prev
      then <[key := mkRHTEntry value executedAt None]> rht
      else rht
  | None => <[key := mkRHTEntry value executedAt None]> rht
  end.

(** Modelled from the spec: [RHT.DeepCopy] "produces an independent RHT with
    identical entries"; a value of the embedding is never shared. *)
Definition RHT_DeepCopy {V : Type} (rht : RHT V) : RHT V := rht.

(* ===================================================================== *)
(** ** Data of text.go                                                    *)
(* ===================================================================== *)

(** [type TextValue struct { value string; attrs *RHT }] *)
Record TextValue : Type := mkTextValue {
  tv_value : string;
  tv_attrs : RHT string
}.

Definition NewTextValue (value : string) (attrs : RHT string) : TextValue :=
  {| tv_value := value; tv_attrs := attrs |}.

(** Modelled from the spec: the node identity [(originTicket, offset)]. *)
Record RGATreeSplitNodeID : Type := mkNodeID {
  id_createdAt : Ticket;
  id_offset : Z
}.

#[global] Instance RGATreeSplitNodeID_eq_dec : EqDecision RGATreeSplitNodeID.
Proof. solve_decision. Defined.

(** Modelled from the spec: a position [(nodeID, intraNodeOffset)]. *)
Record RGATreeSplitNodePos : Type := mkNodePos {
  pos_id : RGATreeSplitNodeID;
  pos_relativeOffset : Z
}.

(** Modelled from the spec: a node of the splittable sequence.  The [prev] and
    [next] links are the position of the node in the list of the sequence; the
    insertion predecessor, a pointer in the code, is kept as the identity of
    the node it points to (identities never change). *)
Record RGATreeSplitNode : Type := mkNode {
  node_id : RGATreeSplitNodeID;
  node_value : TextValue;
  node_removedAt : option Ticket;
  node_insPrev : option RGATreeSplitNodeID
}.

(** Modelled from the spec: the sequence, its synthetic initial head first. *)
Record RGATreeSplit : Type := mkRGATreeSplit {
  initialHead : RGATreeSplitNode;
  after_head : list RGATreeSplitNode
}.

(** Modelled from the spec: a selection [(from, to, updatedAt)]. *)
Record Selection : Type := mkSelection {
  sel_from : RGATreeSplitNodePos;
  sel_to : RGATreeSplitNodePos;
  sel_updatedAt : Ticket
}.

Definition newSelection (from to : RGATreeSplitNodePos) (updatedAt : Ticket)
    : Selection :=
  {| sel_from := from; sel_to := to; sel_updatedAt := updatedAt |}.

(** [type Text struct]: the creation ticket is the identity of the element and
    is always present; [movedAt] and [removedAt] may be [nil]. *)
Record Text : Type := mkText {
  rgaTreeSplit : RGATreeSplit;
  selectionMap : gmap string Selection;
  createdAt : Ticket;
  movedAt : option Ticket;
  removedAt : option Ticket
}.

(** [func NewText(elements, createdAt)] *)
Definition NewText (elements : RGATreeSplit) (createdAt : Ticket) : Text :=
  {| rgaTreeSplit := elements;
     selectionMap := ∅;
     createdAt := createdAt;
     movedAt := None;
     removedAt := None |}.

(** [func (t *Text) Remove(removedAt *time.Ticket) bool]: the updated text and
    the returned flag. *)
Definition Text_Remove (t : Text) (removedAt' : option Ticket)
    : outcome (Text * bool) :=
  c ← and_then
        (and_then (Returned (negb (is_nil removedAt')))
                  (Ticket_After_ptr removedAt' (Some (createdAt t))))
        (or_else (Returned (is_nil (removedAt t)))
                 (Ticket_After_ptr removedAt' (removedAt t)));
  if c : bool
  then Returned ({| rgaTreeSplit := rgaTreeSplit t;
                    selectionMap := selectionMap t;
                    createdAt := createdAt t;
                    movedAt := movedAt t;
                    removedAt := removedAt' |}, true)
  else Returned (t, false).

(** [func (t *Text) Select(from, to, executedAt)]: the ticket is one that is
    present, the call reads its actor first. *)
Definition Text_Select (t : Text) (from to : RGATreeSplitNodePos)
    (executedAt : Ticket) : Text :=
  let install :=
    {| rgaTreeSplit := rgaTreeSplit t;
       selectionMap :=
         <[Ticket_ActorIDHex executedAt := newSelection from to executedAt]>
           (selectionMap t);
       createdAt := createdAt t;
       movedAt := movedAt t;
       removedAt := removedAt t |} in
  match selectionMap t !! Ticket_ActorIDHex executedAt with
  | None => install
  | Some prev =>
      if Ticket_After executedAt (sel_updatedAt prev) then install else t
  end.

(* ===================================================================== *)
(** ** Strings, runes and UTF-16 (Go language and [unicode/utf16])        *)
(* ===================================================================== *)

Definition byte_of_ascii (c : ascii) : Z := Z.of_N (N_of_ascii c).
Definition ascii_of_byte (b : Z) : ascii := ascii_of_N (Z.to_N b).

Definition bytes_of_string (s : string) : list Z :=
  map byte_of_ascii (list_ascii_of_string s).
Definition string_of_bytes (p : list Z) : string :=
  string_of_list_ascii (map ascii_of_byte p).

Definition RuneError : Z := 0xFFFD.
Definition MaxRune : Z := 0x10FFFF.
Definition surr1 : Z := 0xD800.
Definition surr2 : Z := 0xDC00.
Definition surr3 : Z := 0xE000.
Definition surrSelf : Z := 0x10000.

(** A Unicode scalar value: a code point that is not a surrogate. *)
Definition is_scalar (r : Z) : bool :=
  ((0 <=? r) && (r <? surr1)) || ((surr3 <=? r) && (r <=? MaxRune)).

(** Continuation byte, [locb <= b <= hicb]. *)
Definition is_cont (lo hi b : Z) : bool := (lo <=? b) && (b <=? hi).

(** The conversion [[]rune(s)]: every well-formed UTF-8 sequence gives its
    code point, every other byte gives [RuneError] and is skipped alone.  The
    ranges are those of the tables [first] and [acceptRanges] of
    [unicode/utf8]. *)
Fixpoint decodeRunes (p : list Z) : list Z :=
  match p with
  | [] => []
  | s0 :: p0 =>
      let invalid := RuneError :: decodeRunes p0 in
      if s0 <? 0x80 then s0 :: decodeRunes p0
      else if s0 <? 0xC2 then invalid
      else if s0 <? 0xE0 then
        match p0 with
        | s1 :: p1 =>
            if is_cont 0x80 0xBF s1
            then Z.lor (Z.shiftl (Z.land s0 0x1F) 6) (Z.land s1 0x3F)
                 :: decodeRunes p1
            else invalid
        | _ => invalid
        end
      else if s0 <? 0xF0 then
        match p0 with
        | s1 :: s2 :: p2 =>
            if is_cont (if s0 =? 0xE0 then 0xA0 else 0x80)
                       (if s0 =? 0xED then 0x9F else 0xBF) s1
               && is_cont 0x80 0xBF s2
            then Z.lor (Z.lor (Z.shiftl (Z.land s0 0x0F) 12)
                              (Z.shiftl (Z.land s1 0x3F) 6))
                       (Z.land s2 0x3F)
                 :: decodeRunes p2
            else invalid
        | _ => invalid
        end
      else if s0 <? 0xF5 then
        match p0 with
        | s1 :: s2 :: s3 :: p3 =>
            if is_cont (if s0 =? 0xF0 then 0x90 else 0x80)
                       (if s0 =? 0xF4 then 0x8F else 0xBF) s1
               && is_cont 0x80 0xBF s2 && is_cont 0x80 0xBF s3
            then Z.lor (Z.lor (Z.lor (Z.shiftl (Z.land s0 0x07) 18)
                                     (Z.shiftl (Z.land s1 0x3F) 12))
                              (Z.shiftl (Z.land s2 0x3F) 6))
                       (Z.land s3 0x3F)
                 :: decodeRunes p3
            else invalid
        | _ => invalid
        end
      else invalid
  end.

Definition runes_of_string (s : string) : list Z :=
  decodeRunes (bytes_of_string s).

(** [utf8.AppendRune]: the UTF-8 encoding of one rune; a surrogate or a value
    out of range is encoded as [RuneError]. *)
Definition utf8_AppendRune (r : Z) : list Z :=
  if (0 <=? r) && (r <? 0x80) then [r]
  else if (0 <=? r) && (r <? 0x800) then
    [Z.lor 0xC0 (Z.shiftr r 6); Z.lor 0x80 (Z.land r 0x3F)]
  else if is_scalar r && (r <? surrSelf) then
    [Z.lor 0xE0 (Z.shiftr r 12);
     Z.lor 0x80 (Z.land (Z.shiftr r 6) 0x3F);
     Z.lor 0x80 (Z.land r 0x3F)]
  else if is_scalar r then
    [Z.lor 0xF0 (Z.shiftr r 18);
     Z.lor 0x80 (Z.land (Z.shiftr r 12) 0x3F);
     Z.lor 0x80 (Z.land (Z.shiftr r 6) 0x3F);
     Z.lor 0x80 (Z.land r 0x3F)]
  else [0xEF; 0xBF; 0xBD].

(** The conversion [string(runes)]. *)
Definition string_of_runes (rs : list Z) : string :=
  string_of_bytes (flat_map utf8_AppendRune rs).

(** [utf16.EncodeRune], for a rune of a supplementary plane. *)
Definition utf16_EncodeRune (r : Z) : Z * Z :=
  let r' := r - surrSelf in
  (surr1 + Z.land (Z.shiftr r' 10) 0x3ff, surr2 + Z.land r' 0x3ff).

(** [utf16.Encode] *)
Fixpoint utf16_Encode (s : list Z) : list Z :=
  match s with
  | [] => []
  | v :: rest =>
      if ((0 <=? v) && (v <? surr1)) || ((surr3 <=? v) && (v <? surrSelf))
      then v :: utf16_Encode rest
      else if (surrSelf <=? v) && (v <=? MaxRune)
      then let '(r1, r2) := utf16_EncodeRune v in r1 :: r2 :: utf16_Encode rest
      else RuneError :: utf16_Encode rest
  end.

(** [utf16.DecodeRune], applied to a high and a low surrogate. *)
Definition utf16_DecodeRune (r1 r2 : Z) : Z :=
  Z.lor (Z.shiftl (r1 - surr1) 10) (r2 - surr2) + surrSelf.

(** [utf16.Decode] *)
Fixpoint utf16_Decode (s : list Z) : list Z :=
  match s with
  | [] => []
  | r :: rest =>
      if (r <? surr1) || (surr3 <=? r) then r :: utf16_Decode rest
      else
        match rest with
        | r2 :: rest' =>
            if (surr1 <=? r) && (r <? surr2) && (surr2 <=? r2) && (r2 <? surr3)
            then utf16_DecodeRune r r2 :: utf16_Decode rest'
            else RuneError :: utf16_Decode rest
        | [] => RuneError :: utf16_Decode rest
        end
  end.

(** [func (t *TextValue) Len() int] *)
Definition TextValue_Len (t : TextValue) : Z :=
  Z.of_nat (length (utf16_Encode (runes_of_string (tv_value t)))).

(** [func (t *TextValue) Split(offset int) RGATreeSplitValue]: the receiver
    after the call and the returned value.  The slice expressions
    [encoded[0:offset]] and [encoded[offset:]] panic out of range. *)
Definition TextValue_Split (t : TextValue) (offset : Z)
    : outcome (TextValue * TextValue) :=
  let value := tv_value t in
  let encoded := utf16_Encode (runes_of_string value) in
  if (offset <? 0) || (Z.of_nat (length encoded) <? offset)
  then Panicked "slice bounds out of range"
  else
    let t' :=
      {| tv_value :=
           string_of_runes (utf16_Decode (firstn (Z.to_nat offset) encoded));
         tv_attrs := tv_attrs t |} in
    Returned
      (t',
       NewTextValue
         (string_of_runes (utf16_Decode (skipn (Z.to_nat offset) encoded)))
         (RHT_DeepCopy (tv_attrs t))).

(** [func (t *TextValue) DeepCopy() RGATreeSplitValue] *)
Definition TextValue_DeepCopy (t : TextValue) : TextValue :=
  {| tv_attrs := RHT_DeepCopy (tv_attrs t); tv_value := tv_value t |}.

(** The text of the node value whose split the spec gives as example. *)
Definition hello : TextValue := NewTextValue "HELLO" NewRHT.

(** U+1F600, a code point outside the BMP: four bytes of UTF-8, two UTF-16
    code units. *)
Definition grinning : TextValue :=
  NewTextValue (string_of_bytes [0xF0; 0x9F; 0x98; 0x80]) NewRHT.

(* ===================================================================== *)
(** ** crdt.RGATreeSplit                                                  *)
(* ===================================================================== *)

(** A pointer to a node of the sequence is the position of the node in the
    list of all nodes: [0] is the initial head.  An insertion moves the nodes
    behind it, and the pointers to them, one position up. *)
Definition all_nodes (s : RGATreeSplit) : list RGATreeSplitNode :=
  initialHead s :: after_head s.

Definition NewRGATreeSplit (initialHead : RGATreeSplitNode) : RGATreeSplit :=
  {| initialHead := initialHead; after_head := [] |}.

Definition NewRGATreeSplitNode (id : RGATreeSplitNodeID) (value : TextValue)
    : RGATreeSplitNode :=
  {| node_id := id; node_value := value;
     node_removedAt := None; node_insPrev := None |}.

(** Modelled from the spec: [RGATreeSplit.nodes]: the "sequence of
    live+tombstoned nodes in order", the initial head left out. *)
Definition RGATreeSplit_nodes (s : RGATreeSplit) : list RGATreeSplitNode :=
  after_head s.

Definition node_createdAt (n : RGATreeSplitNode) : Ticket :=
  id_createdAt (node_id n).

(** [node.String()] is the string of the value of the node. *)
Definition RGATreeSplitNode_String (n : RGATreeSplitNode) : string :=
  tv_value (node_value n).

Definition RGATreeSplitNode_contentLen (n : RGATreeSplitNode) : Z :=
  TextValue_Len (node_value n).

(** Modelled from the spec: [RGATreeSplitNode.DeepCopy]: identity, content and
    tombstone; the insertion predecessor is attached by the caller. *)
Definition RGATreeSplitNode_DeepCopy (n : RGATreeSplitNode) : RGATreeSplitNode :=
  {| node_id := node_id n;
     node_value := TextValue_DeepCopy (node_value n);
     node_removedAt := node_removedAt n;
     node_insPrev := None |}.

Definition RGATreeSplitNode_InsPrevID (n : RGATreeSplitNode)
    : option RGATreeSplitNodeID := node_insPrev n.

(** The node at a position, changed by [f]. *)
Definition alter_node (f : RGATreeSplitNode -> RGATreeSplitNode) (p : nat)
    (s : RGATreeSplit) : RGATreeSplit :=
  match p with
  | O => {| initialHead := f (initialHead s); after_head := after_head s |}
  | S i => {| initialHead := initialHead s;
              after_head := alter f i (after_head s) |}
  end.

(** Modelled from the spec: [RGATreeSplit.InsertAfter]: links [node] behind the
    node at [prev] and returns the pointer to it. *)
Definition RGATreeSplit_InsertAfter (s : RGATreeSplit) (prev : nat)
    (node : RGATreeSplitNode) : RGATreeSplit * nat :=
  ({| initialHead := initialHead s;
      after_head := take prev (after_head s) ++ node :: drop prev (after_head s) |},
   S prev).

(** Modelled from the spec: [RGATreeSplit.FindNode]: lookup by identity. *)
Definition RGATreeSplit_FindNode (s : RGATreeSplit) (id : RGATreeSplitNodeID)
    : option nat :=
  fst <$> list_find (fun n => node_id n = id) (all_nodes s).

(** Modelled from the spec: [RGATreeSplitNode.SetInsPrev] on the node at
    [current], with the node at [insPrevNode] as predecessor. *)
Definition RGATreeSplit_SetInsPrev (s : RGATreeSplit) (current insPrevNode : nat)
    : RGATreeSplit :=
  alter_node
    (fun n => {| node_id := node_id n; node_value := node_value n;
                 node_removedAt := node_removedAt n;
                 node_insPrev := node_id <$> all_nodes s !! insPrevNode |})
    current s.

(** Modelled from the spec: the split of a node: "a new node holding the tail
    content with a new id [(originTicket, offset)], leaving the original
    node's id and head content intact"; a tombstone stays on both parts. *)
Definition RGATreeSplitNode_split (n : RGATreeSplitNode) (offset : Z)
    : outcome (RGATreeSplitNode * RGATreeSplitNode) :=
  '(v, tail) ← TextValue_Split (node_value n) offset;
  Returned
    ({| node_id := node_id n; node_value := v;
        node_removedAt := node_removedAt n; node_insPrev := node_insPrev n |},
     {| node_id := {| id_createdAt := node_createdAt n;
                      id_offset := id_offset (node_id n) + offset |};
        node_value := tail;
        node_removedAt := node_removedAt n;
        node_insPrev := Some (node_id n) |}).

(** The position [absolute] lies in the content of [n], its two ends
    included. *)
Definition covers (absolute : RGATreeSplitNodeID) (n : RGATreeSplitNode) : bool :=
  bool_decide (node_createdAt n = id_createdAt absolute)
  && (id_offset (node_id n) <=? id_offset absolute)
  && (id_offset absolute <=? id_offset (node_id n) + RGATreeSplitNode_contentLen n).

(** The successor of the node at [p], [nil] behind the last node. *)
Definition next_of (s : RGATreeSplit) (p : nat) : option nat :=
  if bool_decide (S p < length (all_nodes s))%nat then Some (S p) else None.

(** Modelled from the spec: [RGATreeSplit.findNodeWithSplit]: "if pos falls
    inside an existing node's content, splits that node at the offset and
    returns the two resulting nodes".  The result is the sequence, the left
    node, the right node ([nil] at the end), and the position of the node
    linked in by the split, if there is one.  A position in no node is a
    [nil] dereference. *)
Definition RGATreeSplit_findNodeWithSplit (s : RGATreeSplit)
    (pos : RGATreeSplitNodePos) (updatedAt : Ticket)
    : outcome (RGATreeSplit * nat * option nat * option nat) :=
  let absoluteID :=
    {| id_createdAt := id_createdAt (pos_id pos);
       id_offset := id_offset (pos_id pos) + pos_relativeOffset pos |} in
  match list_find (fun n => covers absoluteID n) (all_nodes s) with
  | None => Panicked "invalid memory address or nil pointer dereference"
  | Some (i, node) =>
      let relativeOffset := id_offset absoluteID - id_offset (node_id node) in
      if (relativeOffset =? 0)
         || (relativeOffset =? RGATreeSplitNode_contentLen node)
      then Returned (s, i, next_of s i, None)
      else
        '(leftNode, rightNode) ← RGATreeSplitNode_split node relativeOffset;
        let '(s', r) :=
          RGATreeSplit_InsertAfter (alter_node (fun _ => leftNode) i s) i rightNode in
        Returned (s', i, Some r, Some r)
  end.

(** A pointer held over an insertion at position [inserted]. *)
Definition relocate (inserted : option nat) (p : option nat) : option nat :=
  match inserted, p with
  | Some j, Some q => if (j <=? q)%nat then Some (S q) else Some q
  | _, _ => p
  end.

(** Modelled from the spec: [RGATreeSplit.findBetween]: the nodes from [from]
    up to, and without, [to], following [next]; the walk ends at the end of
    the sequence when it does not meet [to]. *)
Definition RGATreeSplit_findBetween (s : RGATreeSplit) (from to : option nat)
    : list nat :=
  match from with
  | None => []
  | Some f =>
      let n := length (all_nodes s) in
      match to with
      | Some t => if (f <=? t)%nat then seq f (t - f) else seq f (n - f)
      | None => seq f (n - f)
      end
  end.

(* ===================================================================== *)
(** ** Text                                                               *)
(* ===================================================================== *)

(** [strings.Join] *)
Definition strings_Join (elems : list string) (sep : string) : string :=
  match elems with
  | [] => EmptyString
  | e :: rest => fold_left (fun acc x => acc +:+ sep +:+ x) rest e
  end.

(** The loop of [Text.String] and [Text.Marshal] over the nodes behind the
    initial head; [render] is [node.String()] or [node.Marshal()]. *)
Fixpoint render_loop (render : RGATreeSplitNode -> string) (createdAt : Ticket)
    (node : list RGATreeSplitNode) (values : list string) : list string :=
  match node with
  | [] => values
  | n :: next =>
      render_loop render createdAt next
        (match Ticket_Compare (node_createdAt n) createdAt with
         | Eq => values (* last line *)
         | _ =>
             match node_removedAt n with
             | None => values ++ [render n]
             | Some _ => values
             end
         end)
  end.

(** [func (t *Text) String() string] *)
Definition Text_String (t : Text) : string :=
  strings_Join
    (render_loop RGATreeSplitNode_String (createdAt t)
       (after_head (rgaTreeSplit t)) [])
    EmptyString.

Definition quote : string := String (ascii_of_N 34) EmptyString.

Section Marshal.

(** [EscapeString] and [RHT.Marshal] are not among the sources and the spec
    leaves their output open: they are parameters. *)
Variable EscapeString : string -> string.
Variable RHT_Marshal : RHT string -> string.

(** Modelled from the spec: [RHT.Elements]: the live entries. *)
Definition RHT_Elements (rht : RHT string) : list (string * RHTEntry string) :=
  filter (fun kv => rht_tombstoneAt kv.2 = None) (map_to_list rht).

(** [func (t *TextValue) Marshal() string] *)
Definition TextValue_Marshal (t : TextValue) : string :=
  if (length (RHT_Elements (tv_attrs t)) =? 0)%nat
  then "{" +:+ quote +:+ "val" +:+ quote +:+ ":" +:+ quote
       +:+ EscapeString (tv_value t) +:+ quote +:+ "}"
  else "{" +:+ quote +:+ "attrs" +:+ quote +:+ ":"
       +:+ RHT_Marshal (tv_attrs t)
       +:+ "," +:+ quote +:+ "val" +:+ quote +:+ ":" +:+ quote
       +:+ EscapeString (tv_value t) +:+ quote +:+ "}".

(** [node.Marshal()] is the encoding of the value of the node. *)
Definition RGATreeSplitNode_Marshal (n : RGATreeSplitNode) : string :=
  TextValue_Marshal (node_value n).

(** [func (t *Text) Marshal() string] *)
Definition Text_Marshal (t : Text) : string :=
  "[" +:+ strings_Join
            (render_loop RGATreeSplitNode_Marshal (createdAt t)
               (after_head (rgaTreeSplit t)) [])
            ","
  +:+ "]".

End Marshal.

Section DeepCopy.

(** The identity of the initial node is a constant of a file that is not among
    the sources. *)
Variable initialNodeID : RGATreeSplitNodeID.

(** [func InitialTextNode()] *)
Definition InitialTextNode : RGATreeSplitNode :=
  NewRGATreeSplitNode initialNodeID
    {| tv_attrs := NewRHT; tv_value := EmptyString |}.

(** The loop of [Text.DeepCopy] over [t.Nodes()]. *)
Fixpoint DeepCopy_loop (nodes : list RGATreeSplitNode) (rgaTreeSplit : RGATreeSplit)
    (current : nat) : outcome RGATreeSplit :=
  match nodes with
  | [] => Returned rgaTreeSplit
  | node :: rest =>
      let '(s1, current1) :=
        RGATreeSplit_InsertAfter rgaTreeSplit current
          (RGATreeSplitNode_DeepCopy node) in
      match RGATreeSplitNode_InsPrevID node with
      | Some insPrevID =>
          match RGATreeSplit_FindNode s1 insPrevID with
          | None => Panicked "insPrevNode should be presence"
          | Some insPrevNode =>
              DeepCopy_loop rest
                (RGATreeSplit_SetInsPrev s1 current1 insPrevNode) current1
          end
      | None => DeepCopy_loop rest s1 current1
      end
  end.

(** [func (t *Text) DeepCopy() Element] *)
Definition Text_DeepCopy (t : Text) : outcome Text :=
  s ← DeepCopy_loop (RGATreeSplit_nodes (rgaTreeSplit t))
        (NewRGATreeSplit InitialTextNode) 0%nat;
  Returned (NewText s (createdAt t)).

End DeepCopy.

(** The writes of one [Style] or [Edit] call into the attributes of a value:
    [for key, value := range attributes { val.attrs.Set(key, value, executedAt) }]. *)
Definition set_attributes (attributes : gmap string string) (executedAt : Ticket)
    (val : TextValue) : TextValue :=
  {| tv_value := tv_value val;
     tv_attrs :=
       map_fold (fun key value attrs => RHT_Set key value executedAt attrs)
         (tv_attrs val) attributes |}.

Definition style_node (attributes : gmap string string) (executedAt : Ticket)
    (n : RGATreeSplitNode) : RGATreeSplitNode :=
  {| node_id := node_id n;
     node_value := set_attributes attributes executedAt (node_value n);
     node_removedAt := node_removedAt n;
     node_insPrev := node_insPrev n |}.

(** [func (t *Text) Style(from, to, attributes, executedAt)] *)
Definition Text_Style (t : Text) (from to : RGATreeSplitNodePos)
    (attributes : gmap string string) (executedAt : Ticket) : outcome Text :=
  (* 01. Split nodes with from and to *)
  '(s1, _, toRight, ins1) ←
    RGATreeSplit_findNodeWithSplit (rgaTreeSplit t) to executedAt;
  '(s2, _, fromRight, ins2) ←
    RGATreeSplit_findNodeWithSplit s1 from executedAt;
  (* 02. style nodes between from and to *)
  let nodes := RGATreeSplit_findBetween s2 fromRight (relocate ins2 toRight) in
  Returned
    {| rgaTreeSplit :=
         fold_left (fun s p => alter_node (style_node attributes executedAt) p s)
           nodes s2;
       selectionMap := selectionMap t;
       createdAt := createdAt t;
       movedAt := movedAt t;
       removedAt := removedAt t |}.

(* ===================================================================== *)
(** ** json.Object, json.Root and operation.Set                           *)
(* ===================================================================== *)

(** A [datatype.Element] is a pointer to an element of the document: a
    location of the heap of elements.  A location without an element is a
    [nil] or invalid pointer. *)
Definition loc : Type := positive.

(** [type Object struct { members *datatype.RHT; createdAt *time.Ticket }];
    the members are pointers to elements. *)
Record Object : Type := mkObject {
  members : RHT loc;
  obj_createdAt : Ticket
}.

(** [func NewObject(members, createdAt)] *)
Definition NewObject (members : RHT loc) (createdAt : Ticket) : Object :=
  {| members := members; obj_createdAt := createdAt |}.

(** The kinds of element the spec names: scalars, objects and texts. *)
Inductive Element : Type :=
  | ElemPrimitive (value : string) (createdAt : Ticket)
  | ElemObject (o : Object)
  | ElemText (t : Text).

(** [Element.CreatedAt()] *)
Definition Element_CreatedAt (e : Element) : Ticket :=
  match e with
  | ElemPrimitive _ c => c
  | ElemObject o => obj_createdAt o
  | ElemText t => createdAt t
  end.

(** Modelled from the spec: [json.Root], absent from the sources: the identity
    registry, "a lookup-by-identity and element-registration service". *)
Record Root : Type := mkRoot {
  elementMapByCreatedAt : gmap Ticket loc
}.

(** The document an operation runs on: the elements and the registry. *)
Record Document : Type := mkDocument {
  heap : gmap loc Element;
  root : Root
}.

(** Modelled from the spec: [Root.FindByCreatedAt]:
    "resolveByIdentity(ticket) -> element reference | not-found". *)
Definition Root_FindByCreatedAt (r : Root) (createdAt : Ticket) : option loc :=
  elementMapByCreatedAt r !! createdAt.

(** Modelled from the spec: [Root.RegisterElement]: "makes a newly created
    nested element addressable by its own creation ticket". *)
Definition Root_RegisterElement (d : Document) (elem : loc) : outcome Document :=
  match heap d !! elem with
  | None => Panicked "invalid memory address or nil pointer dereference"
  | Some e =>
      Returned
        {| heap := heap d;
           root := {| elementMapByCreatedAt :=
                        <[Element_CreatedAt e := elem]>
                          (elementMapByCreatedAt (root d)) |} |}
  end.

(** [func (o *Object) Set(k string, v datatype.Element)], on the object at
    [obj]: [o.members.Set(k, v)].  Modelled from the spec: the two-argument
    [RHT.Set] of the members writes "with the value's own creation ticket as
    the write ticket". *)
Definition Object_Set (d : Document) (obj : loc) (k : string) (v : loc)
    : outcome Document :=
  match heap d !! obj, heap d !! v with
  | Some (ElemObject o), Some e =>
      Returned
        {| heap :=
             <[obj := ElemObject
                        {| members := RHT_Set k v (Element_CreatedAt e) (members o);
                           obj_createdAt := obj_createdAt o |}]> (heap d);
           root := root d |}
  | _, _ => Panicked "invalid memory address or nil pointer dereference"
  end.

(** [func (o *Object) Members()], [func (o *Object) CreatedAt()] *)
Definition Object_Members (o : Object) : gmap string loc :=
  rht_value <$> filter (fun kv => rht_tombstoneAt kv.2 = None) (members o).
Definition Object_CreatedAt (o : Object) : Ticket := obj_createdAt o.

(** [type Set struct] *)
Record SetOp : Type := mkSet {
  set_key : string;
  set_value : loc;
  set_parentCreatedAt : Ticket;
  set_executedAt : Ticket
}.

(** [func NewSet(key, value, parentCreatedAt, executedAt)] *)
Definition NewSet (key : string) (value : loc) (parentCreatedAt executedAt : Ticket)
    : SetOp :=
  {| set_key := key; set_value := value;
     set_parentCreatedAt := parentCreatedAt; set_executedAt := executedAt |}.

(** [func (o *Set) Execute(root *json.Root) error]: the document after the call
    and the returned error, [nil] being [None].  The line written to the log
    on failure is no part of the document. *)
Definition Set_Execute (o : SetOp) (d : Document)
    : outcome (Document * option string) :=
  let parent := Root_FindByCreatedAt (root d) (set_parentCreatedAt o) in
  match parent with
  | Some obj =>
      match heap d !! obj with
      | Some (ElemObject _) =>
          d1 ← Object_Set d obj (set_key o) (set_value o);
          d2 ← Root_RegisterElement d1 (set_value o);
          Returned (d2, None)
      | _ => Returned (d, Some "fail to execute, only Object can execute Set")
      end
  | None => Returned (d, Some "fail to execute, only Object can execute Set")
  end.

(** [func (o *Set) ExecutedAt()] *)
Definition Set_ExecutedAt (o : SetOp) : Ticket := set_executedAt o.

(* ===================================================================== *)
(** ** Text.DeepCopy over the objects of the memory                       *)
(* ===================================================================== *)

(** Whether a copy is independent of its original is a matter of pointers:
    which objects the two share.  Here the objects a [Text] is made of are
    cells of a memory, and a pointer is a location: the attributes [*RHT],
    the value [*TextValue], the node [*RGATreeSplitNode], the sequence
    [*RGATreeSplit] with its nodes in order, and the [*Text] itself.  The
    functions above are these ones read through the pointers (see
    [read_Text]). *)
Inductive cell : Type :=
  | CellRHT (rht : RHT string)
  | CellTextValue (value : string) (attrs : loc)
  | CellNode (id : RGATreeSplitNodeID) (value : loc)
      (removedAt : option Ticket) (insPrev : option loc)
  | CellRGATreeSplit (initialHead : loc) (nodes : list loc)
  | CellText (rgaTreeSplit : loc) (selectionMap : gmap string Selection)
      (createdAt : Ticket) (movedAt removedAt : option Ticket).

Abbreviation memory := (gmap loc cell).

(** A new object: a cell at a location that holds none. *)
Definition alloc (m : memory) (c : cell) : memory * loc :=
  let l := fresh (dom m) in (<[l := c]> m, l).

Definition nil_dereference {A : Type} : outcome A :=
  Panicked "invalid memory address or nil pointer dereference".

(** [node.id], through the pointer. *)
Definition node_id_ptr (m : memory) (node : loc) : option RGATreeSplitNodeID :=
  match m !! node with
  | Some (CellNode id _ _ _) => Some id
  | _ => None
  end.

(** Modelled from the spec: [RHT.DeepCopy] "produces an independent RHT with
    identical entries": a new object. *)
Definition RHT_DeepCopy_ptr (m : memory) (rht : loc) : outcome (memory * loc) :=
  match m !! rht with
  | Some (CellRHT entries) => Returned (alloc m (CellRHT entries))
  | _ => nil_dereference
  end.

(** [func (t *TextValue) DeepCopy()]:
    [&TextValue{attrs: t.attrs.DeepCopy(), value: t.value}] *)
Definition TextValue_DeepCopy_ptr (m : memory) (t : loc)
    : outcome (memory * loc) :=
  match m !! t with
  | Some (CellTextValue value attrs) =>
      '(m1, attrs') ← RHT_DeepCopy_ptr m attrs;
      Returned (alloc m1 (CellTextValue value attrs'))
  | _ => nil_dereference
  end.

(** Modelled from the spec: [RGATreeSplitNode.DeepCopy]: a new node with the
    identity and the tombstone of the node and a copy of its value; the copy
    is linked to no other node. *)
Definition RGATreeSplitNode_DeepCopy_ptr (m : memory) (node : loc)
    : outcome (memory * loc) :=
  match m !! node with
  | Some (CellNode id value removedAt _) =>
      '(m1, value') ← TextValue_DeepCopy_ptr m value;
      Returned (alloc m1 (CellNode id value' removedAt None))
  | _ => nil_dereference
  end.

(** Modelled from the spec: [RGATreeSplitNode.InsPrevID]: the identity of the
    node the insertion predecessor points to, [nil] without one. *)
Definition RGATreeSplitNode_InsPrevID_ptr (m : memory) (node : loc)
    : outcome (option RGATreeSplitNodeID) :=
  match m !! node with
  | Some (CellNode _ _ _ None) => Returned None
  | Some (CellNode _ _ _ (Some insPrev)) =>
      match node_id_ptr m insPrev with
      | Some id => Returned (Some id)
      | None => nil_dereference
      end
  | _ => nil_dereference
  end.

(** Modelled from the spec: [RGATreeSplitNode.SetInsPrev]. *)
Definition RGATreeSplitNode_SetInsPrev_ptr (m : memory) (node insPrev : loc)
    : outcome memory :=
  match m !! node with
  | Some (CellNode id value removedAt _) =>
      Returned (<[node := CellNode id value removedAt (Some insPrev)]> m)
  | _ => nil_dereference
  end.

(** Modelled from the spec: [RGATreeSplit.InsertAfter(prev, node)]: links
    [node] in behind [prev] and returns it. *)
Definition RGATreeSplit_InsertAfter_ptr (m : memory) (s prev node : loc)
    : outcome (memory * loc) :=
  match m !! s with
  | Some (CellRGATreeSplit initialHead nodes) =>
      match list_find (fun p => p = prev) (initialHead :: nodes) with
      | Some (i, _) =>
          Returned
            (<[s := CellRGATreeSplit initialHead
                      (take i nodes ++ node :: drop i nodes)]> m,
             node)
      | None => nil_dereference
      end
  | _ => nil_dereference
  end.

(** Modelled from the spec: [RGATreeSplit.FindNode]: lookup by identity. *)
Definition RGATreeSplit_FindNode_ptr (m : memory) (s : loc)
    (id : RGATreeSplitNodeID) : outcome (option loc) :=
  match m !! s with
  | Some (CellRGATreeSplit initialHead nodes) =>
      Returned
        (snd <$> list_find (fun p => node_id_ptr m p = Some id)
                   (initialHead :: nodes))
  | _ => nil_dereference
  end.

(** [func (t *Text) Nodes()] and [t.createdAt], through the pointer. *)
Definition Text_Nodes_ptr (m : memory) (t : loc) : outcome (list loc) :=
  match m !! t with
  | Some (CellText s _ _ _ _) =>
      match m !! s with
      | Some (CellRGATreeSplit _ nodes) => Returned nodes
      | _ => nil_dereference
      end
  | _ => nil_dereference
  end.

Definition Text_createdAt_ptr (m : memory) (t : loc) : outcome Ticket :=
  match m !! t with
  | Some (CellText _ _ createdAt _ _) => Returned createdAt
  | _ => nil_dereference
  end.

(** [func NewText(elements, createdAt)]: a new [Text] with a new, empty
    [selectionMap]. *)
Definition NewText_ptr (m : memory) (elements : loc) (createdAt : Ticket)
    : memory * loc :=
  alloc m (CellText elements ∅ createdAt None None).

(** Modelled from the spec: [NewRGATreeSplit(initialHead)]. *)
Definition NewRGATreeSplit_ptr (m : memory) (initialHead : loc) : memory * loc :=
  alloc m (CellRGATreeSplit initialHead []).

Section DeepCopy_ptr.

Variable initialNodeID : RGATreeSplitNodeID.

(** [func InitialTextNode()]:
    [NewRGATreeSplitNode(initialNodeID, &TextValue{attrs: NewRHT(), value: ""})] *)
Definition InitialTextNode_ptr (m : memory) : memory * loc :=
  let '(m1, attrs) := alloc m (CellRHT NewRHT) in
  let '(m2, value) := alloc m1 (CellTextValue EmptyString attrs) in
  alloc m2 (CellNode initialNodeID value None None).

(** The loop of [Text.DeepCopy] over [t.Nodes()]. *)
Fixpoint DeepCopy_loop_ptr (nodes : list loc) (m : memory)
    (rgaTreeSplit current : loc) : outcome memory :=
  match nodes with
  | [] => Returned m
  | node :: rest =>
      '(m1, copy) ← RGATreeSplitNode_DeepCopy_ptr m node;
      '(m2, current1) ← RGATreeSplit_InsertAfter_ptr m1 rgaTreeSplit current copy;
      insPrevID ← RGATreeSplitNode_InsPrevID_ptr m2 node;
      match insPrevID with
      | Some id =>
          insPrevNode ← RGATreeSplit_FindNode_ptr m2 rgaTreeSplit id;
          match insPrevNode with
          | None => Panicked "insPrevNode should be presence"
          | Some p =>
              m3 ← RGATreeSplitNode_SetInsPrev_ptr m2 current1 p;
              DeepCopy_loop_ptr rest m3 rgaTreeSplit current1
          end
      | None => DeepCopy_loop_ptr rest m2 rgaTreeSplit current1
      end
  end.

(** [func (t *Text) DeepCopy() Element], through the pointer [t]: the memory
    after the call and the pointer to the copy. *)
Definition Text_DeepCopy_ptr (m : memory) (t : loc) : outcome (memory * loc) :=
  let '(m1, initialHead) := InitialTextNode_ptr m in
  let '(m2, rgaTreeSplit) := NewRGATreeSplit_ptr m1 initialHead in
  nodes ← Text_Nodes_ptr m2 t;
  m3 ← DeepCopy_loop_ptr nodes m2 rgaTreeSplit initialHead;
  createdAt ← Text_createdAt_ptr m3 t;
  Returned (NewText_ptr m3 rgaTreeSplit createdAt).

End DeepCopy_ptr.

(** The value, the node, the sequence and the text behind a pointer: what
    the functions on texts above work on. *)
Definition read_TextValue (m : memory) (t : loc) : option TextValue :=
  match m !! t with
  | Some (CellTextValue value attrs) =>
      match m !! attrs with
      | Some (CellRHT entries) => Some {| tv_value := value; tv_attrs := entries |}
      | _ => None
      end
  | _ => None
  end.

Definition read_Node (m : memory) (node : loc) : option RGATreeSplitNode :=
  match m !! node with
  | Some (CellNode id value removedAt insPrev) =>
      v ← read_TextValue m value;
      p ← match insPrev with
          | Some q => Some <$> node_id_ptr m q
          | None => Some None
          end;
      Some {| node_id := id; node_value := v;
              node_removedAt := removedAt; node_insPrev := p |}
  | _ => None
  end.

Definition read_RGATreeSplit (m : memory) (s : loc) : option RGATreeSplit :=
  match m !! s with
  | Some (CellRGATreeSplit initialHead nodes) =>
      h ← read_Node m initialHead;
      l ← mapM (read_Node m) nodes;
      Some {| initialHead := h; after_head := l |}
  | _ => None
  end.

Definition read_Text (m : memory) (t : loc) : option Text :=
  match m !! t with
  | Some (CellText s selections created moved removed) =>
      split ← read_RGATreeSplit m s;
      Some {| rgaTreeSplit := split; selectionMap := selections;
              createdAt := created; movedAt := moved; removedAt := removed |}
  | _ => None
  end.

(* ===================================================================== *)
(** ** Vocabulary of the statements and sample data                     *)
(* ===================================================================== *)

(** The text with its tombstone set to [r]. *)
Definition with_removedAt (t : Text) (r : Ticket) : Text :=
  {| rgaTreeSplit := rgaTreeSplit t;
     selectionMap := selectionMap t;
     createdAt := createdAt t;
     movedAt := movedAt t;
     removedAt := Some r |}.

(** The condition under which [Remove] takes effect: [r] is after the creation
    of the text and after the tombstone, if there is one. *)
Definition removable (t : Text) (r : Ticket) : bool :=
  Ticket_After r (createdAt t)
  && match removedAt t with
     | None => true
     | Some prev => Ticket_After r prev
     end.

(** The text a returning call leaves; the text itself stands for a panic. *)
Definition after_call (t : Text) (o : outcome (Text * bool)) : Text :=
  match o with
  | Returned (t', _) => t'
  | Panicked _ => t
  end.

Definition ticket (n : Z) : Ticket := mkTicket n 0 "A".

(** A text created at ticket 5, with one node "HELLO". *)
Definition text5 : Text :=
  NewText
    {| initialHead := NewRGATreeSplitNode (mkNodeID (ticket 0) 0)
                        (NewTextValue EmptyString NewRHT);
       after_head := [NewRGATreeSplitNode (mkNodeID (ticket 6) 0) hello] |}
    (ticket 5).

(** The text with [sel] recorded as the selection of the actor of [sel]. *)
Definition with_selection (t : Text) (sel : Selection) : Text :=
  {| rgaTreeSplit := rgaTreeSplit t;
     selectionMap :=
       <[Ticket_ActorIDHex (sel_updatedAt sel) := sel]> (selectionMap t);
     createdAt := createdAt t;
     movedAt := movedAt t;
     removedAt := removedAt t |}.

(** The selection recorded for the actor of ticket [e]. *)
Definition selection_of (t : Text) (e : Ticket) : option Selection :=
  selectionMap t !! Ticket_ActorIDHex e.

Definition pos (n k : Z) : RGATreeSplitNodePos :=
  mkNodePos (mkNodeID (ticket n) 0) k.

(** [text5] after actor "A" selected [(0,3)] at ticket 9. *)
Definition text5_selected : Text :=
  Text_Select text5 (pos 6 0) (pos 6 3) (ticket 9).

(** A node contributes to the rendered text: its creation ticket is not the
    creation ticket of the text, and it carries no tombstone. *)
Definition contributes (createdAt : Ticket) (n : RGATreeSplitNode) : bool :=
  negb (bool_decide (node_createdAt n = createdAt)) && is_nil (node_removedAt n).

(** The live fragments of a text, in sequence order, the initial head left
    out. *)
Definition live_fragments (t : Text) : list RGATreeSplitNode :=
  filter (fun n => contributes (createdAt t) n)
    (RGATreeSplit_nodes (rgaTreeSplit t)).

Definition concat_strings (l : list string) : string :=
  fold_right String.append EmptyString l.

(** The text with another sequence. *)
Definition with_rgaTreeSplit (t : Text) (s : RGATreeSplit) : Text :=
  {| rgaTreeSplit := s;
     selectionMap := selectionMap t;
     createdAt := createdAt t;
     movedAt := movedAt t;
     removedAt := removedAt t |}.

(** A text created at 5 with the fragments "HE", live, and "LLO", removed at
    ticket 7, and a placeholder node created with the text. *)
Definition text_he : Text :=
  NewText
    {| initialHead := NewRGATreeSplitNode (mkNodeID (ticket 0) 0)
                        (NewTextValue EmptyString NewRHT);
       after_head :=
         [ mkNode (mkNodeID (ticket 6) 0) (NewTextValue "HE" NewRHT) None None;
           mkNode (mkNodeID (ticket 6) 2) (NewTextValue "LLO" NewRHT)
             (Some (ticket 7)) (Some (mkNodeID (ticket 6) 0));
           mkNode (mkNodeID (ticket 5) 0) (NewTextValue "X" NewRHT) None None ] |}
    (ticket 5).

(** A document: the root object, created at 1, the text [text5] and a scalar
    created at 10 that no container holds yet. *)
Definition sample_document : Document :=
  {| heap := {[ 1%positive := ElemObject (NewObject NewRHT (ticket 1));
                2%positive := ElemText text5;
                3%positive := ElemPrimitive "v" (ticket 10) ]};
     root := {| elementMapByCreatedAt :=
                  {[ ticket 1 := 1%positive; ticket 5 := 2%positive ]} |} |}.

(** The outcome of [Execute] on an object: the member written, then the value
    registered. *)
Definition executed (o : SetOp) (d : Document) (obj : loc) (target : Object)
    (e : Element) : Document :=
  {| heap :=
       <[obj := ElemObject
                  {| members := RHT_Set (set_key o) (set_value o)
                                  (Element_CreatedAt e) (members target);
                     obj_createdAt := obj_createdAt target |}]> (heap d);
     root := {| elementMapByCreatedAt :=
                  <[Element_CreatedAt e := set_value o]>
                    (elementMapByCreatedAt (root d)) |} |}.

Definition is_object (e : Element) : bool :=
  match e with
  | ElemObject _ => true
  | _ => false
  end.

(** Every recorded insertion predecessor of the nodes [l] is found when it is
    looked up: it is the identity of a node copied before, [seen], or of the
    node itself. *)
Fixpoint insPrev_found (seen : list RGATreeSplitNodeID)
    (l : list RGATreeSplitNode) : bool :=
  match l with
  | [] => true
  | n :: rest =>
      match node_insPrev n with
      | None => true
      | Some p => bool_decide (p ∈ seen ++ [node_id n])
      end
      && insPrev_found (seen ++ [node_id n]) rest
  end.

(** [text_he] with the insertion predecessor of "LLO" replaced by the identity
    of a node that is not in the sequence. *)
Definition text_corrupt : Text :=
  NewText
    {| initialHead := NewRGATreeSplitNode (mkNodeID (ticket 0) 0)
                        (NewTextValue EmptyString NewRHT);
       after_head :=
         [ mkNode (mkNodeID (ticket 6) 0) (NewTextValue "HE" NewRHT) None None;
           mkNode (mkNodeID (ticket 6) 2) (NewTextValue "LLO" NewRHT)
             (Some (ticket 7)) (Some (mkNodeID (ticket 4) 0)) ] |}
    (ticket 5).

(** What is left of a rune after a conversion to a string and back: a
    surrogate or a value out of range has become [RuneError]. *)
Definition sanitize (r : Z) : Z := if is_scalar r then r else RuneError.

(** A string is well-formed UTF-8: it is the encoding of its own runes
    ([utf8.ValidString]). *)
Definition valid_utf8 (s : string) : bool :=
  String.eqb (string_of_runes (runes_of_string s)) s.

(** The UTF-16 code units of a value, the ones [Len] counts. *)
Definition code_units (t : TextValue) : list Z :=
  utf16_Encode (runes_of_string (tv_value t)).

(** A code unit is the second half of a surrogate pair. *)
Definition is_low_surrogate (u : Z) : bool := (surr2 <=? u) && (u <? surr3).

(** The offset [k] falls between the two code units of a surrogate pair of
    [encoded]. *)
Definition splits_pair (encoded : list Z) (k : nat) : bool :=
  match encoded !! k with
  | Some u => is_low_surrogate u
  | None => false
  end.

(** Two nodes differ in the attributes of their values at most. *)
Definition same_but_attrs (n n' : RGATreeSplitNode) : Prop :=
  node_id n' = node_id n
  /\ tv_value (node_value n') = tv_value (node_value n)
  /\ node_removedAt n' = node_removedAt n
  /\ node_insPrev n' = node_insPrev n.

(** [l'] is [l], or [l] with one node replaced by the two parts of its
    split. *)
Definition split_step (l l' : list RGATreeSplitNode) : Prop :=
  l' = l
  \/ exists pre n post k h tl,
       l = pre ++ n :: post
       /\ RGATreeSplitNode_split n k = Returned (h, tl)
       /\ l' = pre ++ h :: tl :: post.

(** The node [findNodeWithSplit] finds for a position, with its place in the
    sequence and the offset of the position in the node. *)
Definition find_boundary (s : RGATreeSplit) (pos : RGATreeSplitNodePos)
    : option (nat * RGATreeSplitNode * Z) :=
  let absoluteID :=
    {| id_createdAt := id_createdAt (pos_id pos);
       id_offset := id_offset (pos_id pos) + pos_relativeOffset pos |} in
  match list_find (fun n => covers absoluteID n) (all_nodes s) with
  | None => None
  | Some (i, node) =>
      Some (i, node, id_offset absoluteID - id_offset (node_id node))
  end.


(** The initial head is the empty node [InitialTextNode] makes. *)
Definition head_empty (s : RGATreeSplit) : Prop :=
  tv_value (node_value (initialHead s)) = EmptyString.

(** A value whose string is the single byte 0xFF, which is not UTF-8. *)
Definition byte_ff : TextValue := NewTextValue (string_of_bytes [0xFF]) NewRHT.

(** A text created at 5 whose only fragment is U+1F600. *)
Definition text_grinning : Text :=
  NewText
    {| initialHead := NewRGATreeSplitNode (mkNodeID (ticket 0) 0)
                        (NewTextValue EmptyString NewRHT);
       after_head := [NewRGATreeSplitNode (mkNodeID (ticket 6) 0) grinning] |}
    (ticket 5).

Definition bold : gmap string string := {[ "bold" := "true" ]}.


(* ===================================================================== *)
(** ** The other functions of text.go                                     *)
(* ===================================================================== *)

(** [func (t *Text) CreatedAt()], [RemovedAt()], [MovedAt()] *)
Definition Text_CreatedAt (t : Text) : Ticket := createdAt t.
Definition Text_RemovedAt (t : Text) : option Ticket := removedAt t.
Definition Text_MovedAt (t : Text) : option Ticket := movedAt t.

(** [func (t *Text) SetMovedAt(movedAt *time.Ticket)] *)
Definition Text_SetMovedAt (t : Text) (movedAt' : option Ticket) : Text :=
  {| rgaTreeSplit := rgaTreeSplit t;
     selectionMap := selectionMap t;
     createdAt := createdAt t;
     movedAt := movedAt';
     removedAt := removedAt t |}.

(** [func (t *Text) SetRemovedAt(removedAt *time.Ticket)] *)
Definition Text_SetRemovedAt (t : Text) (removedAt' : option Ticket) : Text :=
  {| rgaTreeSplit := rgaTreeSplit t;
     selectionMap := selectionMap t;
     createdAt := createdAt t;
     movedAt := movedAt t;
     removedAt := removedAt' |}.

(** [func (t *Text) Nodes()] *)
Definition Text_Nodes (t : Text) : list RGATreeSplitNode :=
  RGATreeSplit_nodes (rgaTreeSplit t).

Section Edit.

(** [RGATreeSplit.edit] is not among the sources: it is a parameter.  It
    gives the sequence after the edit, the cursor position and the map of the
    latest tickets by actor, or panics. *)
Variable RGATreeSplit_edit :
  RGATreeSplit -> RGATreeSplitNodePos -> RGATreeSplitNodePos ->
  gmap string Ticket -> TextValue -> Ticket ->
  outcome (RGATreeSplit * RGATreeSplitNodePos * gmap string Ticket).

(** [func (t *Text) Edit(from, to, latestCreatedAtMapByActor, content,
    attributes, executedAt)]: the text after the call, the cursor position
    and the map of the latest tickets. *)
Definition Text_Edit (t : Text) (from to : RGATreeSplitNodePos)
    (latestCreatedAtMapByActor : gmap string Ticket) (content : string)
    (attributes : gmap string string) (executedAt : Ticket)
    : outcome (Text * RGATreeSplitNodePos * gmap string Ticket) :=
  let val := set_attributes attributes executedAt (NewTextValue content NewRHT) in
  '(s, cursorPos, latest) ←
    RGATreeSplit_edit (rgaTreeSplit t) from to latestCreatedAtMapByActor val
      executedAt;
  Returned
    ({| rgaTreeSplit := s;
        selectionMap := selectionMap t;
        createdAt := createdAt t;
        movedAt := movedAt t;
        removedAt := removedAt t |}, cursorPos, latest).

End Edit.

(** A run of [Remove] calls, one after the other. *)
Definition Text_Remove_all (t : Text) (rs : list (option Ticket)) : Text :=
  fold_left (fun u r => after_call u (Text_Remove u r)) rs t.

(** A run of [Select] calls, one after the other. *)
Definition Text_Select_all (t : Text)
    (calls : list (RGATreeSplitNodePos * RGATreeSplitNodePos * Ticket)) : Text :=
  fold_left (fun u c => Text_Select u c.1.1 c.1.2 c.2) calls t.

(** The loop [for key, value := range attributes { val.attrs.Set(key, value,
    executedAt) }] run over the entries of the map in a given order: Go leaves
    the order of the iteration over a map open. *)
Definition set_attributes_in_order (entries : list (string * string))
    (executedAt : Ticket) (val : TextValue) : TextValue :=
  {| tv_value := tv_value val;
     tv_attrs :=
       fold_left (fun attrs kv => RHT_Set kv.1 kv.2 executedAt attrs)
         entries (tv_attrs val) |}.

(** The entry a write of [value] at [executedAt] leaves where [prev] was. *)
Definition written (prev : option (RHTEntry string)) (value : string)
    (executedAt : Ticket) : RHTEntry string :=
  match prev with
  | Some p =>
      if supersedes executedAt p
      then mkRHTEntry value executedAt None else p
  | None => mkRHTEntry value executedAt None
  end.

(** The length of the text the nodes hold, in UTF-16 code units: the sum of
    the lengths of the nodes that contribute to [Text.String]. *)
Definition live_length (createdAt : Ticket) (l : list RGATreeSplitNode) : Z :=
  fold_right Z.add 0
    (map RGATreeSplitNode_contentLen
       (filter (fun n => contributes createdAt n) l)).

(** The node [n'] is the node [n] as [Style] leaves it: untouched, or with
    each of the given attributes written into it at [executedAt]. *)
Definition styled_from (attributes : gmap string string) (executedAt : Ticket)
    (n n' : RGATreeSplitNode) : Prop :=
  n' = n
  \/ (same_but_attrs n n'
      /\ forall k,
           tv_attrs (node_value n') !! k
           = match attributes !! k with
             | Some v =>
                 Some (written (tv_attrs (node_value n) !! k) v executedAt)
             | None => tv_attrs (node_value n) !! k
             end).

(** The string holds ASCII characters only: every byte is below 0x80. *)
Definition is_ascii (s : string) : bool :=
  forallb (fun b => b <? 0x80) (bytes_of_string s).




(** What the loop of [DeepCopy] keeps true, from the memory [m0] of the call
    to the memory [mc] it has reached: the objects of [m0] are as they were;
    the nodes [locs] of the copy [s'], in order, with their values and
    attributes, are objects of [mn], which are objects of [mc] and none of
    [m0]; read from [mn] alone they are the nodes [Ns]. *)
Definition copy_invariant (m0 mc mn : memory) (s' : loc) (locs : list loc)
    (Ns : list RGATreeSplitNode) : Prop :=
  m0 ⊆ mc /\ mn ⊆ mc /\ mn ##ₘ m0
  /\ mn !! s' = None /\ m0 !! s' = None
  /\ (exists h tl, locs = h :: tl /\ mc !! s' = Some (CellRGATreeSplit h tl))
  /\ Forall2 (fun p n => read_Node mn p = Some n) locs Ns
  /\ NoDup locs.

(** The text [text_he] as objects of a memory: the text at 14, its sequence
    at 13, the initial head at 3 and the nodes at 6, 9 and 12, each with its
    value and its attributes. *)
Definition memory_he : memory :=
  list_to_map
    [ (1%positive, CellRHT NewRHT);
      (2%positive, CellTextValue EmptyString 1%positive);
      (3%positive, CellNode (mkNodeID (ticket 0) 0) 2%positive None None);
      (4%positive, CellRHT NewRHT);
      (5%positive, CellTextValue "HE" 4%positive);
      (6%positive, CellNode (mkNodeID (ticket 6) 0) 5%positive None None);
      (7%positive, CellRHT NewRHT);
      (8%positive, CellTextValue "LLO" 7%positive);
      (9%positive, CellNode (mkNodeID (ticket 6) 2) 8%positive
                     (Some (ticket 7)) (Some 6%positive));
      (10%positive, CellRHT NewRHT);
      (11%positive, CellTextValue "X" 10%positive);
      (12%positive, CellNode (mkNodeID (ticket 5) 0) 11%positive None None);
      (13%positive, CellRGATreeSplit 3%positive
                      [6%positive; 9%positive; 12%positive]);
      (14%positive, CellText 13%positive ∅ (ticket 5) None None) ].

(* ===================================================================== *)
(** * Properties                                                          *)
(* ===================================================================== *)

(** ** The order of tickets *)

Lemma string_compare_refl (s : string) : String.compare s s = Eq.
Proof.
  induction s as [|c s IH]; simpl; [reflexivity|].
  unfold Ascii.compare. rewrite N.compare_refl. exact IH.
Qed.

Lemma string_compare_gt_trans (a b c : string) :
  String.compare a b = Gt -> String.compare b c = Gt -> String.compare a c = Gt.
Proof.
  revert b c. induction a as [|x a IH]; intros [|y b] [|z c]; simpl;
    try discriminate; try reflexivity.
  unfold Ascii.compare.
  destruct (N.compare_spec (N_of_ascii x) (N_of_ascii y)) as [Hxy|Hxy|Hxy];
    try discriminate;
    destruct (N.compare_spec (N_of_ascii y) (N_of_ascii z)) as [Hyz|Hyz|Hyz];
    try discriminate; intros H1 H2;
    destruct (N.compare_spec (N_of_ascii x) (N_of_ascii z)) as [Hxz|Hxz|Hxz];
    try lia; try reflexivity; eauto.
Qed.

Lemma Ticket_Compare_refl (t : Ticket) : Ticket_Compare t t = Eq.
Proof.
  unfold Ticket_Compare. rewrite !Z.compare_refl. apply string_compare_refl.
Qed.

Lemma Ticket_Compare_eq (a b : Ticket) : Ticket_Compare a b = Eq <-> a = b.
Proof.
  split; [|intros ->; apply Ticket_Compare_refl].
  unfold Ticket_Compare. destruct a as [l1 d1 a1], b as [l2 d2 a2]; simpl.
  destruct (Z.compare_spec l1 l2); try discriminate.
  destruct (Z.compare_spec d1 d2); try discriminate.
  intros Hs%String.compare_eq_iff. congruence.
Qed.

Lemma Ticket_Compare_antisym (a b : Ticket) :
  Ticket_Compare a b = CompOpp (Ticket_Compare b a).
Proof.
  unfold Ticket_Compare.
  rewrite (Z.compare_antisym (lamport a) (lamport b)).
  rewrite (Z.compare_antisym (delimiter a) (delimiter b)).
  rewrite (String.compare_antisym (actorID a) (actorID b)).
  destruct (lamport a ?= lamport b); simpl; try reflexivity.
  destruct (delimiter a ?= delimiter b); simpl; reflexivity.
Qed.

Lemma Ticket_After_irrefl (t : Ticket) : Ticket_After t t = false.
Proof. unfold Ticket_After. rewrite Ticket_Compare_refl. reflexivity. Qed.

Lemma Ticket_After_asym (a b : Ticket) :
  Ticket_After a b = true -> Ticket_After b a = false.
Proof.
  unfold Ticket_After. rewrite (Ticket_Compare_antisym b a).
  destruct (Ticket_Compare a b); simpl; congruence.
Qed.

Lemma Ticket_After_trans (a b c : Ticket) :
  Ticket_After a b = true -> Ticket_After b c = true -> Ticket_After a c = true.
Proof.
  unfold Ticket_After, Ticket_Compare.
  destruct a as [l1 d1 a1], b as [l2 d2 a2], c as [l3 d3 a3]; simpl.
  destruct (Z.compare_spec l1 l2); try discriminate;
    destruct (Z.compare_spec l2 l3); try discriminate;
    destruct (Z.compare_spec l1 l3); try lia; try reflexivity.
  destruct (Z.compare_spec d1 d2); try discriminate;
    destruct (Z.compare_spec d2 d3); try discriminate;
    destruct (Z.compare_spec d1 d3); try lia; try reflexivity.
  destruct (String.compare a1 a2) eqn:E1; try discriminate.
  destruct (String.compare a2 a3) eqn:E2; try discriminate.
  rewrite (string_compare_gt_trans _ _ _ E1 E2). reflexivity.
Qed.

(** The order is total: of two different tickets one is after the other. *)
Lemma Ticket_After_total (a b : Ticket) :
  a <> b -> Ticket_After a b = true \/ Ticket_After b a = true.
Proof.
  intros Hne. unfold Ticket_After. rewrite (Ticket_Compare_antisym b a).
  destruct (Ticket_Compare a b) eqn:E; simpl; auto.
  apply Ticket_Compare_eq in E. contradiction.
Qed.

(** ** Text.Remove *)

Lemma Text_Remove_spec (t : Text) (r : Ticket) :
  Text_Remove t (Some r)
  = Returned (if removable t r then (with_removedAt t r, true) else (t, false)).
Proof.
  unfold Text_Remove, removable, and_then, or_else, with_removedAt; simpl.
  destruct (Ticket_After r (createdAt t)); simpl; [|reflexivity].
  destruct (removedAt t) as [prev|]; simpl; [|reflexivity].
  destruct (Ticket_After r prev); reflexivity.
Qed.

Lemma removable_after_Remove (t : Text) (t0 t1 : Ticket) :
  Ticket_After t1 t0 = true ->
  removable (after_call t (Text_Remove t (Some t1))) t0 = false.
Proof.
  intros Hlt. rewrite Text_Remove_spec. unfold removable.
  destruct (Ticket_After t1 (createdAt t)) eqn:Hc; simpl.
  - destruct (removedAt t) as [prev|] eqn:Hr; simpl.
    + destruct (Ticket_After t1 prev) eqn:Hp; simpl.
      * rewrite (Ticket_After_asym _ _ Hlt). apply andb_false_r.
      * rewrite Hr.
        destruct (Ticket_After t0 prev) eqn:H0; [|apply andb_false_r].
        rewrite (Ticket_After_trans _ _ _ Hlt H0) in Hp. discriminate.
    + rewrite (Ticket_After_asym _ _ Hlt). apply andb_false_r.
  - destruct (Ticket_After t0 (createdAt t)) eqn:H0; [|reflexivity].
    rewrite (Ticket_After_trans _ _ _ Hlt H0) in Hc. discriminate.
Qed.

(** C10: [Remove(nil)] returns, with false, and leaves the text as it is, for
    every text: the test [removedAt != nil] keeps both comparisons, which
    would dereference the absent ticket, from being evaluated. *)
Theorem Text_Remove_nil (t : Text) :
  Text_Remove t None = Returned (t, false)
  /\ (forall other, exists msg, Ticket_After_ptr None other = Panicked msg).
Proof.
  split.
  - unfold Text_Remove, and_then. simpl. reflexivity.
  - intros other. eexists. reflexivity.
Qed.

(** C2, as amended: [Remove(r)] sets [removedAt] to [r] and returns true
    exactly when [r] is after [createdAt] and after the recorded [removedAt],
    if any, and otherwise returns false and changes nothing.  A [Remove(t0)]
    that follows a [Remove(t1)] with [t0] before [t1] returns false and
    changes nothing, so that [removedAt] is [t1] whenever [Remove(t1)] took
    effect; and [Remove] with a ticket before [createdAt] returns false and
    leaves the text, live or not, as it was. *)
Theorem Text_Remove_monotonic (t : Text) (r t0 t1 : Ticket) :
  Ticket_After t1 t0 = true ->
  (Text_Remove t (Some r)
   = Returned
       (if Ticket_After r (createdAt t)
           && match removedAt t with
              | None => true
              | Some prev => Ticket_After r prev
              end
        then (with_removedAt t r, true) else (t, false)))
  /\ (exists t' b,
        Text_Remove t (Some t1) = Returned (t', b)
        /\ Text_Remove t' (Some t0) = Returned (t', false)
        /\ (b = true -> removedAt t' = Some t1))
  /\ (Ticket_After (createdAt t) r = true ->
      Text_Remove t (Some r) = Returned (t, false)).
Proof.
  intros Hlt. split; [apply Text_Remove_spec|]. split.
  - pose proof (removable_after_Remove t t0 t1 Hlt) as Hno.
    rewrite Text_Remove_spec in Hno |- *.
    destruct (removable t t1); simpl in Hno;
      eexists _, _; (split; [reflexivity|]);
      rewrite Text_Remove_spec, Hno; split; try reflexivity; discriminate.
  - intros Hb. rewrite Text_Remove_spec. unfold removable.
    rewrite (Ticket_After_asym _ _ Hb). reflexivity.
Qed.

Lemma Text_Remove_monotonic_witness :
  Ticket_After (ticket 8) (ticket 7) = true
  /\ exists t',
       Text_Remove text5 (Some (ticket 8)) = Returned (t', true)
       /\ Text_Remove t' (Some (ticket 7)) = Returned (t', false)
       /\ removedAt t' = Some (ticket 8).
Proof.
  split; [reflexivity|].
  destruct (Text_Remove_monotonic text5 (ticket 8) (ticket 7) (ticket 8) eq_refl)
    as (_ & (t' & b & H1 & H2 & H3) & _).
  exists t'.
  assert (b = true) as -> by (vm_compute in H1; congruence).
  auto.
Defined.

(** C2, counterexample to the property as the spec states it: on a text
    created at 5, [Remove(3)] then [Remove(2)], with 2 before 3, leaves
    [removedAt] absent, not 3. *)
Lemma Text_Remove_sequence_counterexample :
  Ticket_After (ticket 3) (ticket 2) = true
  /\ (t1 ← Text_Remove text5 (Some (ticket 3));
      t2 ← Text_Remove t1.1 (Some (ticket 2));
      Returned (removedAt t2.1)) = Returned None.
Proof. split; reflexivity. Qed.

(** ** Text.Select *)

Lemma Text_Select_spec (t : Text) (from to : RGATreeSplitNodePos) (e : Ticket) :
  Text_Select t from to e
  = match selection_of t e with
    | None => with_selection t (newSelection from to e)
    | Some prev =>
        if Ticket_After e (sel_updatedAt prev)
        then with_selection t (newSelection from to e) else t
    end.
Proof. reflexivity. Qed.

Lemma selection_of_with_selection (t : Text) (sel : Selection) (e : Ticket) :
  Ticket_ActorIDHex e = Ticket_ActorIDHex (sel_updatedAt sel) ->
  selection_of (with_selection t sel) e = Some sel.
Proof.
  intros Hk. unfold selection_of, with_selection; simpl.
  rewrite Hk. apply lookup_insert_eq.
Qed.

Lemma with_selection_twice (t : Text) (s1 s2 : Selection) :
  Ticket_ActorIDHex (sel_updatedAt s1) = Ticket_ActorIDHex (sel_updatedAt s2) ->
  with_selection (with_selection t s1) s2 = with_selection t s2.
Proof.
  intros Hk. unfold with_selection; simpl. f_equal.
  rewrite Hk. apply insert_insert_eq.
Qed.

Lemma selection_of_same_actor (t : Text) (t1 t2 : Ticket) :
  Ticket_ActorIDHex t1 = Ticket_ActorIDHex t2 ->
  selection_of t t1 = selection_of t t2.
Proof. intros Hk. unfold selection_of. rewrite Hk. reflexivity. Qed.

(** Two selections of one actor, the second with the later ticket, commute. *)
Lemma Text_Select_commute (t : Text) (f1 o1 f2 o2 : RGATreeSplitNodePos)
    (t1 t2 : Ticket) :
  Ticket_ActorIDHex t1 = Ticket_ActorIDHex t2 ->
  Ticket_After t2 t1 = true ->
  Text_Select (Text_Select t f1 o1 t1) f2 o2 t2
  = Text_Select (Text_Select t f2 o2 t2) f1 o1 t1.
Proof.
  intros Hk Hlt.
  pose proof (Ticket_After_asym _ _ Hlt) as Hgt.
  assert (Hwin : forall u : Text,
    Text_Select (with_selection u (newSelection f1 o1 t1)) f2 o2 t2
    = with_selection u (newSelection f2 o2 t2)).
  { intros u. rewrite Text_Select_spec.
    rewrite selection_of_with_selection by (simpl; congruence). simpl.
    rewrite Hlt. apply with_selection_twice. simpl. exact Hk. }
  assert (Hlose : forall u : Text,
    Text_Select (with_selection u (newSelection f2 o2 t2)) f1 o1 t1
    = with_selection u (newSelection f2 o2 t2)).
  { intros u. rewrite Text_Select_spec.
    rewrite selection_of_with_selection by (simpl; congruence). simpl.
    rewrite Hgt. reflexivity. }
  rewrite (Text_Select_spec t f1 o1 t1), (Text_Select_spec t f2 o2 t2).
  rewrite (selection_of_same_actor t t1 t2 Hk).
  destruct (selection_of t t2) as [prev|] eqn:Hprev.
  - destruct (Ticket_After t1 (sel_updatedAt prev)) eqn:H1.
    + rewrite (Ticket_After_trans _ _ _ Hlt H1). rewrite Hwin, Hlose. reflexivity.
    + destruct (Ticket_After t2 (sel_updatedAt prev)) eqn:H2.
      * rewrite Hlose. rewrite Text_Select_spec, Hprev, H2. reflexivity.
      * rewrite !Text_Select_spec.
        rewrite (selection_of_same_actor t t1 t2 Hk), Hprev, H1, H2.
        reflexivity.
  - rewrite Hwin, Hlose. reflexivity.
Qed.

(** C9: without an entry for the actor of the ticket, [Select] installs the
    selection whatever the ticket; with an entry whose ticket is the ticket of
    the call, [Select] changes nothing; and with an entry, [Select] installs
    the selection exactly when the ticket of the call is strictly after the
    ticket of the entry: a ticket that is not after it, an earlier one
    included, changes nothing. *)
Theorem Text_Select_first_write_and_tie (t : Text)
    (from to : RGATreeSplitNodePos) (e : Ticket) :
  (selection_of t e = None ->
   Text_Select t from to e = with_selection t (newSelection from to e)
   /\ selection_of (Text_Select t from to e) e = Some (newSelection from to e))
  /\ (forall prev, selection_of t e = Some prev -> sel_updatedAt prev = e ->
      Text_Select t from to e = t)
  /\ (forall prev, selection_of t e = Some prev ->
      Ticket_After (sel_updatedAt prev) e = true ->
      Text_Select t from to e = t)
  /\ (forall prev, selection_of t e = Some prev ->
      Ticket_After e (sel_updatedAt prev) = false ->
      Text_Select t from to e = t)
  /\ (forall prev, selection_of t e = Some prev ->
      Ticket_After e (sel_updatedAt prev) = true ->
      Text_Select t from to e = with_selection t (newSelection from to e)
      /\ selection_of (Text_Select t from to e) e
         = Some (newSelection from to e))
  /\ (Text_Select t from to e <> t ->
      selection_of t e = None
      \/ exists prev, selection_of t e = Some prev
                      /\ Ticket_After e (sel_updatedAt prev) = true).
Proof.
  split; [|split; [|split; [|split; [|split]]]].
  - intros Hnone. rewrite Text_Select_spec, Hnone. split; [reflexivity|].
    apply selection_of_with_selection. reflexivity.
  - intros prev Hprev He. rewrite Text_Select_spec, Hprev, He.
    rewrite Ticket_After_irrefl. reflexivity.
  - intros prev Hprev Hearlier. rewrite Text_Select_spec, Hprev.
    rewrite (Ticket_After_asym _ _ Hearlier). reflexivity.
  - intros prev Hprev Hnot. rewrite Text_Select_spec, Hprev, Hnot. reflexivity.
  - intros prev Hprev Hafter. rewrite Text_Select_spec, Hprev, Hafter.
    split; [reflexivity|]. apply selection_of_with_selection. reflexivity.
  - intros Hchanged. rewrite Text_Select_spec in Hchanged.
    destruct (selection_of t e) as [prev|]; [|left; reflexivity].
    right. exists prev. split; [reflexivity|].
    destruct (Ticket_After e (sel_updatedAt prev)); [reflexivity|].
    exfalso. apply Hchanged. reflexivity.
Qed.

Lemma Text_Select_first_write_and_tie_witness :
  (selection_of text5 (ticket 1) = None
   /\ selection_of (Text_Select text5 (pos 6 0) (pos 6 3) (ticket 1)) (ticket 1)
      = Some (newSelection (pos 6 0) (pos 6 3) (ticket 1)))
  /\ (selection_of text5_selected (ticket 9)
      = Some (newSelection (pos 6 0) (pos 6 3) (ticket 9))
      /\ Text_Select text5_selected (pos 6 1) (pos 6 2) (ticket 9)
         = text5_selected)
  /\ (selection_of text5_selected (ticket 8)
      = Some (newSelection (pos 6 0) (pos 6 3) (ticket 9))
      /\ Text_Select text5_selected (pos 6 1) (pos 6 2) (ticket 8)
         = text5_selected).
Proof.
  split; [|split].
  - split; [reflexivity|].
    apply (Text_Select_first_write_and_tie text5 (pos 6 0) (pos 6 3) (ticket 1)).
    reflexivity.
  - split; [reflexivity|].
    apply (proj1 (proj2 (Text_Select_first_write_and_tie text5_selected
                           (pos 6 1) (pos 6 2) (ticket 9)))
             (newSelection (pos 6 0) (pos 6 3) (ticket 9)));
      reflexivity.
  - split; [reflexivity|].
    apply (proj1 (proj2 (proj2 (Text_Select_first_write_and_tie text5_selected
                                  (pos 6 1) (pos 6 2) (ticket 8))))
             (newSelection (pos 6 0) (pos 6 3) (ticket 9)));
      reflexivity.
Defined.

(** C3, as amended: two [Select] calls of one actor with tickets [t1] and [t2],
    [t2] after [t1], give the same text in either order; the selection
    recorded for the actor is then the one executed at [t2] provided the text
    had no selection of the actor, or one with a ticket before [t2]; and a
    [Select] whose ticket is not after the ticket of the stored selection of
    its actor changes nothing. *)
Theorem Text_Select_last_writer_wins (t : Text)
    (f1 o1 f2 o2 : RGATreeSplitNodePos) (t1 t2 : Ticket) :
  Ticket_ActorIDHex t1 = Ticket_ActorIDHex t2 ->
  Ticket_After t2 t1 = true ->
  Text_Select (Text_Select t f1 o1 t1) f2 o2 t2
  = Text_Select (Text_Select t f2 o2 t2) f1 o1 t1
  /\ (match selection_of t t2 with
      | None => True
      | Some prev => Ticket_After t2 (sel_updatedAt prev) = true
      end ->
      selection_of (Text_Select (Text_Select t f1 o1 t1) f2 o2 t2) t2
      = Some (newSelection f2 o2 t2))
  /\ (forall prev f o e,
        selection_of t e = Some prev ->
        Ticket_After e (sel_updatedAt prev) = false ->
        Text_Select t f o e = t).
Proof.
  intros Hk Hlt. split; [exact (Text_Select_commute t f1 o1 f2 o2 t1 t2 Hk Hlt)|].
  split.
  - intros Hstored.
    rewrite (Text_Select_commute t f1 o1 f2 o2 t1 t2 Hk Hlt).
    assert (Text_Select t f2 o2 t2 = with_selection t (newSelection f2 o2 t2))
      as ->.
    { rewrite Text_Select_spec.
      destruct (selection_of t t2); [rewrite Hstored|]; reflexivity. }
    rewrite Text_Select_spec.
    rewrite selection_of_with_selection by (simpl; congruence). simpl.
    rewrite (Ticket_After_asym _ _ Hlt).
    apply selection_of_with_selection. reflexivity.
  - intros prev f o e Hprev Hnot.
    rewrite Text_Select_spec, Hprev, Hnot. reflexivity.
Qed.

Lemma Text_Select_last_writer_wins_witness :
  (Ticket_ActorIDHex (ticket 1) = Ticket_ActorIDHex (ticket 2)
   /\ Ticket_After (ticket 2) (ticket 1) = true)
  /\ Text_Select (Text_Select text5 (pos 6 0) (pos 6 3) (ticket 1))
       (pos 6 1) (pos 6 2) (ticket 2)
     = Text_Select (Text_Select text5 (pos 6 1) (pos 6 2) (ticket 2))
         (pos 6 0) (pos 6 3) (ticket 1)
  /\ selection_of
       (Text_Select (Text_Select text5 (pos 6 0) (pos 6 3) (ticket 1))
          (pos 6 1) (pos 6 2) (ticket 2)) (ticket 2)
     = Some (newSelection (pos 6 1) (pos 6 2) (ticket 2)).
Proof.
  split; [split; reflexivity|].
  destruct (Text_Select_last_writer_wins text5
              (pos 6 0) (pos 6 3) (pos 6 1) (pos 6 2) (ticket 1) (ticket 2)
              eq_refl eq_refl) as (Hc & Hw & _).
  split; [exact Hc|]. apply Hw. exact I.
Defined.

(** C3, counterexample to the property as the spec states it: on a text
    where actor A has a selection of ticket 9, the calls at tickets 1 and 2
    of the same actor, in either order, leave the selection of ticket 9 in
    place, not the one executed at 2. *)
Lemma Text_Select_counterexample :
  Ticket_ActorIDHex (ticket 1) = Ticket_ActorIDHex (ticket 2)
  /\ Ticket_After (ticket 2) (ticket 1) = true
  /\ selection_of
       (Text_Select (Text_Select text5_selected (pos 6 0) (pos 6 3) (ticket 1))
          (pos 6 1) (pos 6 2) (ticket 2)) (ticket 2)
     = Some (newSelection (pos 6 0) (pos 6 3) (ticket 9))
  /\ selection_of
       (Text_Select (Text_Select text5_selected (pos 6 0) (pos 6 3) (ticket 1))
          (pos 6 1) (pos 6 2) (ticket 2)) (ticket 2)
     <> Some (newSelection (pos 6 1) (pos 6 2) (ticket 2)).
Proof.
  split; [reflexivity|]. split; [reflexivity|].
  split; [reflexivity|]. vm_compute. discriminate.
Qed.

(** ** Text.String and Text.Marshal *)

Lemma string_app_cons (c : ascii) (a b : string) :
  String c a +:+ b = String c (a +:+ b).
Proof. reflexivity. Qed.

Lemma string_app_nil_l (s : string) : EmptyString +:+ s = s.
Proof. reflexivity. Qed.

Lemma string_app_nil_r (s : string) : s +:+ EmptyString = s.
Proof.
  induction s as [|c s IH]; [reflexivity|].
  rewrite string_app_cons, IH. reflexivity.
Qed.

Lemma string_app_assoc (a b c : string) : (a +:+ b) +:+ c = a +:+ (b +:+ c).
Proof.
  induction a as [|x a IH]; [reflexivity|].
  rewrite !string_app_cons, IH. reflexivity.
Qed.


Lemma strings_Join_empty_sep (l : list string) :
  strings_Join l EmptyString = concat_strings l.
Proof.
  destruct l as [|e rest]; [reflexivity|]. simpl.
  revert e. induction rest as [|x rest IH]; intros e; simpl.
  - symmetry. apply string_app_nil_r.
  - rewrite IH, string_app_nil_l. apply string_app_assoc.
Qed.

Lemma contributes_spec (c : Ticket) (n : RGATreeSplitNode) :
  contributes c n
  = match Ticket_Compare (node_createdAt n) c with
    | Eq => false
    | _ => is_nil (node_removedAt n)
    end.
Proof.
  unfold contributes.
  destruct (Ticket_Compare (node_createdAt n) c) eqn:E.
  - apply Ticket_Compare_eq in E. rewrite bool_decide_eq_true_2; auto.
  - rewrite bool_decide_eq_false_2; [reflexivity|].
    intros Heq%Ticket_Compare_eq. congruence.
  - rewrite bool_decide_eq_false_2; [reflexivity|].
    intros Heq%Ticket_Compare_eq. congruence.
Qed.

Lemma render_loop_filter (render : RGATreeSplitNode -> string) (c : Ticket)
    (l : list RGATreeSplitNode) (values : list string) :
  render_loop render c l values
  = values ++ map render (filter (fun n => contributes c n) l).
Proof.
  revert values. induction l as [|n l IH]; intros values; simpl.
  - rewrite app_nil_r. reflexivity.
  - rewrite IH. pose proof (contributes_spec c n) as Hc.
    destruct (Ticket_Compare (node_createdAt n) c);
      [rewrite filter_cons_False by (rewrite Hc; auto); reflexivity| |];
      (destruct (node_removedAt n); simpl in Hc;
       [rewrite filter_cons_False by (rewrite Hc; auto); reflexivity
       |rewrite filter_cons_True by (rewrite Hc; exact I);
        simpl; rewrite <- app_assoc; reflexivity]).
Qed.

Lemma Text_String_filter (t : Text) :
  Text_String t = concat_strings (map RGATreeSplitNode_String (live_fragments t)).
Proof.
  unfold Text_String.
  rewrite render_loop_filter, strings_Join_empty_sep. reflexivity.
Qed.

Lemma Text_Marshal_filter (EscapeString : string -> string)
    (RHT_Marshal : RHT string -> string) (t : Text) :
  Text_Marshal EscapeString RHT_Marshal t
  = "[" +:+ strings_Join
              (map (RGATreeSplitNode_Marshal EscapeString RHT_Marshal)
                 (live_fragments t)) ","
    +:+ "]".
Proof. unfold Text_Marshal. rewrite render_loop_filter. reflexivity. Qed.

(** C5: [String()] is the concatenation, in sequence order, of the values of
    the nodes behind the initial head that carry no tombstone and whose
    creation ticket is not the creation ticket of the text, and [Marshal()]
    joins the encodings of the same nodes; the initial head has no part in
    either, and a node with a tombstone, or created at the creation ticket of
    the text, can be taken out of the sequence without changing either. *)
Theorem Text_String_live_fragments
    (EscapeString : string -> string) (RHT_Marshal : RHT string -> string)
    (t : Text) :
  Text_String t = concat_strings (map RGATreeSplitNode_String (live_fragments t))
  /\ Text_Marshal EscapeString RHT_Marshal t
     = "[" +:+ strings_Join
                 (map (RGATreeSplitNode_Marshal EscapeString RHT_Marshal)
                    (live_fragments t)) ","
       +:+ "]"
  /\ (forall n, n ∈ live_fragments t <->
        n ∈ after_head (rgaTreeSplit t)
        /\ node_removedAt n = None /\ node_createdAt n <> createdAt t)
  /\ (forall h l,
        rgaTreeSplit t = mkRGATreeSplit h l ->
        forall h',
          Text_String (with_rgaTreeSplit t (mkRGATreeSplit h' l)) = Text_String t
          /\ Text_Marshal EscapeString RHT_Marshal
               (with_rgaTreeSplit t (mkRGATreeSplit h' l))
             = Text_Marshal EscapeString RHT_Marshal t)
  /\ (forall h l1 n l2,
        rgaTreeSplit t = mkRGATreeSplit h (l1 ++ n :: l2) ->
        node_removedAt n <> None \/ node_createdAt n = createdAt t ->
        Text_String (with_rgaTreeSplit t (mkRGATreeSplit h (l1 ++ l2)))
        = Text_String t
        /\ Text_Marshal EscapeString RHT_Marshal
             (with_rgaTreeSplit t (mkRGATreeSplit h (l1 ++ l2)))
           = Text_Marshal EscapeString RHT_Marshal t).
Proof.
  pose proof Text_String_filter as HS.
  pose proof (Text_Marshal_filter EscapeString RHT_Marshal) as HM.
  split; [apply HS|]. split; [apply HM|]. split; [|split].
  - intros n. unfold live_fragments, RGATreeSplit_nodes.
    rewrite list_elem_of_filter. unfold contributes.
    rewrite andb_True, negb_True, bool_decide_spec.
    destruct (node_removedAt n); simpl; intuition congruence.
  - intros h l Hs h'. rewrite !HS, !HM. unfold live_fragments; simpl.
    rewrite Hs. split; reflexivity.
  - intros h l1 n l2 Hs Hn. rewrite !HS, !HM. unfold live_fragments; simpl.
    rewrite Hs; unfold RGATreeSplit_nodes; simpl.
    rewrite !filter_app, filter_cons_False; [split; reflexivity|].
    unfold contributes. rewrite andb_True, negb_True, bool_decide_spec.
    destruct Hn as [Hn|Hn]; [destruct (node_removedAt n)|]; simpl; intuition.
Qed.

Lemma Text_String_live_fragments_witness :
  Text_String text_he = "HE"
  /\ Text_Marshal (fun s => s) (fun _ => "{}") text_he
     = "[{" +:+ quote +:+ "val" +:+ quote +:+ ":" +:+ quote +:+ "HE" +:+ quote
       +:+ "}]".
Proof.
  destruct (Text_String_live_fragments (fun s => s) (fun _ => "{}") text_he)
    as (HS & HM & _).
  rewrite HS, HM. split; reflexivity.
Defined.

(** ** Set.Execute *)

(** C4: when the target ticket resolves to an element that is not an Object,
    [Execute] returns an error and the document, its elements and its
    registry, is the one it was given. *)
Theorem Set_Execute_not_object (o : SetOp) (d : Document) (target : loc)
    (e : Element) :
  Root_FindByCreatedAt (root d) (set_parentCreatedAt o) = Some target ->
  heap d !! target = Some e ->
  is_object e = false ->
  exists err d',
    Set_Execute o d = Returned (d', Some err)
    /\ d' = d
    /\ heap d' = heap d
    /\ elementMapByCreatedAt (root d') = elementMapByCreatedAt (root d).
Proof.
  intros Hfind Hheap Hkind. unfold Set_Execute. rewrite Hfind, Hheap.
  destruct e; try discriminate; eexists _, _; repeat split; reflexivity.
Qed.

Lemma Set_Execute_not_object_witness :
  exists err,
    Set_Execute (NewSet "k" 3%positive (ticket 5) (ticket 11)) sample_document
    = Returned (sample_document, Some err).
Proof.
  destruct (Set_Execute_not_object
              (NewSet "k" 3%positive (ticket 5) (ticket 11)) sample_document
              2%positive (ElemText text5) eq_refl eq_refl eq_refl)
    as (err & d' & Hex & -> & _).
  exists err. exact Hex.
Defined.




(** ** Text.DeepCopy *)

Lemma TextValue_DeepCopy_id (v : TextValue) : TextValue_DeepCopy v = v.
Proof. destruct v; reflexivity. Qed.

Lemma FindNode_Some (s : RGATreeSplit) (id : RGATreeSplitNodeID) (p : nat) :
  RGATreeSplit_FindNode s id = Some p ->
  node_id <$> all_nodes s !! p = Some id.
Proof.
  unfold RGATreeSplit_FindNode.
  destruct (list_find _ _) as [[i n]|] eqn:E; simpl; [|discriminate].
  intros [= <-]. apply list_find_Some in E as (Hl & Hid & _).
  rewrite Hl. simpl. congruence.
Qed.

Lemma FindNode_is_Some (s : RGATreeSplit) (id : RGATreeSplitNodeID) :
  is_Some (RGATreeSplit_FindNode s id) <-> id ∈ map node_id (all_nodes s).
Proof.
  unfold RGATreeSplit_FindNode. rewrite list_elem_of_fmap. split.
  - intros [p Hp]. destruct (list_find _ _) as [[i n]|] eqn:E; [|discriminate].
    apply list_find_Some in E as (Hl & Hid & _).
    exists n. split; [auto|]. eapply list_elem_of_lookup_2; eauto.
  - intros (n & -> & Hin).
    destruct (list_find (fun m => node_id m = node_id n) (all_nodes s))
      as [[i m]|] eqn:E; [eexists; reflexivity|].
    apply list_find_None in E. rewrite Forall_forall in E.
    exfalso. exact (E n Hin eq_refl).
Qed.

Lemma DeepCopy_loop_spec (rest done : list RGATreeSplitNode) (h : RGATreeSplitNode) :
  DeepCopy_loop rest (mkRGATreeSplit h done) (length done)
  = if insPrev_found (map node_id (h :: done)) rest
    then Returned (mkRGATreeSplit h (done ++ rest))
    else Panicked "insPrevNode should be presence".
Proof.
  revert done. induction rest as [|n rest IH]; intros done.
  - simpl. rewrite app_nil_r. reflexivity.
  - cbn [DeepCopy_loop RGATreeSplit_InsertAfter after_head initialHead].
    rewrite take_ge, drop_ge by lia.
    set (copy := RGATreeSplitNode_DeepCopy n).
    set (s1 := {| initialHead := h; after_head := done ++ [copy] |}).
    assert (Hids : map node_id (all_nodes s1) = (map node_id (h :: done) ++ [node_id n])).
    { unfold all_nodes, s1; simpl. rewrite map_app. reflexivity. }
    cbn [insPrev_found]. unfold RGATreeSplitNode_InsPrevID.
    destruct (node_insPrev n) as [p|] eqn:Hp.
    + destruct (RGATreeSplit_FindNode s1 p) as [q|] eqn:Hq.
      * assert (Hin : p ∈ (map node_id (h :: done) ++ [node_id n])).
        { rewrite <- Hids. apply FindNode_is_Some. rewrite Hq. eauto. }
        rewrite bool_decide_eq_true_2 by exact Hin.
        apply FindNode_Some in Hq.
        assert (Hset : RGATreeSplit_SetInsPrev s1 (S (length done)) q
                       = mkRGATreeSplit h (done ++ [n])).
        { unfold RGATreeSplit_SetInsPrev, alter_node, s1; simpl. f_equal.
          replace (length done) with (length done + 0)%nat by lia.
          rewrite alter_app_r. simpl. f_equal. f_equal.
          fold s1. rewrite Hq. unfold copy, RGATreeSplitNode_DeepCopy; simpl.
          rewrite TextValue_DeepCopy_id. destruct n; simpl in *. congruence. }
        rewrite Hset.
        replace (S (length done)) with (length (done ++ [n]))
          by (rewrite length_app; simpl; lia).
        rewrite IH. simpl. rewrite map_app, <- app_assoc. reflexivity.
      * assert (Hnin : p ∉ (map node_id (h :: done) ++ [node_id n])).
        { rewrite <- Hids. intros Hin%FindNode_is_Some.
          rewrite Hq in Hin. destruct Hin; discriminate. }
        rewrite bool_decide_eq_false_2 by exact Hnin. reflexivity.
    + assert (Hcopy : copy = n).
      { unfold copy, RGATreeSplitNode_DeepCopy.
        rewrite TextValue_DeepCopy_id. destruct n; simpl in *. congruence. }
      unfold s1. rewrite Hcopy.
      replace (S (length done)) with (length (done ++ [n]))
        by (rewrite length_app; simpl; lia).
      rewrite IH. simpl. rewrite map_app, <- app_assoc. reflexivity.
Qed.

(** *** Text.DeepCopy over the objects of the memory *)

Lemma node_id_ptr_mono (m m' : memory) (p : loc) (id : RGATreeSplitNodeID) :
  m ⊆ m' -> node_id_ptr m p = Some id -> node_id_ptr m' p = Some id.
Proof.
  unfold node_id_ptr. intros Hsub.
  destruct (m !! p) as [c|] eqn:Hp; [|discriminate].
  rewrite (lookup_weaken _ _ _ _ Hp Hsub). trivial.
Qed.

Lemma read_TextValue_mono (m m' : memory) (p : loc) (v : TextValue) :
  m ⊆ m' -> read_TextValue m p = Some v -> read_TextValue m' p = Some v.
Proof.
  unfold read_TextValue. intros Hsub.
  destruct (m !! p) as [c|] eqn:Hp; [|discriminate].
  rewrite (lookup_weaken _ _ _ _ Hp Hsub).
  destruct c as [| value attrs | | |]; try discriminate.
  destruct (m !! attrs) as [c|] eqn:Ha; [|discriminate].
  rewrite (lookup_weaken _ _ _ _ Ha Hsub). trivial.
Qed.

Lemma read_Node_mono (m m' : memory) (p : loc) (n : RGATreeSplitNode) :
  m ⊆ m' -> read_Node m p = Some n -> read_Node m' p = Some n.
Proof.
  unfold read_Node. intros Hsub.
  destruct (m !! p) as [c|] eqn:Hp; [|discriminate].
  rewrite (lookup_weaken _ _ _ _ Hp Hsub).
  destruct c as [| | id value removed insPrev | |]; try discriminate.
  destruct (read_TextValue m value) as [v|] eqn:Hv; [|discriminate].
  rewrite (read_TextValue_mono _ _ _ _ Hsub Hv). cbn [mbind option_bind].
  destruct insPrev as [q|]; [|trivial].
  destruct (node_id_ptr m q) as [id'|] eqn:Hq; [|discriminate].
  rewrite (node_id_ptr_mono _ _ _ _ Hsub Hq). trivial.
Qed.

Lemma read_Nodes_mono (m m' : memory) (ps : list loc)
    (ns : list RGATreeSplitNode) :
  m ⊆ m' ->
  Forall2 (fun p n => read_Node m p = Some n) ps ns ->
  Forall2 (fun p n => read_Node m' p = Some n) ps ns.
Proof.
  intros Hsub Hall. eapply Forall2_impl; [exact Hall|].
  intros p n. apply read_Node_mono, Hsub.
Qed.

Lemma read_RGATreeSplit_Some (m : memory) (s : loc) (split : RGATreeSplit) :
  read_RGATreeSplit m s = Some split
  <-> exists h nodes,
        m !! s = Some (CellRGATreeSplit h nodes)
        /\ Forall2 (fun p n => read_Node m p = Some n) (h :: nodes)
             (all_nodes split).
Proof.
  unfold read_RGATreeSplit, all_nodes. split.
  - destruct (m !! s) as [[| | | h nodes |]|]; try discriminate.
    destruct (read_Node m h) as [hn|] eqn:Hh; [|discriminate].
    cbn [mbind option_bind].
    destruct (mapM (read_Node m) nodes) as [l|] eqn:Hl; [|discriminate].
    intros [= <-]. exists h, nodes. split; [reflexivity|].
    constructor; [exact Hh|]. apply mapM_Some. exact Hl.
  - intros (h & nodes & -> & Hall). destruct split as [hn l].
    cbn [initialHead after_head] in Hall.
    inversion Hall as [|? ? ? ? Hh Hl]; subst.
    rewrite Hh. cbn [mbind option_bind].
    rewrite (proj2 (mapM_Some _ _ _) Hl). reflexivity.
Qed.

Lemma read_RGATreeSplit_mono (m m' : memory) (s : loc) (split : RGATreeSplit) :
  m ⊆ m' -> read_RGATreeSplit m s = Some split ->
  read_RGATreeSplit m' s = Some split.
Proof.
  intros Hsub (h & nodes & Hs & Hall)%read_RGATreeSplit_Some.
  apply read_RGATreeSplit_Some. exists h, nodes.
  split; [exact (lookup_weaken _ _ _ _ Hs Hsub)|].
  exact (read_Nodes_mono _ _ _ _ Hsub Hall).
Qed.

Lemma read_Text_mono (m m' : memory) (t : loc) (T : Text) :
  m ⊆ m' -> read_Text m t = Some T -> read_Text m' t = Some T.
Proof.
  unfold read_Text. intros Hsub.
  destruct (m !! t) as [c|] eqn:Ht; [|discriminate].
  rewrite (lookup_weaken _ _ _ _ Ht Hsub).
  destruct c as [| | | | s sel c mv rm]; try discriminate.
  destruct (read_RGATreeSplit m s) as [split|] eqn:Hs; [|discriminate].
  rewrite (read_RGATreeSplit_mono _ _ _ _ Hsub Hs). trivial.
Qed.

Lemma read_Node_cells (m : memory) (p : loc) (n : RGATreeSplitNode) :
  read_Node m p = Some n
  <-> exists v a ins,
        m !! p = Some (CellNode (node_id n) v (node_removedAt n) ins)
        /\ m !! v = Some (CellTextValue (tv_value (node_value n)) a)
        /\ m !! a = Some (CellRHT (tv_attrs (node_value n)))
        /\ match ins with
           | Some q => node_insPrev n <> None
                       /\ node_id_ptr m q = node_insPrev n
           | None => node_insPrev n = None
           end.
Proof.
  unfold read_Node, read_TextValue. split.
  - destruct (m !! p) as [[| | id v r ins | |]|]; try discriminate.
    destruct (m !! v) as [[| s a | | |]|] eqn:Hv; try discriminate.
    destruct (m !! a) as [[rht | | | |]|] eqn:Ha; try discriminate.
    cbn [mbind option_bind].
    destruct ins as [q|].
    + destruct (node_id_ptr m q) as [idq|] eqn:Hq; [|discriminate].
      intros [= <-]. exists v, a, (Some q). cbn.
      rewrite Hv, Ha, Hq. repeat split; congruence.
    + intros [= <-]. exists v, a, None. cbn. rewrite Hv, Ha. repeat split.
  - intros (v & a & ins & -> & -> & -> & Hins). cbn [mbind option_bind].
    destruct n as [id [s rht] r insPrev]. cbn in *.
    destruct ins as [q|].
    + destruct Hins as [Hne ->]. destruct insPrev; [reflexivity|congruence].
    + rewrite Hins. reflexivity.
Qed.

Lemma RGATreeSplitNode_DeepCopy_ptr_spec (m : memory) (p v a : loc)
    (id : RGATreeSplitNodeID) (r : option Ticket) (ins : option loc)
    (s : string) (rht : RHT string) :
  m !! p = Some (CellNode id v r ins) ->
  m !! v = Some (CellTextValue s a) ->
  m !! a = Some (CellRHT rht) ->
  exists a' v' p',
    RGATreeSplitNode_DeepCopy_ptr m p
    = Returned (<[p' := CellNode id v' r None]>
                  (<[v' := CellTextValue s a']> (<[a' := CellRHT rht]> m)),
                p')
    /\ m !! a' = None /\ m !! v' = None /\ m !! p' = None
    /\ a' <> v' /\ a' <> p' /\ v' <> p'.
Proof.
  intros Hp Hv Ha.
  unfold RGATreeSplitNode_DeepCopy_ptr, TextValue_DeepCopy_ptr,
    RHT_DeepCopy_ptr.
  rewrite Hp, Hv, Ha. cbn [mbind outcome_bind]. unfold alloc.
  set (a' := fresh (dom m)).
  set (m1 := <[a' := CellRHT rht]> m).
  set (v' := fresh (dom m1)).
  set (m2 := <[v' := CellTextValue s a']> m1).
  set (p' := fresh (dom m2)).
  assert (Ha' : m !! a' = None) by (apply not_elem_of_dom, is_fresh).
  assert (Hv' : m1 !! v' = None) by (apply not_elem_of_dom, is_fresh).
  assert (Hp' : m2 !! p' = None) by (apply not_elem_of_dom, is_fresh).
  unfold m1 in Hv'. apply lookup_insert_None in Hv' as [Hv' Hav].
  unfold m2, m1 in Hp'. apply lookup_insert_None in Hp' as [Hp' Hvp].
  apply lookup_insert_None in Hp' as [Hp' Hap].
  exists a', v', p'. repeat split; auto.
Qed.

Lemma list_find_last (pre : list loc) (current : loc) :
  NoDup (pre ++ [current]) ->
  list_find (fun p => p = current) (pre ++ [current])
  = Some (length pre, current).
Proof.
  intros Hnd. apply list_find_Some. split.
  - rewrite lookup_app_r, Nat.sub_diag by lia. reflexivity.
  - split; [reflexivity|]. intros j y Hj Hlt ->.
    apply NoDup_app in Hnd as (_ & Hdisj & _).
    rewrite lookup_app_l in Hj by exact Hlt.
    apply (Hdisj current); [eapply list_elem_of_lookup_2; exact Hj|].
    apply list_elem_of_singleton. reflexivity.
Qed.

Lemma list_find_id (f : loc -> option RGATreeSplitNodeID)
    (id : RGATreeSplitNodeID) (locs : list loc) (Ns : list RGATreeSplitNode) :
  Forall2 (fun x N => f x = Some (node_id N)) locs Ns ->
  if bool_decide (id ∈ map node_id Ns)
  then exists i x, list_find (fun x => f x = Some id) locs = Some (i, x)
                   /\ x ∈ locs /\ f x = Some id
  else list_find (fun x => f x = Some id) locs = None.
Proof.
  intros Hall. case_bool_decide as Hin.
  - apply list_elem_of_fmap in Hin as (N & -> & HN).
    apply list_elem_of_lookup in HN as [i HN].
    destruct (Forall2_lookup_r _ _ _ _ _ Hall HN) as (x & Hx & Hfx).
    destruct (list_find (fun x => f x = Some (node_id N)) locs)
      as [[j y]|] eqn:Hfind.
    + apply list_find_Some in Hfind as (Hj & Hy & _).
      exists j, y. split; [reflexivity|].
      split; [eapply list_elem_of_lookup_2; exact Hj|exact Hy].
    + exfalso. rewrite list_find_None in Hfind.
      rewrite Forall_forall in Hfind.
      apply (Hfind x); [eapply list_elem_of_lookup_2; exact Hx|exact Hfx].
  - apply list_find_None. apply Forall_forall. intros x Hx Hfx.
    apply list_elem_of_lookup in Hx as [i Hx].
    destruct (Forall2_lookup_l _ _ _ _ _ Hall Hx) as (N & HN & HfN).
    apply Hin. apply list_elem_of_fmap. exists N.
    split; [congruence|eapply list_elem_of_lookup_2; exact HN].
Qed.

Lemma read_Node_dom (m : memory) (p : loc) (n : RGATreeSplitNode) :
  read_Node m p = Some n -> is_Some (m !! p).
Proof.
  intros (v & a & ins & Hp & _)%read_Node_cells. rewrite Hp. eauto.
Qed.

Lemma copy_invariant_step (m0 mc mn mf : memory) (s' a' v' p' : loc)
    (locs : list loc) (Ns : list RGATreeSplitNode) (n : RGATreeSplitNode)
    (ins : option loc) :
  copy_invariant m0 mc mn s' locs Ns ->
  mc !! a' = None -> mc !! v' = None -> mc !! p' = None ->
  a' <> v' -> a' <> p' -> v' <> p' ->
  (forall i, i <> p' -> i <> v' -> i <> a' -> i <> s' -> mf !! i = mc !! i) ->
  mf !! a' = Some (CellRHT (tv_attrs (node_value n))) ->
  mf !! v' = Some (CellTextValue (tv_value (node_value n)) a') ->
  mf !! p' = Some (CellNode (node_id n) v' (node_removedAt n) ins) ->
  (exists h tl, locs = h :: tl
                /\ mf !! s' = Some (CellRGATreeSplit h (tl ++ [p']))) ->
  match ins with
  | Some q =>
      node_insPrev n <> None
      /\ (q = p' /\ node_insPrev n = Some (node_id n)
          \/ q <> p' /\ node_id_ptr mn q = node_insPrev n)
  | None => node_insPrev n = None
  end ->
  copy_invariant m0 mf
    (<[p' := CellNode (node_id n) v' (node_removedAt n) ins]>
       (<[v' := CellTextValue (tv_value (node_value n)) a']>
          (<[a' := CellRHT (tv_attrs (node_value n))]> mn)))
    s' (locs ++ [p']) (Ns ++ [n]).
Proof.
  intros (Horig & Hnew & Hdisj & Hsn & Hso & Hsplit & Hnodes & Hnd)
    Ha' Hv' Hp' Hav Hap Hvp Hsame Hfa Hfv Hfp Hfs Hins.
  assert (Hs' : is_Some (mc !! s')).
  { destruct Hsplit as (h & tl & _ & Hs). rewrite Hs. eauto. }
  assert (Hsa : s' <> a') by (intros ->; rewrite Ha' in Hs'; destruct Hs'; discriminate).
  assert (Hsv : s' <> v') by (intros ->; rewrite Hv' in Hs'; destruct Hs'; discriminate).
  assert (Hsp : s' <> p') by (intros ->; rewrite Hp' in Hs'; destruct Hs'; discriminate).
  pose proof (lookup_weaken_None _ _ _ Ha' Hnew) as Hna.
  pose proof (lookup_weaken_None _ _ _ Hv' Hnew) as Hnv.
  pose proof (lookup_weaken_None _ _ _ Hp' Hnew) as Hnp.
  pose proof (lookup_weaken_None _ _ _ Ha' Horig) as Hoa.
  pose proof (lookup_weaken_None _ _ _ Hv' Horig) as Hov.
  pose proof (lookup_weaken_None _ _ _ Hp' Horig) as Hop.
  set (mn' := <[p' := CellNode (node_id n) v' (node_removedAt n) ins]>
                (<[v' := CellTextValue (tv_value (node_value n)) a']>
                   (<[a' := CellRHT (tv_attrs (node_value n))]> mn))).
  assert (Hmono : mn ⊆ mn').
  { unfold mn'. apply insert_subseteq_r; [exact Hnp|].
    apply insert_subseteq_r; [exact Hnv|].
    apply insert_subseteq_r; [exact Hna|]. reflexivity. }
  assert (Hkeep : forall i c, mc !! i = Some c -> i <> s' -> mf !! i = Some c).
  { intros i c Hi His. rewrite Hsame; [exact Hi| | | |exact His];
      intros ->; congruence. }
  unfold copy_invariant. split; [|split; [|split; [|split; [|split;
    [|split; [|split]]]]]].
  - apply map_subseteq_spec. intros i c Hi.
    apply (Hkeep i c); [exact (lookup_weaken _ _ _ _ Hi Horig)|].
    intros ->. congruence.
  - apply map_subseteq_spec. intros i c Hi. unfold mn' in Hi.
    destruct (decide (i = p')) as [->|Hip];
      [rewrite lookup_insert_eq in Hi; congruence|].
    rewrite lookup_insert_ne in Hi by congruence.
    destruct (decide (i = v')) as [->|Hiv];
      [rewrite lookup_insert_eq in Hi; congruence|].
    rewrite lookup_insert_ne in Hi by congruence.
    destruct (decide (i = a')) as [->|Hia];
      [rewrite lookup_insert_eq in Hi; congruence|].
    rewrite lookup_insert_ne in Hi by congruence.
    apply (Hkeep i c); [exact (lookup_weaken _ _ _ _ Hi Hnew)|].
    intros ->. congruence.
  - unfold mn'. apply map_disjoint_insert_l. split; [exact Hop|].
    apply map_disjoint_insert_l. split; [exact Hov|].
    apply map_disjoint_insert_l. split; [exact Hoa|exact Hdisj].
  - unfold mn'. rewrite !lookup_insert_ne by congruence. exact Hsn.
  - exact Hso.
  - destruct Hfs as (h & tl & -> & Hs). exists h, (tl ++ [p']).
    split; [reflexivity|exact Hs].
  - apply Forall2_app; [exact (read_Nodes_mono _ _ _ _ Hmono Hnodes)|].
    constructor; [|constructor].
    apply read_Node_cells. exists v', a', ins. unfold mn'.
    rewrite lookup_insert_eq.
    rewrite (lookup_insert_ne _ p' v') by congruence.
    rewrite lookup_insert_eq.
    rewrite (lookup_insert_ne _ p' a'), (lookup_insert_ne _ v' a') by congruence.
    rewrite lookup_insert_eq.
    split; [reflexivity|]. split; [reflexivity|]. split; [reflexivity|].
    destruct ins as [q|]; [|exact Hins]. destruct Hins as [Hne Hq].
    split; [exact Hne|]. destruct Hq as [[-> Hq] | [Hqp Hq]].
    + unfold node_id_ptr. rewrite lookup_insert_eq. congruence.
    + destruct (node_insPrev n) as [idq|] eqn:Hn; [|congruence].
      fold mn'. exact (node_id_ptr_mono _ _ _ _ Hmono Hq).
  - apply NoDup_app. split; [exact Hnd|]. split; [|apply NoDup_singleton].
    intros x Hx ->%list_elem_of_singleton.
    apply list_elem_of_lookup in Hx as [i Hx].
    destruct (Forall2_lookup_l _ _ _ _ _ Hnodes Hx) as (N & _ & HN).
    apply read_Node_dom in HN. rewrite Hnp in HN. destruct HN; discriminate.
Qed.

Lemma DeepCopy_loop_ptr_spec (m0 : memory) (s' : loc) (rest_locs : list loc)
    (rest : list RGATreeSplitNode) :
  Forall2 (fun p n => read_Node m0 p = Some n) rest_locs rest ->
  forall (mc mn : memory) (pre : list loc) (current : loc)
         (Ns : list RGATreeSplitNode),
    copy_invariant m0 mc mn s' (pre ++ [current]) Ns ->
    if insPrev_found (map node_id Ns) rest
    then exists m' mn' locs',
           DeepCopy_loop_ptr rest_locs mc s' current = Returned m'
           /\ copy_invariant m0 m' mn' s' ((pre ++ [current]) ++ locs')
                (Ns ++ rest)
    else DeepCopy_loop_ptr rest_locs mc s' current
         = Panicked "insPrevNode should be presence".
Proof.
  induction 1 as [|p n rest_locs rest Hread Hrest IH];
    intros mc mn pre current Ns Hinv.
  - cbn [insPrev_found DeepCopy_loop_ptr]. exists mc, mn, [].
    rewrite !app_nil_r. split; [reflexivity|exact Hinv].
  - pose proof Hinv as (Horig & Hnew & Hdisj & Hsn & Hso
                        & (h & tl & Hlocs & Hs) & Hnodes & Hnd).
    apply read_Node_cells in Hread as (v & a & ins & Hp0 & Hv0 & Ha0 & Hins0).
    pose proof (lookup_weaken _ _ _ _ Hp0 Horig) as Hpc.
    pose proof (lookup_weaken _ _ _ _ Hv0 Horig) as Hvc.
    pose proof (lookup_weaken _ _ _ _ Ha0 Horig) as Hac.
    destruct (RGATreeSplitNode_DeepCopy_ptr_spec mc p v a _ _ _ _ _ Hpc Hvc Hac)
      as (a' & v' & p' & Hcopy & Ha' & Hv' & Hp' & Hav & Hap & Hvp).
    cbn [DeepCopy_loop_ptr]. rewrite Hcopy. cbn [mbind outcome_bind].
    set (m1 := <[p' := CellNode (node_id n) v' (node_removedAt n) None]>
                 (<[v' := CellTextValue (tv_value (node_value n)) a']>
                    (<[a' := CellRHT (tv_attrs (node_value n))]> mc))).
    assert (Hsa : s' <> a') by (intros ->; congruence).
    assert (Hsv : s' <> v') by (intros ->; congruence).
    assert (Hsp : s' <> p') by (intros ->; congruence).
    assert (Hs1 : m1 !! s' = Some (CellRGATreeSplit h tl)).
    { unfold m1. rewrite !lookup_insert_ne by congruence. exact Hs. }
    unfold RGATreeSplit_InsertAfter_ptr. rewrite Hs1, <- Hlocs.
    rewrite (list_find_last _ _ Hnd).
    assert (Hlen : length tl = length pre).
    { apply (f_equal length) in Hlocs. rewrite length_app in Hlocs.
      simpl in Hlocs. lia. }
    rewrite take_ge, drop_ge by lia. cbn [mbind outcome_bind].
    set (m2 := <[s' := CellRGATreeSplit h (tl ++ [p'])]> m1).
    assert (Hkeep : forall i c, mc !! i = Some c -> i <> s' -> m2 !! i = Some c).
    { intros i c Hi His. unfold m2, m1.
      rewrite !lookup_insert_ne by congruence. exact Hi. }
    assert (Hps : p <> s') by (intros ->; congruence).
    unfold RGATreeSplitNode_InsPrevID_ptr. rewrite (Hkeep _ _ Hpc Hps).
    assert (Hids : Forall2 (fun x N => node_id_ptr m2 x = Some (node_id N))
                     ((pre ++ [current]) ++ [p']) (Ns ++ [n])).
    { apply Forall2_app.
      - eapply Forall2_impl; [exact Hnodes|]. intros x N HN.
        apply read_Node_cells in HN as (vx & ax & ix & Hx & _).
        unfold node_id_ptr.
        rewrite (Hkeep x _ (lookup_weaken _ _ _ _ Hx Hnew));
          [reflexivity|intros ->; congruence].
      - constructor; [|constructor]. unfold node_id_ptr, m2, m1.
        rewrite lookup_insert_ne by congruence. rewrite lookup_insert_eq.
        reflexivity. }
    assert (Hsame2 : forall i, i <> p' -> i <> v' -> i <> a' -> i <> s' ->
                       m2 !! i = mc !! i).
    { intros i ? ? ? ?. unfold m2, m1.
      rewrite !lookup_insert_ne by congruence. reflexivity. }
    assert (H2a : m2 !! a' = Some (CellRHT (tv_attrs (node_value n)))).
    { unfold m2, m1. rewrite !lookup_insert_ne by congruence.
      apply lookup_insert_eq. }
    assert (H2v : m2 !! v'
                  = Some (CellTextValue (tv_value (node_value n)) a')).
    { unfold m2, m1. rewrite !lookup_insert_ne by congruence.
      apply lookup_insert_eq. }
    assert (H2p : m2 !! p'
                  = Some (CellNode (node_id n) v' (node_removedAt n) None)).
    { unfold m2, m1. rewrite lookup_insert_ne by congruence.
      apply lookup_insert_eq. }
    assert (H2s : m2 !! s' = Some (CellRGATreeSplit h (tl ++ [p']))).
    { unfold m2. apply lookup_insert_eq. }
    cbn [insPrev_found].
    destruct ins as [q|].
    + destruct Hins0 as [Hne Hq].
      destruct (node_insPrev n) as [idq|] eqn:HinsPrev; [|congruence].
      assert (Hq2 : node_id_ptr m2 q = Some idq).
      { unfold node_id_ptr in Hq |- *.
        destruct (m0 !! q) as [c|] eqn:Hq0; [|discriminate].
        rewrite (Hkeep q c (lookup_weaken _ _ _ _ Hq0 Horig));
          [exact Hq|intros ->; congruence]. }
      rewrite Hq2. cbn [mbind outcome_bind].
      unfold RGATreeSplit_FindNode_ptr. rewrite H2s. cbn [mbind outcome_bind].
      pose proof (list_find_id (node_id_ptr m2) idq _ _ Hids) as Hfind.
      rewrite map_app in Hfind. cbn [map] in Hfind.
      rewrite app_comm_cons, <- Hlocs.
      destruct (bool_decide (idq ∈ map node_id Ns ++ [node_id n])) eqn:Hmem;
        cbn [andb].
      * destruct Hfind as (i & pf & -> & Hpf & Hidpf).
        cbn [fmap option_fmap option_map snd].
        unfold RGATreeSplitNode_SetInsPrev_ptr. rewrite H2p.
        cbn [mbind outcome_bind].
        set (m3 := <[p' := CellNode (node_id n) v' (node_removedAt n)
                             (Some pf)]> m2).
        assert (Hinv3 :
          copy_invariant m0 m3
            (<[p' := CellNode (node_id n) v' (node_removedAt n) (Some pf)]>
               (<[v' := CellTextValue (tv_value (node_value n)) a']>
                  (<[a' := CellRHT (tv_attrs (node_value n))]> mn)))
            s' ((pre ++ [current]) ++ [p']) (Ns ++ [n])).
        { apply (copy_invariant_step m0 mc mn m3 s' a' v' p' _ _ n (Some pf)
                   Hinv Ha' Hv' Hp' Hav Hap Hvp).
          - intros j ? ? ? ?. unfold m3.
            rewrite lookup_insert_ne by congruence. apply Hsame2; assumption.
          - unfold m3. rewrite lookup_insert_ne by congruence. exact H2a.
          - unfold m3. rewrite lookup_insert_ne by congruence. exact H2v.
          - unfold m3. apply lookup_insert_eq.
          - exists h, tl. split; [exact Hlocs|]. unfold m3.
            rewrite lookup_insert_ne by congruence. exact H2s.
          - rewrite HinsPrev. split; [discriminate|].
            destruct (decide (pf = p')) as [->|Hne'].
            + left. split; [reflexivity|].
              unfold node_id_ptr in Hidpf. rewrite H2p in Hidpf. congruence.
            + right. split; [exact Hne'|].
              apply elem_of_app in Hpf as [Hpf|Hpf];
                [|apply list_elem_of_singleton in Hpf; congruence].
              apply list_elem_of_lookup in Hpf as [j Hj].
              destruct (Forall2_lookup_l _ _ _ _ _ Hnodes Hj) as (N & _ & HN).
              apply read_Node_cells in HN as (vx & ax & ix & Hx & _).
              unfold node_id_ptr in Hidpf |- *. rewrite Hx.
              rewrite (Hkeep pf _ (lookup_weaken _ _ _ _ Hx Hnew)) in Hidpf;
                [exact Hidpf|intros ->; congruence]. }
        specialize (IH m3 _ (pre ++ [current]) p' (Ns ++ [n]) Hinv3).
        rewrite map_app in IH. cbn [map] in IH.
        destruct (insPrev_found (map node_id Ns ++ [node_id n]) rest);
          [|exact IH].
        destruct IH as (m' & mn' & locs' & Hloop & Hinv').
        exists m', mn', (p' :: locs'). split; [exact Hloop|].
        rewrite <- !app_assoc in Hinv'. rewrite <- !app_assoc. exact Hinv'.
      * rewrite Hfind. reflexivity.
    + rewrite Hins0. cbn [mbind outcome_bind andb].
      assert (Hinv2 :
        copy_invariant m0 m2
          (<[p' := CellNode (node_id n) v' (node_removedAt n) None]>
             (<[v' := CellTextValue (tv_value (node_value n)) a']>
                (<[a' := CellRHT (tv_attrs (node_value n))]> mn)))
          s' ((pre ++ [current]) ++ [p']) (Ns ++ [n])).
      { apply (copy_invariant_step m0 mc mn m2 s' a' v' p' _ _ n None
                 Hinv Ha' Hv' Hp' Hav Hap Hvp Hsame2 H2a H2v H2p).
        - exists h, tl. split; [exact Hlocs|exact H2s].
        - exact Hins0. }
      specialize (IH m2 _ (pre ++ [current]) p' (Ns ++ [n]) Hinv2).
      rewrite map_app in IH. cbn [map] in IH.
      destruct (insPrev_found (map node_id Ns ++ [node_id n]) rest);
        [|exact IH].
      destruct IH as (m' & mn' & locs' & Hloop & Hinv').
      exists m', mn', (p' :: locs'). split; [exact Hloop|].
      rewrite <- !app_assoc in Hinv'. rewrite <- !app_assoc. exact Hinv'.
Qed.

Lemma subseteq_difference (mn m m' : memory) :
  mn ⊆ m' -> mn ##ₘ m -> mn ⊆ m' ∖ m.
Proof.
  intros Hsub Hdisj. apply map_subseteq_spec. intros i c Hi.
  apply lookup_difference_Some. split; [exact (lookup_weaken _ _ _ _ Hi Hsub)|].
  exact (map_disjoint_Some_l _ _ _ _ Hdisj Hi).
Qed.

Lemma Text_DeepCopy_ptr_spec (initialNodeID : RGATreeSplitNodeID) (m : memory)
    (t : loc) (T : Text) :
  read_Text m t = Some T ->
  if insPrev_found [initialNodeID] (RGATreeSplit_nodes (rgaTreeSplit T))
  then exists m' t',
         Text_DeepCopy_ptr initialNodeID m t = Returned (m', t')
         /\ m ⊆ m'
         /\ m !! t' = None
         /\ read_Text (m' ∖ m) t'
            = Some (NewText
                      {| initialHead := InitialTextNode initialNodeID;
                         after_head := RGATreeSplit_nodes (rgaTreeSplit T) |}
                      (createdAt T))
  else Text_DeepCopy_ptr initialNodeID m t
       = Panicked "insPrevNode should be presence".
Proof.
  intros Hread. unfold read_Text in Hread.
  destruct (m !! t) as [[| | | | s sel c mv rm]|] eqn:Ht; try discriminate.
  destruct (read_RGATreeSplit m s) as [split|] eqn:Hsplit; [|discriminate].
  injection Hread as <-. cbn [rgaTreeSplit createdAt].
  apply read_RGATreeSplit_Some in Hsplit as (h & nodes & Hs & Hall).
  unfold all_nodes in Hall. inversion Hall as [|? ? ? ? _ Hnodes]; subst.
  unfold Text_DeepCopy_ptr, InitialTextNode_ptr, NewRGATreeSplit_ptr, alloc.
  set (a0 := fresh (dom m)).
  set (m1 := <[a0 := CellRHT NewRHT]> m).
  set (v0 := fresh (dom m1)).
  set (m2 := <[v0 := CellTextValue EmptyString a0]> m1).
  set (h0 := fresh (dom m2)).
  set (m3 := <[h0 := CellNode initialNodeID v0 None None]> m2).
  set (s0 := fresh (dom m3)).
  set (m4 := <[s0 := CellRGATreeSplit h0 []]> m3).
  assert (Ha0 : m !! a0 = None) by (apply not_elem_of_dom, is_fresh).
  assert (Hv0 : m1 !! v0 = None) by (apply not_elem_of_dom, is_fresh).
  assert (Hh0 : m2 !! h0 = None) by (apply not_elem_of_dom, is_fresh).
  assert (Hs0 : m3 !! s0 = None) by (apply not_elem_of_dom, is_fresh).
  unfold m1 in Hv0. apply lookup_insert_None in Hv0 as [Hv0 Hav].
  unfold m2, m1 in Hh0. apply lookup_insert_None in Hh0 as [Hh0 Hvh].
  apply lookup_insert_None in Hh0 as [Hh0 Hah].
  unfold m3, m2, m1 in Hs0. apply lookup_insert_None in Hs0 as [Hs0 Hhs].
  apply lookup_insert_None in Hs0 as [Hs0 Hvs].
  apply lookup_insert_None in Hs0 as [Hs0 Has].
  assert (Hsub4 : m ⊆ m4).
  { unfold m4, m3, m2, m1. repeat (apply insert_subseteq_r; [assumption|]).
    reflexivity. }
  unfold Text_Nodes_ptr.
  rewrite (lookup_weaken _ _ _ _ Ht Hsub4), (lookup_weaken _ _ _ _ Hs Hsub4).
  cbn [mbind outcome_bind].
  set (mn0 := <[h0 := CellNode initialNodeID v0 None None]>
                (<[v0 := CellTextValue EmptyString a0]>
                   (<[a0 := CellRHT NewRHT]> (∅ : memory)))).
  assert (Hinv : copy_invariant m m4 mn0 s0 ([] ++ [h0])
                   [InitialTextNode initialNodeID]).
  { unfold copy_invariant. split; [exact Hsub4|]. split; [|split; [|split;
      [|split; [|split; [|split]]]]].
    - apply map_subseteq_spec. intros i x Hi. unfold mn0 in Hi.
      unfold m4, m3, m2, m1.
      destruct (decide (i = h0)) as [->|Hih].
      { rewrite lookup_insert_eq in Hi.
        rewrite lookup_insert_ne, lookup_insert_eq by congruence. exact Hi. }
      rewrite lookup_insert_ne in Hi by congruence.
      destruct (decide (i = v0)) as [->|Hiv].
      { rewrite lookup_insert_eq in Hi.
        rewrite !lookup_insert_ne, lookup_insert_eq by congruence. exact Hi. }
      rewrite lookup_insert_ne in Hi by congruence.
      destruct (decide (i = a0)) as [->|Hia].
      { rewrite lookup_insert_eq in Hi.
        rewrite !lookup_insert_ne, lookup_insert_eq by congruence. exact Hi. }
      rewrite lookup_insert_ne, lookup_empty in Hi by congruence. discriminate.
    - unfold mn0. repeat (apply map_disjoint_insert_l; split; [assumption|]).
      apply map_disjoint_empty_l.
    - unfold mn0. rewrite !lookup_insert_ne by congruence. apply lookup_empty.
    - exact Hs0.
    - exists h0, []. split; [reflexivity|]. unfold m4. apply lookup_insert_eq.
    - constructor; [|constructor]. apply read_Node_cells.
      exists v0, a0, None. unfold mn0, InitialTextNode, NewRGATreeSplitNode.
      cbn [node_id node_removedAt node_value tv_value tv_attrs node_insPrev].
      rewrite lookup_insert_eq.
      rewrite (lookup_insert_ne _ h0 v0), lookup_insert_eq by congruence.
      rewrite (lookup_insert_ne _ h0 a0), (lookup_insert_ne _ v0 a0),
        lookup_insert_eq by congruence.
      repeat split.
    - cbn [app]. apply NoDup_singleton. }
  pose proof (DeepCopy_loop_ptr_spec m s0 nodes _ Hnodes m4 mn0 [] h0 _ Hinv)
    as Hloop.
  cbn [map InitialTextNode NewRGATreeSplitNode node_id app] in Hloop.
  unfold RGATreeSplit_nodes.
  destruct (insPrev_found [initialNodeID] (after_head split)).
  - destruct Hloop as (m5 & mn5 & locs5 & -> & Hinv5).
    destruct Hinv5 as (Hsub5 & Hnew5 & Hdisj5 & _ & _
                       & (h5 & tl5 & Hlocs5 & Hs5) & Hnodes5 & _).
    injection Hlocs5 as <- <-.
    cbn [mbind outcome_bind]. unfold Text_createdAt_ptr.
    rewrite (lookup_weaken _ _ _ _ Ht Hsub5). cbn [mbind outcome_bind].
    unfold NewText_ptr, alloc.
    set (t' := fresh (dom m5)).
    assert (Ht' : m5 !! t' = None) by (apply not_elem_of_dom, is_fresh).
    pose proof (lookup_weaken_None _ _ _ Ht' Hsub5) as Ht0.
    eexists _, t'. split; [reflexivity|].
    split; [apply insert_subseteq_r; assumption|]. split; [exact Ht0|].
    assert (Hts : t' <> s0) by (intros Heq; rewrite Heq in Ht'; congruence).
    unfold read_Text.
    rewrite (proj2 (lookup_difference_Some _ _ _ _)
               (conj (lookup_insert_eq _ _ _) Ht0)).
    rewrite (proj2 (read_RGATreeSplit_Some _ _
               {| initialHead := InitialTextNode initialNodeID;
                  after_head := after_head split |})); [reflexivity|].
    exists h0, locs5. split.
    + apply lookup_difference_Some. split; [|exact Hs0].
      rewrite lookup_insert_ne by congruence. exact Hs5.
    + unfold all_nodes. cbn [initialHead after_head].
      apply (read_Nodes_mono mn5); [|exact Hnodes5].
      apply subseteq_difference; [|exact Hdisj5].
      etransitivity; [exact Hnew5|].
      apply insert_subseteq. exact Ht'.
  - rewrite Hloop. reflexivity.
Qed.

(** C6, as amended: [DeepCopy] replays every node of the text, tombstoned or
    not, in sequence order behind a fresh initial node and attaches to each
    copy the recorded insertion predecessor, looked up in the copy.  When some
    recorded predecessor is not found there, the call panics with
    "insPrevNode should be presence": it has no error result and does not
    return to its caller.  Otherwise it returns a text with the same
    [createdAt] and the same nodes, links included, and the copy is
    independent of the text: run on the objects of a memory, the call writes
    to no object of before the call, and the copy, text, sequence, nodes,
    values and attributes, is made of objects the call has allocated and of
    no other; so a later write to an object of before the call leaves the
    copy as it is, and a write to any other object leaves the text as it
    is. *)
Theorem Text_DeepCopy_replay (initialNodeID : RGATreeSplitNodeID) (t : Text) :
  Text_DeepCopy initialNodeID t
  = (if insPrev_found [initialNodeID] (RGATreeSplit_nodes (rgaTreeSplit t))
     then Returned
            (NewText
               {| initialHead := InitialTextNode initialNodeID;
                  after_head := RGATreeSplit_nodes (rgaTreeSplit t) |}
               (createdAt t))
     else Panicked "insPrevNode should be presence")
  /\ (forall t', Text_DeepCopy initialNodeID t = Returned t' ->
        RGATreeSplit_nodes (rgaTreeSplit t') = RGATreeSplit_nodes (rgaTreeSplit t)
        /\ createdAt t' = createdAt t)
  /\ (insPrev_found [initialNodeID] (RGATreeSplit_nodes (rgaTreeSplit t)) = false ->
      forall t', Text_DeepCopy initialNodeID t <> Returned t')
  /\ (forall (m : memory) (p : loc),
        read_Text m p = Some t ->
        match Text_DeepCopy initialNodeID t with
        | Returned t' =>
            exists m' p',
              Text_DeepCopy_ptr initialNodeID m p = Returned (m', p')
              /\ m ⊆ m'
              /\ m !! p' = None
              /\ read_Text (m' ∖ m) p' = Some t'
              /\ read_Text m' p = Some t
              /\ (forall l c, is_Some (m !! l) ->
                    read_Text (<[l := c]> m') p' = Some t')
              /\ (forall l c, m !! l = None ->
                    read_Text (<[l := c]> m') p = Some t)
        | Panicked msg => Text_DeepCopy_ptr initialNodeID m p = Panicked msg
        end).
Proof.
  assert (Heq : Text_DeepCopy initialNodeID t
    = if insPrev_found [initialNodeID] (RGATreeSplit_nodes (rgaTreeSplit t))
      then Returned
             (NewText
                {| initialHead := InitialTextNode initialNodeID;
                   after_head := RGATreeSplit_nodes (rgaTreeSplit t) |}
                (createdAt t))
      else Panicked "insPrevNode should be presence").
  { unfold Text_DeepCopy, NewRGATreeSplit.
    change 0%nat with (length (@nil RGATreeSplitNode)).
    rewrite DeepCopy_loop_spec. simpl.
    destruct (insPrev_found _ _); reflexivity. }
  split; [exact Heq|]. rewrite Heq. split; [|split].
  - intros t'. destruct (insPrev_found _ _); [|discriminate].
    intros [= <-]. split; reflexivity.
  - intros -> t'. discriminate.
  - intros m p Hread.
    pose proof (Text_DeepCopy_ptr_spec initialNodeID m p t Hread) as Hptr.
    destruct (insPrev_found _ _); [|exact Hptr].
    destruct Hptr as (m' & p' & Hcopy & Hsub & Hp' & Hnew).
    exists m', p'. split; [exact Hcopy|]. split; [exact Hsub|].
    split; [exact Hp'|]. split; [exact Hnew|].
    split; [exact (read_Text_mono _ _ _ _ Hsub Hread)|]. split.
    + intros l c [x Hl]. apply (read_Text_mono (m' ∖ m)); [|exact Hnew].
      apply map_subseteq_spec. intros i y Hi.
      apply lookup_difference_Some in Hi as [Hi Hnone].
      rewrite lookup_insert_ne by congruence. exact Hi.
    + intros l c Hl. apply (read_Text_mono m); [|exact Hread].
      apply insert_subseteq_r; assumption.
Qed.

Lemma Text_DeepCopy_replay_witness :
  exists t' m' p',
    Text_DeepCopy (mkNodeID (ticket 0) 0) text_he = Returned t'
    /\ RGATreeSplit_nodes (rgaTreeSplit t')
       = RGATreeSplit_nodes (rgaTreeSplit text_he)
    /\ createdAt t' = ticket 5
    /\ read_Text memory_he 14%positive = Some text_he
    /\ Text_DeepCopy_ptr (mkNodeID (ticket 0) 0) memory_he 14%positive
       = Returned (m', p')
    /\ read_Text (m' ∖ memory_he) p' = Some t'.
Proof.
  destruct (Text_DeepCopy_replay (mkNodeID (ticket 0) 0) text_he)
    as (Heq & Hnodes & _ & Hptr).
  assert (Hread : read_Text memory_he 14%positive = Some text_he)
    by (vm_compute; reflexivity).
  specialize (Hptr memory_he 14%positive Hread).
  assert (Hpure : Text_DeepCopy (mkNodeID (ticket 0) 0) text_he
                  = Returned text_he) by reflexivity.
  rewrite Hpure in Hptr.
  destruct Hptr as (m' & p' & Hcopy & _ & _ & Hnew & _).
  exists text_he, m', p'. split; [exact Hpure|].
  split; [reflexivity|]. split; [reflexivity|]. split; [exact Hread|].
  split; [exact Hcopy|exact Hnew].
Defined.

(** C6, counterexample to the property as the spec states it: on a text one
    of whose nodes records a predecessor that is not in the sequence,
    [DeepCopy] panics; no error is returned to the caller. *)
Lemma Text_DeepCopy_counterexample :
  Text_DeepCopy (mkNodeID (ticket 0) 0) text_corrupt
  = Panicked "insPrevNode should be presence"
  /\ forall t', Text_DeepCopy (mkNodeID (ticket 0) 0) text_corrupt <> Returned t'.
Proof.
  assert (H : Text_DeepCopy (mkNodeID (ticket 0) 0) text_corrupt
              = Panicked "insPrevNode should be presence") by reflexivity.
  split; [exact H|]. intros t'. rewrite H. discriminate.
Qed.

(** ** Bytes, runes and UTF-8 *)

Ltac pow2 :=
  repeat match goal with
         | |- context [2 ^ ?n] =>
             let v := eval vm_compute in (2 ^ n) in change (2 ^ n) with v
         end.
Ltac zdm := pow2; Z.div_mod_to_equations; lia.
Ltac side := first [reflexivity | lia | zdm].

(** Case analysis on the comparisons of the goal. *)
Ltac ztest :=
  repeat (match goal with
          | |- context [Z.eqb ?a ?b] =>
              destruct (Z.eqb_spec a b); try (exfalso; lia)
          | |- context [Z.ltb ?a ?b] =>
              destruct (Z.ltb_spec a b); try (exfalso; lia)
          | |- context [Z.leb ?a ?b] =>
              destruct (Z.leb_spec a b); try (exfalso; lia)
          end; cbn [andb orb negb]).

(** The comparisons of the goal that the context decides, evaluated. *)
Ltac zdecide :=
  repeat (match goal with
          | |- context [Z.eqb ?a ?b] =>
              first [ rewrite (proj2 (Z.eqb_eq a b)) by lia
                    | rewrite (proj2 (Z.eqb_neq a b)) by lia ]
          | |- context [Z.ltb ?a ?b] =>
              first [ rewrite (proj2 (Z.ltb_lt a b)) by lia
                    | rewrite (proj2 (Z.ltb_ge a b)) by lia ]
          | |- context [Z.leb ?a ?b] =>
              first [ rewrite (proj2 (Z.leb_le a b)) by lia
                    | rewrite (proj2 (Z.leb_gt a b)) by lia ]
          end; cbn [andb orb negb]).

Lemma land_pow2_low (n a b : Z) :
  0 <= n -> 0 <= b < 2 ^ n -> Z.land (a * 2 ^ n) b = 0.
Proof.
  intros Hn Hb. apply Z.bits_inj'. intros m Hm.
  rewrite Z.land_spec, Z.bits_0.
  destruct (Z.lt_ge_cases m n) as [Hlt|Hge].
  - rewrite Z.mul_pow2_bits_low by exact Hlt. reflexivity.
  - destruct (Z.eq_dec b 0) as [->|Hnz].
    + rewrite Z.bits_0. apply andb_false_r.
    + rewrite (Z.bits_above_log2 b m); [apply andb_false_r|lia|].
      assert (Z.log2 b < n) by (apply Z.log2_lt_pow2; lia). lia.
Qed.

(** Bits that do not overlap add up. *)
Lemma lor_add (c x n : Z) :
  0 <= n -> c mod 2 ^ n = 0 -> 0 <= x < 2 ^ n -> Z.lor c x = c + x.
Proof.
  intros Hn Hc Hx.
  pose proof (Z.add_lor_land c x) as H.
  assert (Hz : Z.land c x = 0).
  { rewrite (Z.div_mod c (2 ^ n)) by lia. rewrite Hc, Z.add_0_r, Z.mul_comm.
    apply land_pow2_low; assumption. }
  lia.
Qed.

Lemma land_mask (x n m : Z) :
  0 <= n -> m = Z.ones n -> Z.land x m = x mod 2 ^ n.
Proof. intros Hn ->. apply Z.land_ones, Hn. Qed.

Lemma byte_of_ascii_of_byte (b : Z) :
  0 <= b < 256 -> byte_of_ascii (ascii_of_byte b) = b.
Proof.
  intros Hb. unfold byte_of_ascii, ascii_of_byte.
  rewrite N_ascii_embedding by lia. lia.
Qed.

Lemma bytes_of_string_of_bytes (p : list Z) :
  Forall (fun b => 0 <= b < 256) p -> bytes_of_string (string_of_bytes p) = p.
Proof.
  intros Hp. unfold bytes_of_string, string_of_bytes.
  rewrite list_ascii_of_string_of_list_ascii.
  induction Hp as [|b p Hb Hp IH]; simpl; [reflexivity|].
  rewrite byte_of_ascii_of_byte by exact Hb. rewrite IH. reflexivity.
Qed.

Lemma string_of_bytes_app (p q : list Z) :
  string_of_bytes (p ++ q) = string_of_bytes p +:+ string_of_bytes q.
Proof.
  unfold string_of_bytes. induction p as [|b p IH]; [reflexivity|].
  simpl. rewrite string_app_cons, IH. reflexivity.
Qed.

Lemma is_scalar_true (r : Z) :
  is_scalar r = true <-> 0 <= r < 55296 \/ 57344 <= r <= 1114111.
Proof.
  unfold is_scalar, surr1, surr3, MaxRune.
  ztest; cbn [andb orb]; split; intros; try discriminate; try reflexivity; lia.
Qed.

Lemma is_scalar_false (r : Z) :
  is_scalar r = false <-> r < 0 \/ 55296 <= r < 57344 \/ 1114111 < r.
Proof.
  unfold is_scalar, surr1, surr3, MaxRune.
  ztest; cbn [andb orb]; split; intros; try discriminate; try reflexivity; lia.
Qed.

(** The shapes of the encoding of a rune. *)
Lemma utf8_AppendRune_1 (r : Z) : 0 <= r < 128 -> utf8_AppendRune r = [r].
Proof. intros Hr. unfold utf8_AppendRune. ztest; reflexivity. Qed.

Lemma utf8_AppendRune_2 (r : Z) :
  128 <= r < 2048 -> utf8_AppendRune r = [192 + r / 64; 128 + r mod 64].
Proof.
  intros Hr. unfold utf8_AppendRune.
  ztest;
    rewrite (Z.shiftr_div_pow2 r 6), (land_mask r 6 63) by side; pow2;
    rewrite (lor_add 192 (r / 64) 5), (lor_add 128 (r mod 64) 6) by side;
    reflexivity.
Qed.

Lemma utf8_AppendRune_3 (r : Z) :
  2048 <= r < 65536 -> is_scalar r = true ->
  utf8_AppendRune r
  = [224 + r / 4096; 128 + (r / 64) mod 64; 128 + r mod 64].
Proof.
  intros Hr Hs. unfold utf8_AppendRune. rewrite Hs. unfold surrSelf.
  ztest;
    rewrite (Z.shiftr_div_pow2 r 12), (Z.shiftr_div_pow2 r 6) by side;
    rewrite !(land_mask _ 6 63) by side; pow2;
    rewrite (lor_add 224 (r / 4096) 4), !(lor_add 128 _ 6) by side;
    reflexivity.
Qed.

Lemma utf8_AppendRune_4 (r : Z) :
  65536 <= r <= 1114111 ->
  utf8_AppendRune r
  = [240 + r / 262144; 128 + (r / 4096) mod 64;
     128 + (r / 64) mod 64; 128 + r mod 64].
Proof.
  intros Hr. unfold utf8_AppendRune.
  rewrite (proj2 (is_scalar_true r)) by lia. unfold surrSelf.
  ztest;
    rewrite (Z.shiftr_div_pow2 r 18), (Z.shiftr_div_pow2 r 12),
      (Z.shiftr_div_pow2 r 6) by side;
    rewrite !(land_mask _ 6 63) by side; pow2;
    rewrite (lor_add 240 (r / 262144) 3), !(lor_add 128 _ 6) by side;
    reflexivity.
Qed.

Lemma utf8_AppendRune_invalid (r : Z) :
  is_scalar r = false -> utf8_AppendRune r = [239; 191; 189].
Proof.
  intros Hs. unfold utf8_AppendRune. rewrite Hs.
  apply is_scalar_false in Hs. ztest; reflexivity.
Qed.

(** The value of a well-formed sequence of two, three and four bytes. *)
Lemma decode_value_2 (a b : Z) :
  0 <= a < 32 -> 0 <= b < 64 ->
  Z.lor (Z.shiftl (Z.land (192 + a) 31) 6) (Z.land (128 + b) 63) = a * 64 + b.
Proof.
  intros. rewrite (land_mask _ 5 31), (land_mask _ 6 63) by side.
  rewrite Z.shiftl_mul_pow2 by lia. pow2.
  rewrite (lor_add _ _ 6) by side. zdm.
Qed.

Lemma decode_value_3 (a b c : Z) :
  0 <= a < 16 -> 0 <= b < 64 -> 0 <= c < 64 ->
  Z.lor (Z.lor (Z.shiftl (Z.land (224 + a) 15) 12)
               (Z.shiftl (Z.land (128 + b) 63) 6))
        (Z.land (128 + c) 63)
  = a * 4096 + b * 64 + c.
Proof.
  intros. rewrite (land_mask _ 4 15), !(land_mask _ 6 63) by side.
  rewrite !Z.shiftl_mul_pow2 by lia. pow2.
  rewrite (lor_add (_ * 4096) (_ * 64) 12) by side.
  rewrite (lor_add _ _ 6) by side. zdm.
Qed.

Lemma decode_value_4 (a b c d : Z) :
  0 <= a < 8 -> 0 <= b < 64 -> 0 <= c < 64 -> 0 <= d < 64 ->
  Z.lor (Z.lor (Z.lor (Z.shiftl (Z.land (240 + a) 7) 18)
                      (Z.shiftl (Z.land (128 + b) 63) 12))
               (Z.shiftl (Z.land (128 + c) 63) 6))
        (Z.land (128 + d) 63)
  = a * 262144 + b * 4096 + c * 64 + d.
Proof.
  intros. rewrite (land_mask _ 3 7), !(land_mask _ 6 63) by side.
  rewrite !Z.shiftl_mul_pow2 by lia. pow2.
  rewrite (lor_add (_ * 262144) (_ * 4096) 18) by side.
  rewrite (lor_add (_ + _ * 4096) (_ * 64) 12) by side.
  rewrite (lor_add _ _ 6) by side. zdm.
Qed.

(** One step of [decodeRunes], the calls on the tails left as they are. *)
Ltac decode_step :=
  match goal with
  | |- context [decodeRunes (?s0 :: ?p)] =>
      let p0 := fresh "p0" in
      let E := fresh "E" in
      remember p as p0 eqn:E; cbn [decodeRunes]; subst p0; cbv beta iota
  end.

Lemma decodeRunes_1 (b : Z) (rest : list Z) :
  0 <= b < 128 -> decodeRunes (b :: rest) = b :: decodeRunes rest.
Proof. intros Hb. decode_step. zdecide. reflexivity. Qed.

Lemma decodeRunes_2 (a b : Z) (rest : list Z) :
  2 <= a < 32 -> 0 <= b < 64 ->
  decodeRunes (192 + a :: 128 + b :: rest) = a * 64 + b :: decodeRunes rest.
Proof.
  intros Ha Hb. decode_step. unfold is_cont.
  zdecide. rewrite decode_value_2 by lia. reflexivity.
Qed.

Lemma decodeRunes_3 (a b c : Z) (rest : list Z) :
  0 <= a < 16 -> 0 <= b < 64 -> 0 <= c < 64 ->
  (a = 0 -> 32 <= b) -> (a = 13 -> b < 32) ->
  decodeRunes (224 + a :: 128 + b :: 128 + c :: rest)
  = a * 4096 + b * 64 + c :: decodeRunes rest.
Proof.
  intros Ha Hb Hc H0 H13. decode_step. unfold is_cont.
  destruct (Z.eq_dec a 0); destruct (Z.eq_dec a 13); try (exfalso; lia);
    zdecide; rewrite decode_value_3 by lia; reflexivity.
Qed.

Lemma decodeRunes_4 (a b c d : Z) (rest : list Z) :
  0 <= a <= 4 -> 0 <= b < 64 -> 0 <= c < 64 -> 0 <= d < 64 ->
  (a = 0 -> 16 <= b) -> (a = 4 -> b < 16) ->
  decodeRunes (240 + a :: 128 + b :: 128 + c :: 128 + d :: rest)
  = a * 262144 + b * 4096 + c * 64 + d :: decodeRunes rest.
Proof.
  intros Ha Hb Hc Hd H0 H4. decode_step. unfold is_cont.
  destruct (Z.eq_dec a 0); destruct (Z.eq_dec a 4); try (exfalso; lia);
    zdecide; rewrite decode_value_4 by lia; reflexivity.
Qed.

(** Encoding a rune and decoding the bytes gives the rune back, or
    [RuneError] for a rune that has no encoding. *)
Lemma decodeRunes_AppendRune (r : Z) (rest : list Z) :
  decodeRunes (utf8_AppendRune r ++ rest) = sanitize r :: decodeRunes rest.
Proof.
  unfold sanitize. destruct (is_scalar r) eqn:Hs.
  - pose proof (proj1 (is_scalar_true r) Hs) as Hr.
    destruct (Z.lt_ge_cases r 128); [|destruct (Z.lt_ge_cases r 2048);
      [|destruct (Z.lt_ge_cases r 65536)]].
    + rewrite utf8_AppendRune_1 by lia. apply decodeRunes_1. lia.
    + rewrite utf8_AppendRune_2 by lia. cbn [app].
      rewrite decodeRunes_2 by zdm. f_equal. zdm.
    + rewrite utf8_AppendRune_3 by (auto; lia). cbn [app].
      rewrite decodeRunes_3 by zdm. f_equal. zdm.
    + rewrite utf8_AppendRune_4 by lia. cbn [app].
      rewrite decodeRunes_4 by zdm. f_equal. zdm.
  - rewrite utf8_AppendRune_invalid by exact Hs. reflexivity.
Qed.

Lemma utf8_AppendRune_bytes (r : Z) :
  Forall (fun b => 0 <= b < 256) (utf8_AppendRune r).
Proof.
  destruct (is_scalar r) eqn:Hs.
  - pose proof (proj1 (is_scalar_true r) Hs) as Hr.
    destruct (Z.lt_ge_cases r 128); [|destruct (Z.lt_ge_cases r 2048);
      [|destruct (Z.lt_ge_cases r 65536)]].
    + rewrite utf8_AppendRune_1 by lia. repeat constructor; lia.
    + rewrite utf8_AppendRune_2 by lia. repeat constructor; zdm.
    + rewrite utf8_AppendRune_3 by (auto; lia). repeat constructor; zdm.
    + rewrite utf8_AppendRune_4 by lia. repeat constructor; zdm.
  - rewrite utf8_AppendRune_invalid by exact Hs. repeat constructor; lia.
Qed.

Lemma decodeRunes_flat_map (rs : list Z) :
  decodeRunes (flat_map utf8_AppendRune rs) = map sanitize rs.
Proof.
  induction rs as [|r rs IH]; [reflexivity|]. simpl.
  rewrite decodeRunes_AppendRune, IH. reflexivity.
Qed.

(** [[]rune(string(rs))] *)
Lemma runes_of_string_of_runes (rs : list Z) :
  runes_of_string (string_of_runes rs) = map sanitize rs.
Proof.
  unfold runes_of_string, string_of_runes.
  rewrite bytes_of_string_of_bytes; [apply decodeRunes_flat_map|].
  induction rs as [|r rs IH]; simpl; [constructor|].
  apply Forall_app. split; [apply utf8_AppendRune_bytes|exact IH].
Qed.

Lemma string_of_runes_app (rs1 rs2 : list Z) :
  string_of_runes (rs1 ++ rs2) = string_of_runes rs1 +:+ string_of_runes rs2.
Proof.
  unfold string_of_runes. rewrite flat_map_app. apply string_of_bytes_app.
Qed.

Lemma is_scalar_sanitize (r : Z) : is_scalar (sanitize r) = true.
Proof. unfold sanitize. destruct (is_scalar r) eqn:Hs; [exact Hs|reflexivity]. Qed.

Lemma sanitize_scalar (r : Z) : is_scalar r = true -> sanitize r = r.
Proof. unfold sanitize. intros ->. reflexivity. Qed.

Lemma utf8_AppendRune_sanitize (r : Z) :
  utf8_AppendRune (sanitize r) = utf8_AppendRune r.
Proof.
  unfold sanitize. destruct (is_scalar r) eqn:Hs; [reflexivity|].
  rewrite (utf8_AppendRune_invalid r Hs). reflexivity.
Qed.

Lemma string_of_runes_sanitize (rs : list Z) :
  string_of_runes (map sanitize rs) = string_of_runes rs.
Proof.
  unfold string_of_runes. f_equal.
  induction rs as [|r rs IH]; [reflexivity|]. simpl.
  rewrite utf8_AppendRune_sanitize, IH. reflexivity.
Qed.

(** ** UTF-16 *)

Lemma utf16_EncodeRune_value (v : Z) :
  65536 <= v <= 1114111 ->
  utf16_EncodeRune v
  = (55296 + (v - 65536) / 1024, 56320 + (v - 65536) mod 1024).
Proof.
  intros Hv. unfold utf16_EncodeRune, surr1, surr2, surrSelf.
  rewrite Z.shiftr_div_pow2, !(land_mask _ 10 1023) by side. pow2.
  f_equal. f_equal. zdm.
Qed.

Lemma utf16_DecodeRune_value (a b : Z) :
  0 <= a < 1024 -> 0 <= b < 1024 ->
  utf16_DecodeRune (55296 + a) (56320 + b) = a * 1024 + b + 65536.
Proof.
  intros Ha Hb. unfold utf16_DecodeRune, surr1, surr2, surrSelf.
  replace (55296 + a - 55296) with a by lia.
  replace (56320 + b - 56320) with b by lia.
  rewrite Z.shiftl_mul_pow2 by lia. pow2.
  rewrite (lor_add _ _ 10) by side. reflexivity.
Qed.

(** One step of [utf16_Decode], the calls on the tails left as they are. *)
Ltac decode16_step :=
  match goal with
  | |- context [utf16_Decode (?r :: ?p)] =>
      let p0 := fresh "p0" in
      let E := fresh "E" in
      remember p as p0 eqn:E; cbn [utf16_Decode]; subst p0; cbv beta iota
  end.

Lemma utf16_Encode_bmp (v : Z) (rest : list Z) :
  0 <= v < 55296 \/ 57344 <= v < 65536 ->
  utf16_Encode (v :: rest) = v :: utf16_Encode rest.
Proof.
  intros Hv. cbn [utf16_Encode]. unfold surr1, surr3, surrSelf, MaxRune.
  destruct Hv; zdecide; reflexivity.
Qed.

Lemma utf16_Encode_pair (v : Z) (rest : list Z) :
  65536 <= v <= 1114111 ->
  utf16_Encode (v :: rest)
  = 55296 + (v - 65536) / 1024 :: 56320 + (v - 65536) mod 1024
    :: utf16_Encode rest.
Proof.
  intros Hv. cbn [utf16_Encode].
  rewrite utf16_EncodeRune_value by exact Hv.
  unfold surr1, surr3, surrSelf, MaxRune. zdecide. reflexivity.
Qed.

Lemma utf16_Encode_invalid (v : Z) (rest : list Z) :
  is_scalar v = false ->
  utf16_Encode (v :: rest) = RuneError :: utf16_Encode rest.
Proof.
  intros Hv%is_scalar_false. cbn [utf16_Encode].
  unfold surr1, surr3, surrSelf, MaxRune.
  destruct Hv as [Hv|[Hv|Hv]]; zdecide; reflexivity.
Qed.

Lemma utf16_Decode_bmp (u : Z) (rest : list Z) :
  u < 55296 \/ 57344 <= u ->
  utf16_Decode (u :: rest) = u :: utf16_Decode rest.
Proof.
  intros Hu. decode16_step. unfold surr1, surr3.
  destruct Hu; zdecide; reflexivity.
Qed.

Lemma utf16_Decode_pair (a b : Z) (rest : list Z) :
  0 <= a < 1024 -> 0 <= b < 1024 ->
  utf16_Decode (55296 + a :: 56320 + b :: rest)
  = a * 1024 + b + 65536 :: utf16_Decode rest.
Proof.
  intros Ha Hb. decode16_step. unfold surr1, surr2, surr3.
  zdecide. rewrite utf16_DecodeRune_value by lia. reflexivity.
Qed.

(** A surrogate that is not the first half of a pair gives [RuneError]. *)
Lemma utf16_Decode_lone (u : Z) (rest : list Z) :
  55296 <= u < 57344 ->
  match rest with
  | u2 :: _ => ~ (u < 56320 /\ 56320 <= u2 < 57344)
  | [] => True
  end ->
  utf16_Decode (u :: rest) = RuneError :: utf16_Decode rest.
Proof.
  intros Hu Hrest. destruct rest as [|u2 rest].
  - cbn [utf16_Decode]. unfold surr1, surr3. zdecide. reflexivity.
  - decode16_step. unfold surr1, surr2, surr3. zdecide.
    destruct (Z.lt_ge_cases u 56320); [|zdecide; reflexivity].
    destruct (Z.lt_ge_cases u2 56320); [zdecide; reflexivity|].
    destruct (Z.lt_ge_cases u2 57344); [exfalso; apply Hrest; lia|].
    zdecide; reflexivity.
Qed.

Lemma utf16_Encode_sanitize (rs : list Z) :
  utf16_Encode (map sanitize rs) = utf16_Encode rs.
Proof.
  induction rs as [|r rs IH]; [reflexivity|].
  cbn [map]. unfold sanitize at 1. destruct (is_scalar r) eqn:Hs.
  - apply is_scalar_true in Hs.
    destruct (Z.lt_ge_cases r 65536).
    + rewrite !utf16_Encode_bmp by lia. rewrite IH. reflexivity.
    + rewrite !utf16_Encode_pair by lia. rewrite IH. reflexivity.
  - rewrite (utf16_Encode_invalid r _ Hs).
    rewrite utf16_Encode_bmp by (unfold RuneError; lia).
    rewrite IH. reflexivity.
Qed.

(** [utf16.Decode(utf16.Encode(rs))] *)
Lemma utf16_Decode_Encode (rs : list Z) :
  utf16_Decode (utf16_Encode rs) = map sanitize rs.
Proof.
  induction rs as [|r rs IH]; [reflexivity|].
  cbn [map]. unfold sanitize. destruct (is_scalar r) eqn:Hs.
  - apply is_scalar_true in Hs.
    destruct (Z.lt_ge_cases r 65536).
    + rewrite utf16_Encode_bmp, utf16_Decode_bmp by lia. rewrite IH. reflexivity.
    + rewrite utf16_Encode_pair, utf16_Decode_pair by zdm.
      rewrite IH. f_equal. zdm.
  - rewrite (utf16_Encode_invalid r _ Hs).
    rewrite utf16_Decode_bmp by (unfold RuneError; lia).
    rewrite IH. reflexivity.
Qed.

Lemma utf16_Encode_app (rs1 rs2 : list Z) :
  utf16_Encode (rs1 ++ rs2) = utf16_Encode rs1 ++ utf16_Encode rs2.
Proof.
  induction rs1 as [|r rs1 IH]; [reflexivity|].
  cbn [app utf16_Encode]. rewrite IH.
  destruct (_ || _); [reflexivity|].
  destruct (_ && _); [|reflexivity].
  destruct (utf16_EncodeRune r). reflexivity.
Qed.

Lemma utf16_Encode_units (rs : list Z) :
  Forall (fun u => 0 <= u < 65536) (utf16_Encode rs).
Proof.
  induction rs as [|r rs IH]; [constructor|].
  destruct (is_scalar r) eqn:Hs.
  - apply is_scalar_true in Hs.
    destruct (Z.lt_ge_cases r 65536).
    + rewrite utf16_Encode_bmp by lia. constructor; [lia|exact IH].
    + rewrite utf16_Encode_pair by lia.
      constructor; [zdm|]. constructor; [zdm|exact IH].
  - rewrite (utf16_Encode_invalid r _ Hs).
    constructor; [unfold RuneError; lia|exact IH].
Qed.

(** Decoding code units and encoding the runes again gives as many code
    units. *)
Lemma utf16_Encode_Decode_length (us : list Z) :
  Forall (fun u => 0 <= u < 65536) us ->
  length (utf16_Encode (utf16_Decode us)) = length us.
Proof.
  assert (H : forall (n : nat) (l : list Z),
             (length l <= n)%nat -> Forall (fun u => 0 <= u < 65536) l ->
             length (utf16_Encode (utf16_Decode l)) = length l).
  { induction n as [|n IH]; intros l Hn Hl.
    - destruct l; [reflexivity|simpl in Hn; lia].
    - destruct l as [|u rest]; [reflexivity|].
      inversion Hl as [|? ? Hu Hrest]; subst. simpl in Hn.
      destruct (Z.lt_ge_cases u 55296); [|destruct (Z.lt_ge_cases u 57344)].
      + rewrite utf16_Decode_bmp, utf16_Encode_bmp by lia. simpl.
        f_equal. apply IH; [lia|exact Hrest].
      + destruct rest as [|u2 rest'].
        * rewrite utf16_Decode_lone by (auto; lia). reflexivity.
        * destruct (decide (u < 56320 /\ 56320 <= u2 < 57344)) as [Hpair|Hno].
          -- replace u with (55296 + (u - 55296)) by lia.
             replace u2 with (56320 + (u2 - 56320)) by lia.
             rewrite utf16_Decode_pair, utf16_Encode_pair by lia. simpl.
             f_equal. f_equal.
             inversion Hrest; subst. simpl in Hn.
             apply IH; [lia|assumption].
          -- rewrite utf16_Decode_lone by (auto; lia).
             rewrite utf16_Encode_bmp by (unfold RuneError; lia). simpl.
             f_equal. apply (IH (u2 :: rest')); [simpl in *; lia|exact Hrest].
      + rewrite utf16_Decode_bmp, utf16_Encode_bmp by lia. simpl.
        f_equal. apply IH; [lia|exact Hrest]. }
  intros Hus. apply (H (length us)); [lia|exact Hus].
Qed.

(** A sequence of code units cut at an offset that does not fall into a
    surrogate pair is cut between two runes. *)
Lemma utf16_Encode_cut (rs : list Z) (k : nat) :
  splits_pair (utf16_Encode rs) k = false ->
  exists rs1 rs2,
    rs = rs1 ++ rs2
    /\ take k (utf16_Encode rs) = utf16_Encode rs1
    /\ drop k (utf16_Encode rs) = utf16_Encode rs2.
Proof.
  revert k. induction rs as [|r rs IH]; intros k Hk.
  - exists [], []. destruct k; repeat split; reflexivity.
  - destruct k as [|k]; [exists [], (r :: rs); repeat split; reflexivity|].
    destruct (is_scalar r) eqn:Hs.
    + apply is_scalar_true in Hs. destruct (Z.lt_ge_cases r 65536).
      * rewrite utf16_Encode_bmp in Hk |- * by lia.
        destruct (IH k Hk) as (rs1 & rs2 & Hrs & Ht & Hd).
        exists (r :: rs1), rs2. split; [rewrite Hrs; reflexivity|].
        rewrite utf16_Encode_bmp by lia. simpl. rewrite Ht, Hd.
        split; reflexivity.
      * rewrite utf16_Encode_pair in Hk |- * by lia.
        destruct k as [|k].
        -- exfalso. revert Hk. unfold splits_pair. simpl.
           assert (is_low_surrogate (56320 + (r - 65536) mod 1024) = true) as ->.
           { unfold is_low_surrogate, surr2, surr3.
             apply andb_true_intro.
             split; [apply Z.leb_le|apply Z.ltb_lt]; zdm. }
           discriminate.
        -- destruct (IH k Hk) as (rs1 & rs2 & Hrs & Ht & Hd).
           exists (r :: rs1), rs2. split; [rewrite Hrs; reflexivity|].
           rewrite utf16_Encode_pair by lia. simpl. rewrite Ht, Hd.
           split; reflexivity.
    + rewrite (utf16_Encode_invalid r _ Hs) in Hk |- *.
      destruct (IH k Hk) as (rs1 & rs2 & Hrs & Ht & Hd).
      exists (r :: rs1), rs2. split; [rewrite Hrs; reflexivity|].
      rewrite (utf16_Encode_invalid r _ Hs). simpl. rewrite Ht, Hd.
      split; reflexivity.
Qed.

(** ** TextValue.Split *)

Lemma code_units_string_of_runes_Decode (us : list Z) (attrs : RHT string) :
  code_units (mkTextValue (string_of_runes (utf16_Decode us)) attrs)
  = utf16_Encode (utf16_Decode us).
Proof.
  unfold code_units. simpl.
  rewrite runes_of_string_of_runes. apply utf16_Encode_sanitize.
Qed.

Lemma TextValue_Len_code_units (t : TextValue) :
  TextValue_Len t = Z.of_nat (length (code_units t)).
Proof. reflexivity. Qed.

(** The outcome of [Split] at an offset in range. *)
Lemma TextValue_Split_returns (t : TextValue) (k : Z) :
  0 <= k <= TextValue_Len t ->
  TextValue_Split t k
  = Returned
      ({| tv_value := string_of_runes
                        (utf16_Decode (take (Z.to_nat k) (code_units t)));
          tv_attrs := tv_attrs t |},
       {| tv_value := string_of_runes
                        (utf16_Decode (drop (Z.to_nat k) (code_units t)));
          tv_attrs := tv_attrs t |}).
Proof.
  intros Hk. rewrite TextValue_Len_code_units in Hk.
  unfold TextValue_Split. fold (code_units t).
  rewrite (proj2 (Z.ltb_ge k 0)) by lia.
  rewrite (proj2 (Z.ltb_ge (Z.of_nat (length (code_units t))) k)) by lia.
  reflexivity.
Qed.

Lemma code_units_in_range (t : TextValue) :
  Forall (fun u => 0 <= u < 65536) (code_units t).
Proof. apply utf16_Encode_units. Qed.

Lemma TextValue_Split_Len (t head tail : TextValue) (k : Z) :
  0 <= k <= TextValue_Len t ->
  TextValue_Split t k = Returned (head, tail) ->
  TextValue_Len head = k /\ TextValue_Len tail = TextValue_Len t - k.
Proof.
  intros Hk. rewrite (TextValue_Split_returns t k Hk). intros [= <- <-].
  rewrite !TextValue_Len_code_units in *.
  rewrite !code_units_string_of_runes_Decode.
  rewrite !utf16_Encode_Decode_length
    by (first [apply Forall_take|apply Forall_drop]; apply code_units_in_range).
  rewrite length_take, length_drop. lia.
Qed.


Lemma TextValue_Split_units (t head tail : TextValue) (k : Z) :
  0 <= k <= TextValue_Len t ->
  TextValue_Split t k = Returned (head, tail) ->
  splits_pair (code_units t) (Z.to_nat k) = false ->
  code_units head = take (Z.to_nat k) (code_units t)
  /\ code_units tail = drop (Z.to_nat k) (code_units t)
  /\ tv_value head +:+ tv_value tail
     = string_of_runes (runes_of_string (tv_value t)).
Proof.
  intros Hk. rewrite (TextValue_Split_returns t k Hk). intros [= <- <-].
  intros Hcut.
  destruct (utf16_Encode_cut _ _ Hcut) as (rs1 & rs2 & Hrs & Ht & Hd).
  change (utf16_Encode (runes_of_string (tv_value t))) with (code_units t)
    in Ht, Hd.
  rewrite !code_units_string_of_runes_Decode. cbn [tv_value].
  rewrite Ht, Hd.
  rewrite !utf16_Decode_Encode, !utf16_Encode_sanitize.
  split; [reflexivity|]. split; [reflexivity|].
  rewrite !string_of_runes_sanitize, <- string_of_runes_app, <- Hrs.
  reflexivity.
Qed.

(** C1, as amended: for every value and every offset [k] with
    [0 <= k <= Len], [Split(k)] returns; the receiver then has [k] code units
    and the returned value the remaining [Len - k], so that the lengths add up
    to the original length; the attributes are those of the original on both
    sides.  When [k] does not fall between the two code units of a surrogate
    pair, the receiver holds the first [k] code units of the original and the
    returned value the others, whatever the string; the two strings
    concatenated are then the original string with every byte that is not
    part of well-formed UTF-8 replaced by U+FFFD, which is the original
    string exactly when it is well-formed UTF-8. *)
Theorem TextValue_Split_round_trip (t : TextValue) (k : Z) :
  0 <= k <= TextValue_Len t ->
  exists head tail,
    TextValue_Split t k = Returned (head, tail)
    /\ TextValue_Len head = k
    /\ TextValue_Len tail = TextValue_Len t - k
    /\ TextValue_Len head + TextValue_Len tail = TextValue_Len t
    /\ tv_attrs head = tv_attrs t /\ tv_attrs tail = tv_attrs t
    /\ (splits_pair (code_units t) (Z.to_nat k) = false ->
        code_units head = take (Z.to_nat k) (code_units t)
        /\ code_units tail = drop (Z.to_nat k) (code_units t)
        /\ tv_value head +:+ tv_value tail
           = string_of_runes (runes_of_string (tv_value t))
        /\ (tv_value head +:+ tv_value tail = tv_value t
            <-> valid_utf8 (tv_value t) = true)).
Proof.
  intros Hk.
  pose proof (TextValue_Split_returns t k Hk) as Hret.
  eexists _, _. split; [exact Hret|].
  destruct (TextValue_Split_Len _ _ _ _ Hk Hret) as [Hhead Htail].
  split; [exact Hhead|]. split; [exact Htail|].
  split; [rewrite Hhead, Htail; lia|].
  split; [reflexivity|]. split; [reflexivity|].
  intros Hcut.
  destruct (TextValue_Split_units _ _ _ _ Hk Hret Hcut) as (Hh & Ht & Hcat).
  split; [exact Hh|]. split; [exact Ht|]. split; [exact Hcat|].
  rewrite Hcat. unfold valid_utf8. symmetry. apply String.eqb_eq.
Qed.

Lemma TextValue_Split_round_trip_witness :
  0 <= 2 <= TextValue_Len hello
  /\ exists head tail,
       TextValue_Split hello 2 = Returned (head, tail)
       /\ TextValue_Len head + TextValue_Len tail = TextValue_Len hello
       /\ tv_value head +:+ tv_value tail = "HELLO".
Proof.
  split; [vm_compute; split; discriminate|].
  destruct (TextValue_Split_round_trip hello 2) as
    (head & tail & Hs & _ & _ & Hlen & _ & _ & Hcat);
    [vm_compute; split; discriminate|].
  exists head, tail. split; [exact Hs|]. split; [exact Hlen|].
  destruct Hcat as (_ & _ & _ & Hiff); [vm_compute; reflexivity|].
  apply Hiff. vm_compute. reflexivity.
Defined.

(** C1, counterexample to the property as the spec states it: the value
    U+1F600 has two code units, and [Split(1)] leaves the receiver and the
    returned value with U+FFFD each: the receiver does not hold the first
    code unit of the original, and the two strings concatenated are not the
    original string.  A string that is not UTF-8 is not reconstructed either:
    [Split(0)] of the byte 0xFF returns the three bytes of U+FFFD. *)
Lemma TextValue_Split_counterexample :
  (0 <= 1 <= TextValue_Len grinning
   /\ exists head tail,
        TextValue_Split grinning 1 = Returned (head, tail)
        /\ code_units grinning = [0xD83D; 0xDE00]
        /\ code_units head = [0xFFFD]
        /\ code_units tail = [0xFFFD]
        /\ tv_value head +:+ tv_value tail <> tv_value grinning)
  /\ (0 <= 0 <= TextValue_Len byte_ff
      /\ exists head tail,
           TextValue_Split byte_ff 0 = Returned (head, tail)
           /\ bytes_of_string (tv_value byte_ff) = [0xFF]
           /\ bytes_of_string (tv_value head +:+ tv_value tail)
              = [0xEF; 0xBF; 0xBD]
           /\ tv_value head +:+ tv_value tail <> tv_value byte_ff).
Proof.
  split.
  - split; [vm_compute; split; discriminate|].
    eexists _, _. split; [reflexivity|].
    split; [reflexivity|]. split; [reflexivity|]. split; [reflexivity|].
    vm_compute. discriminate.
  - split; [vm_compute; split; discriminate|].
    eexists _, _. split; [reflexivity|].
    split; [reflexivity|]. split; [reflexivity|].
    vm_compute. discriminate.
Qed.

(** ** Text.Style *)

Example Text_Style_hello :
  (t' ← Text_Style text5 (pos 6 1) (pos 6 3) bold (ticket 9);
   Returned (map RGATreeSplitNode_String (all_nodes (rgaTreeSplit t')),
             map (fun n => dom (tv_attrs (node_value n)))
               (all_nodes (rgaTreeSplit t')),
             Text_String t'))
  = Returned ([EmptyString; "H"; "EL"; "LO"],
              [∅; ∅; {["bold"]}; ∅], "HELLO").
Proof. vm_compute. reflexivity. Qed.

Lemma all_nodes_alter_node (f : RGATreeSplitNode -> RGATreeSplitNode) (p : nat)
    (s : RGATreeSplit) :
  all_nodes (alter_node f p s) = alter f p (all_nodes s).
Proof. destruct p; reflexivity. Qed.

Lemma all_nodes_InsertAfter (s : RGATreeSplit) (p : nat) (n : RGATreeSplitNode) :
  all_nodes (RGATreeSplit_InsertAfter s p n).1
  = take (S p) (all_nodes s) ++ n :: drop (S p) (all_nodes s).
Proof. reflexivity. Qed.

Lemma alter_middle {A : Type} (f : A -> A) (l : list A) (i : nat) (x : A) :
  l !! i = Some x -> alter f i l = take i l ++ f x :: drop (S i) l.
Proof.
  revert i. induction l as [|y l IH]; intros [|i] Hi; try discriminate.
  - injection Hi as ->. reflexivity.
  - simpl. f_equal. apply IH. exact Hi.
Qed.

Lemma same_but_attrs_refl (n : RGATreeSplitNode) : same_but_attrs n n.
Proof. repeat split. Qed.

Lemma same_but_attrs_trans (a b c : RGATreeSplitNode) :
  same_but_attrs a b -> same_but_attrs b c -> same_but_attrs a c.
Proof.
  intros (H1 & H2 & H3 & H4) (G1 & G2 & G3 & G4).
  repeat split; congruence.
Qed.

Lemma same_but_attrs_style_node (attributes : gmap string string)
    (e : Ticket) (n : RGATreeSplitNode) :
  same_but_attrs n (style_node attributes e n).
Proof. repeat split. Qed.

Lemma Forall2_same_but_attrs_refl (l : list RGATreeSplitNode) :
  Forall2 same_but_attrs l l.
Proof. induction l; constructor; auto using same_but_attrs_refl. Qed.

Lemma Forall2_same_but_attrs_alter (attributes : gmap string string)
    (e : Ticket) (l : list RGATreeSplitNode) (p : nat) :
  Forall2 same_but_attrs l (alter (style_node attributes e) p l).
Proof.
  revert p. induction l as [|n l IH]; intros [|p]; simpl;
    try constructor;
    auto using same_but_attrs_refl, same_but_attrs_style_node,
      Forall2_same_but_attrs_refl.
  apply IH.
Qed.

Lemma Forall2_same_but_attrs_trans (l1 l2 l3 : list RGATreeSplitNode) :
  Forall2 same_but_attrs l1 l2 -> Forall2 same_but_attrs l2 l3 ->
  Forall2 same_but_attrs l1 l3.
Proof.
  intros H12. revert l3. induction H12 as [|a b l1 l2 Hab H12 IH]; intros l3 H23.
  - inversion H23. constructor.
  - inversion H23 as [|? c ? l3' Hbc H23']; subst. constructor.
    + exact (same_but_attrs_trans _ _ _ Hab Hbc).
    + apply IH. exact H23'.
Qed.

(** The writes of [Style] into the nodes between the boundaries change
    attributes only. *)
Lemma style_nodes_same_but_attrs (attributes : gmap string string) (e : Ticket)
    (nodes : list nat) (s : RGATreeSplit) :
  Forall2 same_but_attrs (all_nodes s)
    (all_nodes
       (fold_left (fun s p => alter_node (style_node attributes e) p s) nodes s)).
Proof.
  revert s. induction nodes as [|p nodes IH]; intros s; simpl.
  - apply Forall2_same_but_attrs_refl.
  - eapply Forall2_same_but_attrs_trans; [|apply IH].
    rewrite all_nodes_alter_node. apply Forall2_same_but_attrs_alter.
Qed.

(** What [findNodeWithSplit] does to the sequence: nothing, or the split of
    the node the position lies in. *)
Lemma findNodeWithSplit_spec (s s' : RGATreeSplit) (pos : RGATreeSplitNodePos)
    (e : Ticket) (l : nat) (r ins : option nat) :
  RGATreeSplit_findNodeWithSplit s pos e = Returned (s', l, r, ins) ->
  exists node rel,
    find_boundary s pos = Some (l, node, rel)
    /\ all_nodes s !! l = Some node
    /\ ((((rel =? 0) || (rel =? RGATreeSplitNode_contentLen node)) = true
         /\ s' = s)
        \/ (((rel =? 0) || (rel =? RGATreeSplitNode_contentLen node)) = false
            /\ exists h tl,
                 RGATreeSplitNode_split node rel = Returned (h, tl)
                 /\ all_nodes s'
                    = take l (all_nodes s) ++ h :: tl :: drop (S l) (all_nodes s))).
Proof.
  unfold RGATreeSplit_findNodeWithSplit, find_boundary.
  destruct (list_find _ _) as [[i node]|] eqn:Hfind; [|discriminate].
  pose proof (proj1 (list_find_Some _ _ _ _) Hfind) as (Hi & _ & _).
  set (rel := id_offset _ - id_offset (node_id node)).
  destruct ((rel =? 0) || (rel =? RGATreeSplitNode_contentLen node)) eqn:Hends.
  - intros [= <- <- <- <-]. exists node, rel. repeat split; auto.
  - destruct (RGATreeSplitNode_split node rel) as [[h tl]|msg] eqn:Hsplit;
      [|discriminate].
    cbn [mbind outcome_bind].
    remember (RGATreeSplit_InsertAfter (alter_node (fun _ => h) i s) i tl)
      as inserted eqn:Hins.
    destruct inserted as [s2 r2]. intros [= <- <- <- <-]. exists node, rel.
    split; [reflexivity|]. split; [exact Hi|]. right. split; [exact Hends|].
    exists h, tl. split; [exact Hsplit|].
    change s2 with (s2, r2).1. rewrite Hins.
    rewrite (all_nodes_InsertAfter (alter_node (fun _ => h) i s) i tl).
    rewrite all_nodes_alter_node, (alter_middle _ _ _ _ Hi).
    assert (Hlen : length (take i (all_nodes s)) = i).
    { rewrite length_take. apply lookup_lt_Some in Hi. lia. }
    replace (take i (all_nodes s) ++ h :: drop (S i) (all_nodes s))
      with ((take i (all_nodes s) ++ [h]) ++ drop (S i) (all_nodes s))
      by (rewrite <- app_assoc; reflexivity).
    rewrite take_app_length' by (rewrite length_app; simpl; lia).
    rewrite drop_app_length' by (rewrite length_app; simpl; lia).
    rewrite <- app_assoc. reflexivity.
Qed.

Lemma findNodeWithSplit_split_step (s s' : RGATreeSplit)
    (pos : RGATreeSplitNodePos) (e : Ticket) (l : nat) (r ins : option nat) :
  RGATreeSplit_findNodeWithSplit s pos e = Returned (s', l, r, ins) ->
  split_step (all_nodes s) (all_nodes s').
Proof.
  intros H. apply findNodeWithSplit_spec in H as (node & rel & _ & Hl & H).
  destruct H as [[_ ->]|[_ (h & tl & Hsplit & Hall)]]; [left; reflexivity|].
  right. exists (take l (all_nodes s)), node, (drop (S l) (all_nodes s)), rel, h, tl.
  split; [symmetry; apply take_drop_middle; exact Hl|]. split; assumption.
Qed.

Lemma RGATreeSplitNode_split_spec (n h tl : RGATreeSplitNode) (k : Z) :
  RGATreeSplitNode_split n k = Returned (h, tl) ->
  TextValue_Split (node_value n) k = Returned (node_value h, node_value tl)
  /\ node_id h = node_id n
  /\ node_id tl = mkNodeID (node_createdAt n) (id_offset (node_id n) + k)
  /\ node_removedAt h = node_removedAt n
  /\ node_removedAt tl = node_removedAt n.
Proof.
  unfold RGATreeSplitNode_split.
  destruct (TextValue_Split (node_value n) k) as [[v tail]|msg]; [|discriminate].
  cbn [mbind outcome_bind]. intros [= <- <-]. repeat split.
Qed.



Lemma head_empty_contentLen (s : RGATreeSplit) :
  head_empty s -> RGATreeSplitNode_contentLen (initialHead s) = 0.
Proof.
  unfold head_empty, RGATreeSplitNode_contentLen, TextValue_Len.
  intros ->. reflexivity.
Qed.










(** The steps of [Style]. *)
Lemma Text_Style_steps (t t' : Text) (from to : RGATreeSplitNodePos)
    (attributes : gmap string string) (e : Ticket) :
  Text_Style t from to attributes e = Returned t' ->
  exists s1 l1 toRight ins1 s2 l2 fromRight ins2,
    RGATreeSplit_findNodeWithSplit (rgaTreeSplit t) to e
    = Returned (s1, l1, toRight, ins1)
    /\ RGATreeSplit_findNodeWithSplit s1 from e
       = Returned (s2, l2, fromRight, ins2)
    /\ t' = with_rgaTreeSplit t
              (fold_left
                 (fun s p => alter_node (style_node attributes e) p s)
                 (RGATreeSplit_findBetween s2 fromRight (relocate ins2 toRight))
                 s2).
Proof.
  unfold Text_Style.
  destruct (RGATreeSplit_findNodeWithSplit (rgaTreeSplit t) to e)
    as [[[[s1 l1] toRight] ins1]|msg] eqn:H1; [|discriminate].
  cbn [mbind outcome_bind].
  destruct (RGATreeSplit_findNodeWithSplit s1 from e)
    as [[[[s2 l2] fromRight] ins2]|msg] eqn:H2; [|discriminate].
  intros [= <-]. eexists _, _, _, _, _, _, _, _.
  split; [reflexivity|]. split; [exact H2|reflexivity].
Qed.








(* ===================================================================== *)
(** * Further properties of the code                                      *)
(* ===================================================================== *)

(** ** Remove: convergence and the returned flag *)

Lemma after_call_Remove (t : Text) (r : Ticket) :
  after_call t (Text_Remove t (Some r))
  = if removable t r then with_removedAt t r else t.
Proof. rewrite Text_Remove_spec. destruct (removable t r); reflexivity. Qed.

Lemma after_call_Remove_nil (t : Text) : after_call t (Text_Remove t None) = t.
Proof. reflexivity. Qed.

(** Two [Remove] calls, the first with the earlier ticket, give the same text
    in either order. *)
Lemma Text_Remove_swap_ordered (t : Text) (a b : Ticket) :
  Ticket_After b a = true ->
  after_call (after_call t (Text_Remove t (Some a)))
    (Text_Remove (after_call t (Text_Remove t (Some a))) (Some b))
  = after_call (after_call t (Text_Remove t (Some b)))
      (Text_Remove (after_call t (Text_Remove t (Some b))) (Some a)).
Proof.
  intros Hlt.
  rewrite (after_call_Remove (after_call t (Text_Remove t (Some b))) a).
  rewrite (removable_after_Remove t a b Hlt).
  rewrite (after_call_Remove t a).
  destruct (removable t a) eqn:Ha.
  - unfold removable in Ha. apply andb_true_iff in Ha as [Hc Hp].
    rewrite !after_call_Remove. unfold removable at 1. simpl.
    rewrite (Ticket_After_trans _ _ _ Hlt Hc), Hlt. simpl.
    unfold removable. rewrite (Ticket_After_trans _ _ _ Hlt Hc). simpl.
    destruct (removedAt t) as [p|]; [|reflexivity].
    rewrite (Ticket_After_trans _ _ _ Hlt Hp). reflexivity.
  - reflexivity.
Qed.

Lemma Text_Remove_swap (t : Text) (a b : option Ticket) :
  Text_Remove_all t [a; b] = Text_Remove_all t [b; a].
Proof.
  unfold Text_Remove_all; simpl.
  destruct a as [a|], b as [b|]; try reflexivity.
  destruct (decide (a = b)) as [->|Hne]; [reflexivity|].
  destruct (Ticket_After_total a b Hne) as [H|H].
  - symmetry. apply Text_Remove_swap_ordered. exact H.
  - apply Text_Remove_swap_ordered. exact H.
Qed.

Lemma Text_Remove_all_app (t : Text) (rs1 rs2 : list (option Ticket)) :
  Text_Remove_all t (rs1 ++ rs2) = Text_Remove_all (Text_Remove_all t rs1) rs2.
Proof. unfold Text_Remove_all. apply fold_left_app. Qed.

(** X1: the text a run of [Remove] calls leaves does not depend on the order
    of the calls. *)
Theorem Text_Remove_all_order (t : Text) (rs rs' : list (option Ticket)) :
  Permutation rs rs' -> Text_Remove_all t rs = Text_Remove_all t rs'.
Proof.
  intros Hperm. revert t.
  induction Hperm as [|r rs rs' _ IH|a b rs|rs1 rs2 rs3 _ IH1 _ IH2]; intros t.
  - reflexivity.
  - change (r :: rs) with ([r] ++ rs). change (r :: rs') with ([r] ++ rs').
    rewrite !Text_Remove_all_app. apply IH.
  - change (b :: a :: rs) with ([b; a] ++ rs).
    change (a :: b :: rs) with ([a; b] ++ rs).
    rewrite !Text_Remove_all_app, (Text_Remove_swap t b a). reflexivity.
  - rewrite IH1. apply IH2.
Qed.

Lemma Text_Remove_all_order_witness :
  Permutation [Some (ticket 7); None; Some (ticket 9); Some (ticket 3)]
              [Some (ticket 9); Some (ticket 3); Some (ticket 7); None]
  /\ removedAt
       (Text_Remove_all text5
          [Some (ticket 7); None; Some (ticket 9); Some (ticket 3)])
     = Some (ticket 9)
  /\ Text_Remove_all text5
       [Some (ticket 7); None; Some (ticket 9); Some (ticket 3)]
     = Text_Remove_all text5
         [Some (ticket 9); Some (ticket 3); Some (ticket 7); None].
Proof.
  pose proof (Permutation_app_comm [Some (ticket 7); None]
                [Some (ticket 9); Some (ticket 3)]) as Hp.
  split; [exact Hp|]. split; [reflexivity|].
  apply (Text_Remove_all_order text5 _ _ Hp).
Defined.

(** X2: a [Remove] call returns; it keeps [createdAt]; it never clears a
    tombstone and never moves it back: a tombstone recorded before the call
    is followed by one that is not before it; and the flag it returns is true
    exactly when the tombstone has changed. *)
Theorem Text_Remove_tombstone_forward (t : Text) (r : option Ticket) :
  exists t' b,
    Text_Remove t r = Returned (t', b)
    /\ createdAt t' = createdAt t
    /\ (forall p, removedAt t = Some p ->
          exists p', removedAt t' = Some p' /\ Ticket_After p p' = false)
    /\ (b = true <-> removedAt t' <> removedAt t).
Proof.
  assert (Hsame : exists t' b,
            Returned (t, false) = Returned (t', b)
            /\ createdAt t' = createdAt t
            /\ (forall p, removedAt t = Some p ->
                  exists p', removedAt t' = Some p' /\ Ticket_After p p' = false)
            /\ (b = true <-> removedAt t' <> removedAt t)).
  { exists t, false. split; [reflexivity|]. split; [reflexivity|]. split.
    - intros p Hp. exists p. split; [exact Hp|apply Ticket_After_irrefl].
    - split; [discriminate|]. intros H. contradiction H. reflexivity. }
  destruct r as [r|]; [|exact Hsame].
  rewrite Text_Remove_spec. destruct (removable t r) eqn:Hrem; [|exact Hsame].
  unfold removable in Hrem. apply andb_true_iff in Hrem as [_ Hrem].
  exists (with_removedAt t r), true.
  split; [reflexivity|]. split; [reflexivity|]. split.
  - intros p Hp. exists r. split; [reflexivity|].
    rewrite Hp in Hrem. apply Ticket_After_asym. exact Hrem.
  - split; [intros _|reflexivity]. simpl. intros Heq.
    rewrite <- Heq, Ticket_After_irrefl in Hrem. discriminate.
Qed.

(** ** Select: convergence and frame *)

Lemma selection_of_with_selection_ne (t : Text) (sel : Selection) (e : Ticket) :
  Ticket_ActorIDHex e <> Ticket_ActorIDHex (sel_updatedAt sel) ->
  selection_of (with_selection t sel) e = selection_of t e.
Proof.
  intros Hne. unfold selection_of, with_selection; simpl.
  apply lookup_insert_ne. congruence.
Qed.

Lemma with_selection_commute (t : Text) (s1 s2 : Selection) :
  Ticket_ActorIDHex (sel_updatedAt s1) <> Ticket_ActorIDHex (sel_updatedAt s2) ->
  with_selection (with_selection t s1) s2
  = with_selection (with_selection t s2) s1.
Proof.
  intros Hne. unfold with_selection; simpl. f_equal.
  apply insert_insert_ne. congruence.
Qed.

(** Two [Select] calls of different actors commute. *)
Lemma Text_Select_commute_actors (t : Text)
    (f1 o1 f2 o2 : RGATreeSplitNodePos) (t1 t2 : Ticket) :
  Ticket_ActorIDHex t1 <> Ticket_ActorIDHex t2 ->
  Text_Select (Text_Select t f1 o1 t1) f2 o2 t2
  = Text_Select (Text_Select t f2 o2 t2) f1 o1 t1.
Proof.
  intros Hne.
  assert (H12 : forall u, selection_of (with_selection u (newSelection f1 o1 t1)) t2
                          = selection_of u t2).
  { intros u. apply selection_of_with_selection_ne. simpl. congruence. }
  assert (H21 : forall u, selection_of (with_selection u (newSelection f2 o2 t2)) t1
                          = selection_of u t1).
  { intros u. apply selection_of_with_selection_ne. simpl. congruence. }
  assert (Hcomm : with_selection (with_selection t (newSelection f1 o1 t1))
                    (newSelection f2 o2 t2)
                  = with_selection (with_selection t (newSelection f2 o2 t2))
                      (newSelection f1 o1 t1)).
  { apply with_selection_commute. simpl. exact Hne. }
  rewrite (Text_Select_spec t f1 o1 t1), (Text_Select_spec t f2 o2 t2).
  destruct (selection_of t t1) as [p1|] eqn:E1;
    destruct (selection_of t t2) as [p2|] eqn:E2;
    try destruct (Ticket_After t1 (sel_updatedAt p1)) eqn:D1;
    try destruct (Ticket_After t2 (sel_updatedAt p2)) eqn:D2;
    rewrite !Text_Select_spec, ?H12, ?H21, ?E1, ?E2, ?D1, ?D2;
    try reflexivity; try exact Hcomm.
Qed.

Lemma Text_Select_swap (t : Text) (f1 o1 f2 o2 : RGATreeSplitNodePos)
    (t1 t2 : Ticket) :
  t1 <> t2 ->
  Text_Select_all t [(f1, o1, t1); (f2, o2, t2)]
  = Text_Select_all t [(f2, o2, t2); (f1, o1, t1)].
Proof.
  intros Hne. unfold Text_Select_all; simpl.
  destruct (decide (Ticket_ActorIDHex t1 = Ticket_ActorIDHex t2)) as [Hk|Hk].
  - destruct (Ticket_After_total t1 t2 Hne) as [H|H].
    + symmetry. apply Text_Select_commute; [congruence|exact H].
    + apply Text_Select_commute; [exact Hk|exact H].
  - apply Text_Select_commute_actors. exact Hk.
Qed.

Lemma Text_Select_all_app (t : Text)
    (l1 l2 : list (RGATreeSplitNodePos * RGATreeSplitNodePos * Ticket)) :
  Text_Select_all t (l1 ++ l2) = Text_Select_all (Text_Select_all t l1) l2.
Proof. unfold Text_Select_all. apply fold_left_app. Qed.

(** X3: the text a run of [Select] calls with pairwise different tickets
    leaves does not depend on the order of the calls. *)
Theorem Text_Select_all_order (t : Text)
    (calls calls' : list (RGATreeSplitNodePos * RGATreeSplitNodePos * Ticket)) :
  NoDup (map snd calls) ->
  Permutation calls calls' ->
  Text_Select_all t calls = Text_Select_all t calls'.
Proof.
  intros Hnd Hperm. revert t Hnd.
  induction Hperm as [|c l l' Hperm IH|a b l|l1 l2 l3 H12 IH1 H23 IH2];
    intros t Hnd.
  - reflexivity.
  - change (c :: l) with ([c] ++ l). change (c :: l') with ([c] ++ l').
    rewrite !Text_Select_all_app. apply IH.
    simpl in Hnd. apply NoDup_cons in Hnd as [_ Hnd]. exact Hnd.
  - change (b :: a :: l) with ([b; a] ++ l).
    change (a :: b :: l) with ([a; b] ++ l).
    rewrite !Text_Select_all_app. f_equal.
    destruct a as [[fa oa] ta], b as [[fb ob] tb].
    apply Text_Select_swap.
    simpl in Hnd. apply NoDup_cons in Hnd as [Hnotin _].
    intros ->. apply Hnotin. left.
  - rewrite IH1 by exact Hnd. apply IH2.
    assert (Hm : Permutation (map snd l1) (map snd l2))
      by (apply Permutation_map; exact H12).
    rewrite <- Hm. exact Hnd.
Qed.

Lemma Text_Select_all_order_witness :
  NoDup (map snd [(pos 6 0, pos 6 3, ticket 1); (pos 6 1, pos 6 2, ticket 2);
                  (pos 6 0, pos 6 1, mkTicket 2 0 "B")])
  /\ selection_of
       (Text_Select_all text5
          [(pos 6 0, pos 6 1, mkTicket 2 0 "B"); (pos 6 0, pos 6 3, ticket 1);
           (pos 6 1, pos 6 2, ticket 2)]) (ticket 1)
     = Some (newSelection (pos 6 1) (pos 6 2) (ticket 2))
  /\ Text_Select_all text5
       [(pos 6 0, pos 6 3, ticket 1); (pos 6 1, pos 6 2, ticket 2);
        (pos 6 0, pos 6 1, mkTicket 2 0 "B")]
     = Text_Select_all text5
         [(pos 6 0, pos 6 1, mkTicket 2 0 "B"); (pos 6 0, pos 6 3, ticket 1);
          (pos 6 1, pos 6 2, ticket 2)].
Proof.
  assert (Hnd : NoDup (map snd
            [(pos 6 0, pos 6 3, ticket 1); (pos 6 1, pos 6 2, ticket 2);
             (pos 6 0, pos 6 1, mkTicket 2 0 "B")])).
  { apply (bool_decide_unpack _). vm_compute. exact I. }
  split; [exact Hnd|]. split; [reflexivity|].
  apply (Text_Select_all_order text5 _ _ Hnd).
  apply (Permutation_app_comm
           [(pos 6 0, pos 6 3, ticket 1); (pos 6 1, pos 6 2, ticket 2)]
           [(pos 6 0, pos 6 1, mkTicket 2 0 "B")]).
Defined.

(** X4: a [Select] call changes nothing but the selection table, and there
    nothing but the entry of the actor of its ticket; afterwards that actor
    has a selection whose ticket is neither before the ticket of the call nor
    before the ticket of the selection it had; and the same call once more
    changes nothing. *)
Theorem Text_Select_frame (t : Text) (from to : RGATreeSplitNodePos)
    (e : Ticket) :
  rgaTreeSplit (Text_Select t from to e) = rgaTreeSplit t
  /\ createdAt (Text_Select t from to e) = createdAt t
  /\ movedAt (Text_Select t from to e) = movedAt t
  /\ removedAt (Text_Select t from to e) = removedAt t
  /\ (forall e', Ticket_ActorIDHex e' <> Ticket_ActorIDHex e ->
        selection_of (Text_Select t from to e) e' = selection_of t e')
  /\ (exists s,
        selection_of (Text_Select t from to e) e = Some s
        /\ Ticket_After e (sel_updatedAt s) = false
        /\ forall p, selection_of t e = Some p ->
             Ticket_After (sel_updatedAt p) (sel_updatedAt s) = false)
  /\ Text_Select (Text_Select t from to e) from to e = Text_Select t from to e.
Proof.
  assert (Hnew : selection_of (with_selection t (newSelection from to e)) e
                 = Some (newSelection from to e)).
  { apply selection_of_with_selection. reflexivity. }
  assert (Hcase :
    (Text_Select t from to e = with_selection t (newSelection from to e)
     /\ forall p, selection_of t e = Some p ->
          Ticket_After e (sel_updatedAt p) = true)
    \/ (Text_Select t from to e = t
        /\ exists p, selection_of t e = Some p
             /\ Ticket_After e (sel_updatedAt p) = false)).
  { rewrite Text_Select_spec. destruct (selection_of t e) as [p|] eqn:Hp.
    - destruct (Ticket_After e (sel_updatedAt p)) eqn:Hafter.
      + left. split; [reflexivity|]. intros q [= <-]. exact Hafter.
      + right. split; [reflexivity|]. exists p. auto.
    - left. split; [reflexivity|]. intros q Hq. discriminate. }
  destruct Hcase as [[Heq Hold]|[Heq (p & Hp & Hafter)]]; rewrite !Heq.
  - repeat (split; [reflexivity|]). split; [|split].
    + intros e' Hne. apply selection_of_with_selection_ne. simpl. exact Hne.
    + exists (newSelection from to e). split; [exact Hnew|]. simpl.
      split; [apply Ticket_After_irrefl|].
      intros q Hq. apply Ticket_After_asym, Hold, Hq.
    + rewrite Text_Select_spec, Hnew. simpl.
      rewrite Ticket_After_irrefl. reflexivity.
  - repeat (split; [reflexivity|]). split.
    + exists p. split; [exact Hp|]. split; [exact Hafter|].
      intros q Hq. rewrite Hp in Hq. injection Hq as <-.
      apply Ticket_After_irrefl.
    + reflexivity.
Qed.

(** ** Set.Execute and Object.Set *)

Lemma RHT_Set_lookup {V : Type} (k k' : string) (v : V) (c : Ticket) (m : RHT V) :
  RHT_Set k v c m !! k'
  = if decide (k = k')
    then match m !! k with
         | Some prev =>
             if supersedes c prev
             then Some (mkRHTEntry v c None) else Some prev
         | None => Some (mkRHTEntry v c None)
         end
    else m !! k'.
Proof.
  unfold RHT_Set. destruct (decide (k = k')) as [<-|Hne].
  - destruct (m !! k) as [prev|] eqn:Hk.
    + destruct (supersedes c prev);
        [apply lookup_insert_eq|exact Hk].
    + apply lookup_insert_eq.
  - destruct (m !! k) as [prev|].
    + destruct (supersedes c prev);
        [apply lookup_insert_ne; exact Hne|reflexivity].
    + apply lookup_insert_ne. exact Hne.
Qed.

Lemma supersedes_written {V : Type} (c c' : Ticket) (v : V) :
  supersedes c (mkRHTEntry v c' None) = Ticket_After c c'.
Proof. unfold supersedes. cbn [rht_setAt rht_tombstoneAt]. apply andb_true_r. Qed.

Lemma supersedes_trans {V : Type} (c c' : Ticket) (prev : RHTEntry V) :
  Ticket_After c' c = true -> supersedes c prev = true ->
  supersedes c' prev = true.
Proof.
  unfold supersedes. intros Hc [Hset Htomb]%andb_true_iff.
  rewrite (Ticket_After_trans _ _ _ Hc Hset). cbn [andb].
  destruct (rht_tombstoneAt prev) as [r|]; [|reflexivity].
  exact (Ticket_After_trans _ _ _ Hc Htomb).
Qed.

Lemma Set_Execute_run (o : SetOp) (d : Document) (obj : loc) (target : Object)
    (e : Element) :
  Root_FindByCreatedAt (root d) (set_parentCreatedAt o) = Some obj ->
  heap d !! obj = Some (ElemObject target) ->
  heap d !! set_value o = Some e ->
  Set_Execute o d = Returned (executed o d obj target e, None).
Proof.
  intros Hfind Hobj Hval. unfold Set_Execute. rewrite Hfind, Hobj.
  unfold Object_Set. rewrite Hobj, Hval. cbn [mbind outcome_bind].
  unfold Root_RegisterElement. cbn [heap root].
  destruct (decide (obj = set_value o)) as [Heq|Hne].
  - rewrite <- Heq, lookup_insert_eq. cbn [mbind outcome_bind].
    rewrite <- Heq, Hobj in Hval. injection Hval as <-.
    unfold executed. rewrite <- Heq. reflexivity.
  - rewrite lookup_insert_ne by exact Hne. rewrite Hval. reflexivity.
Qed.

(** X5: whatever the value, [Execute] returns the error and the document it
    was given when the target ticket is not registered, or is registered to
    something that is not an Object; when the target is an Object and the
    value is no element, it panics; in no other case does it fail. *)
Theorem Set_Execute_outcomes (o : SetOp) (d : Document) :
  match Root_FindByCreatedAt (root d) (set_parentCreatedAt o)
        ≫= (fun obj => heap d !! obj) with
  | Some (ElemObject target) =>
      match heap d !! set_value o with
      | Some e =>
          exists d', Set_Execute o d = Returned (d', None)
                     /\ Root_FindByCreatedAt (root d') (Element_CreatedAt e)
                        = Some (set_value o)
      | None => exists msg, Set_Execute o d = Panicked msg
      end
  | _ =>
      Set_Execute o d
      = Returned (d, Some "fail to execute, only Object can execute Set")
  end.
Proof.
  unfold Set_Execute.
  destruct (Root_FindByCreatedAt (root d) (set_parentCreatedAt o)) as [obj|];
    simpl; [|reflexivity].
  destruct (heap d !! obj) as [[v c|target|t]|] eqn:Hobj; try reflexivity.
  unfold Object_Set. rewrite Hobj.
  destruct (heap d !! set_value o) as [e|] eqn:Hval;
    [|eexists; reflexivity].
  cbn [mbind outcome_bind]. unfold Root_RegisterElement. cbn [heap root].
  destruct (decide (obj = set_value o)) as [Heq|Hne].
  - rewrite <- Heq, lookup_insert_eq. cbn [mbind outcome_bind].
    eexists. split; [reflexivity|]. unfold Root_FindByCreatedAt; simpl.
    rewrite <- Heq, Hobj in Hval. injection Hval as <-. simpl.
    apply lookup_insert_eq.
  - rewrite lookup_insert_ne by exact Hne. rewrite Hval.
    cbn [mbind outcome_bind]. eexists. split; [reflexivity|].
    unfold Root_FindByCreatedAt; simpl. apply lookup_insert_eq.
Qed.

(** The cases in which [Execute] returns without an error. *)
Lemma Set_Execute_success (o : SetOp) (d d' : Document) :
  Set_Execute o d = Returned (d', None) ->
  exists obj target e,
    Root_FindByCreatedAt (root d) (set_parentCreatedAt o) = Some obj
    /\ heap d !! obj = Some (ElemObject target)
    /\ heap d !! set_value o = Some e
    /\ d' = executed o d obj target e.
Proof.
  unfold Set_Execute.
  destruct (Root_FindByCreatedAt (root d) (set_parentCreatedAt o)) as [obj|]
    eqn:Hfind; [|discriminate].
  destruct (heap d !! obj) as [[v c|target|t]|] eqn:Hobj; try discriminate.
  unfold Object_Set. rewrite Hobj.
  destruct (heap d !! set_value o) as [e|] eqn:Hval; [|discriminate].
  cbn [mbind outcome_bind]. unfold Root_RegisterElement. cbn [heap root].
  intros H. exists obj, target, e.
  split; [first [reflexivity|assumption]|].
  split; [first [reflexivity|assumption]|].
  split; [first [reflexivity|assumption]|].
  revert H. destruct (decide (obj = set_value o)) as [Heq|Hne].
  - rewrite <- Heq, lookup_insert_eq. cbn [mbind outcome_bind].
    rewrite <- Heq, Hobj in Hval. injection Hval as <-.
    intros [= <-]. unfold executed. rewrite <- Heq. reflexivity.
  - rewrite lookup_insert_ne by exact Hne. rewrite Hval.
    cbn [mbind outcome_bind]. intros [= <-]. reflexivity.
Qed.

(** X6: an [Execute] that returns without an error changes one element, the
    target Object, and one entry of the registry, the one of the creation
    ticket of the value: every other element and every other registration
    stay; the target keeps its creation ticket and all its members but the
    one of the key; and every element keeps its creation ticket. *)
Theorem Set_Execute_frame (o : SetOp) (d d' : Document) :
  Set_Execute o d = Returned (d', None) ->
  exists obj target target' e,
    Root_FindByCreatedAt (root d) (set_parentCreatedAt o) = Some obj
    /\ heap d !! obj = Some (ElemObject target)
    /\ heap d !! set_value o = Some e
    /\ heap d' !! obj = Some (ElemObject target')
    /\ obj_createdAt target' = obj_createdAt target
    /\ (forall k, k <> set_key o -> members target' !! k = members target !! k)
    /\ (forall l, l <> obj -> heap d' !! l = heap d !! l)
    /\ (forall l, Element_CreatedAt <$> heap d' !! l
                  = Element_CreatedAt <$> heap d !! l)
    /\ (forall c, c <> Element_CreatedAt e ->
          Root_FindByCreatedAt (root d') c = Root_FindByCreatedAt (root d) c).
Proof.
  intros (obj & target & e & Hfind & Hobj & Hval & ->)%Set_Execute_success.
  eexists obj, target, _, e.
  split; [exact Hfind|]. split; [exact Hobj|]. split; [exact Hval|].
  unfold executed; cbn [heap root elementMapByCreatedAt].
  split; [apply lookup_insert_eq|]. split; [reflexivity|]. split; [|split; [|split]].
  - intros k Hk. cbn [members]. rewrite RHT_Set_lookup.
    destruct (decide (set_key o = k)); [congruence|reflexivity].
  - intros l Hl. apply lookup_insert_ne. congruence.
  - intros l. destruct (decide (obj = l)) as [<-|Hne].
    + rewrite lookup_insert_eq, Hobj. reflexivity.
    + rewrite lookup_insert_ne by exact Hne. reflexivity.
  - intros c Hc. unfold Root_FindByCreatedAt; simpl.
    apply lookup_insert_ne. congruence.
Qed.

Lemma Set_Execute_frame_witness :
  exists d',
    Set_Execute (NewSet "k" 3%positive (ticket 1) (ticket 11)) sample_document
    = Returned (d', None)
    /\ heap d' !! 2%positive = Some (ElemText text5)
    /\ Root_FindByCreatedAt (root d') (ticket 5) = Some 2%positive.
Proof.
  assert (Hex : Set_Execute (NewSet "k" 3%positive (ticket 1) (ticket 11))
                  sample_document
                = Returned
                    (executed (NewSet "k" 3%positive (ticket 1) (ticket 11))
                       sample_document 1%positive (NewObject NewRHT (ticket 1))
                       (ElemPrimitive "v" (ticket 10)), None))
    by reflexivity.
  eexists. split; [exact Hex|].
  destruct (Set_Execute_frame _ _ _ Hex)
    as (obj & target & target' & e & Hfind & _ & Hval & _ & _ & _ & Hheap & _ & Hreg).
  injection Hfind as <-. injection Hval as <-.
  split.
  - rewrite Hheap by discriminate. reflexivity.
  - rewrite Hreg by discriminate. reflexivity.
Defined.

Lemma RHT_Set_idempotent {V : Type} (k : string) (v : V) (c : Ticket) (m : RHT V) :
  RHT_Set k v c (RHT_Set k v c m) = RHT_Set k v c m.
Proof.
  apply map_eq. intros k'.
  rewrite (RHT_Set_lookup k k' v c (RHT_Set k v c m)).
  destruct (decide (k = k')) as [<-|]; [|reflexivity].
  rewrite (RHT_Set_lookup k k v c m), decide_True by reflexivity.
  destruct (m !! k) as [prev|].
  - destruct (supersedes c prev) eqn:H.
    + rewrite supersedes_written, Ticket_After_irrefl. reflexivity.
    + rewrite H. reflexivity.
  - rewrite supersedes_written, Ticket_After_irrefl. reflexivity.
Qed.

(** X7: the same [Set] operation executed a second time changes nothing:
    when the first execution returns without an error, and the creation ticket
    of the value is not the ticket of the target, the second one returns the
    same document, without an error. *)
Theorem Set_Execute_idempotent (o : SetOp) (d d' : Document) (e : Element) :
  Set_Execute o d = Returned (d', None) ->
  heap d !! set_value o = Some e ->
  Element_CreatedAt e <> set_parentCreatedAt o ->
  Set_Execute o d' = Returned (d', None).
Proof.
  intros Hex Hval Hfresh.
  apply Set_Execute_success in Hex
    as (obj & target & e' & Hfind & Hobj & Hval' & ->).
  rewrite Hval in Hval'. injection Hval' as <-.
  pose (target' := {| members := RHT_Set (set_key o) (set_value o)
                                   (Element_CreatedAt e) (members target);
                      obj_createdAt := obj_createdAt target |}).
  assert (Hfind' : Root_FindByCreatedAt (root (executed o d obj target e))
                     (set_parentCreatedAt o) = Some obj).
  { unfold Root_FindByCreatedAt, executed; simpl.
    rewrite lookup_insert_ne by exact Hfresh. exact Hfind. }
  assert (Hobj' : heap (executed o d obj target e) !! obj
                  = Some (ElemObject target')).
  { unfold executed; simpl. apply lookup_insert_eq. }
  assert (Hval' : exists e2, heap (executed o d obj target e) !! set_value o
                             = Some e2
                             /\ Element_CreatedAt e2 = Element_CreatedAt e).
  { unfold executed; simpl. destruct (decide (obj = set_value o)) as [Heq|Hne].
    - rewrite <- Heq, lookup_insert_eq. eexists. split; [reflexivity|].
      rewrite <- Heq, Hobj in Hval. injection Hval as <-. reflexivity.
    - rewrite lookup_insert_ne by exact Hne. eauto. }
  destruct Hval' as (e2 & Hval2 & Hc2).
  rewrite (Set_Execute_run o _ obj target' e2 Hfind' Hobj' Hval2).
  f_equal. f_equal.
  unfold executed at 1. unfold executed at 3. f_equal.
  - cbn [heap executed]. rewrite insert_insert_eq. f_equal. f_equal.
    unfold target'. cbn [members obj_createdAt]. f_equal.
    rewrite Hc2. apply RHT_Set_idempotent.
  - cbn [root executed elementMapByCreatedAt]. f_equal.
    rewrite Hc2. apply insert_insert_eq.
Qed.

Lemma Set_Execute_idempotent_witness :
  exists d',
    Set_Execute (NewSet "k" 3%positive (ticket 1) (ticket 11)) sample_document
    = Returned (d', None)
    /\ Set_Execute (NewSet "k" 3%positive (ticket 1) (ticket 11)) d'
       = Returned (d', None).
Proof.
  assert (Hex : Set_Execute (NewSet "k" 3%positive (ticket 1) (ticket 11))
                  sample_document
                = Returned
                    (executed (NewSet "k" 3%positive (ticket 1) (ticket 11))
                       sample_document 1%positive (NewObject NewRHT (ticket 1))
                       (ElemPrimitive "v" (ticket 10)), None))
    by reflexivity.
  eexists. split; [exact Hex|].
  apply (Set_Execute_idempotent _ _ _ (ElemPrimitive "v" (ticket 10)) Hex);
    [reflexivity|discriminate].
Defined.

Lemma RHT_Set_commute_ordered {V : Type} (k : string) (v1 v2 : V)
    (c1 c2 : Ticket) (m : RHT V) :
  Ticket_After c2 c1 = true ->
  RHT_Set k v1 c1 (RHT_Set k v2 c2 m) = RHT_Set k v2 c2 m
  /\ RHT_Set k v2 c2 (RHT_Set k v1 c1 m) = RHT_Set k v2 c2 m.
Proof.
  intros H21. pose proof (Ticket_After_asym _ _ H21) as H12.
  split.
  - unfold RHT_Set at 1. rewrite RHT_Set_lookup, decide_True by reflexivity.
    destruct (m !! k) as [prev|] eqn:Hk.
    + destruct (supersedes c2 prev) eqn:H2p.
      * rewrite supersedes_written, H12. reflexivity.
      * destruct (supersedes c1 prev) eqn:H1p; [|reflexivity].
        rewrite (supersedes_trans _ _ _ H21 H1p) in H2p. discriminate.
    + rewrite supersedes_written, H12. reflexivity.
  - unfold RHT_Set at 2. destruct (m !! k) as [prev|] eqn:Hk.
    + destruct (supersedes c1 prev) eqn:H1p; [|reflexivity].
      unfold RHT_Set. rewrite lookup_insert_eq, Hk.
      rewrite supersedes_written, H21, (supersedes_trans _ _ _ H21 H1p).
      apply insert_insert_eq.
    + unfold RHT_Set. rewrite lookup_insert_eq, Hk.
      rewrite supersedes_written, H21. apply insert_insert_eq.
Qed.

Lemma RHT_Set_commute {V : Type} (k1 k2 : string) (v1 v2 : V)
    (c1 c2 : Ticket) (m : RHT V) :
  k1 <> k2 \/ c1 <> c2 ->
  RHT_Set k1 v1 c1 (RHT_Set k2 v2 c2 m) = RHT_Set k2 v2 c2 (RHT_Set k1 v1 c1 m).
Proof.
  intros Hne. destruct (decide (k1 = k2)) as [->|Hk].
  - destruct Hne as [Hne|Hne]; [congruence|].
    destruct (Ticket_After_total _ _ Hne) as [H|H].
    + destruct (RHT_Set_commute_ordered k2 v2 v1 c2 c1 m H) as [E1 E2].
      congruence.
    + destruct (RHT_Set_commute_ordered k2 v1 v2 c1 c2 m H) as [E1 E2].
      congruence.
  - apply map_eq. intros k.
    rewrite !RHT_Set_lookup.
    repeat case_decide; congruence.
Qed.

Lemma insert_object_CreatedAt (h : gmap loc Element) (obj l : loc)
    (t t' : Object) (x : Element) :
  h !! obj = Some (ElemObject t) ->
  obj_createdAt t' = obj_createdAt t ->
  h !! l = Some x ->
  exists x', <[obj := ElemObject t']> h !! l = Some x'
             /\ Element_CreatedAt x' = Element_CreatedAt x.
Proof.
  intros Hobj Hc Hl. destruct (decide (obj = l)) as [->|Hne].
  - rewrite lookup_insert_eq. eexists. split; [reflexivity|].
    rewrite Hobj in Hl. injection Hl as <-. exact Hc.
  - rewrite lookup_insert_ne by exact Hne. exists x. split; [exact Hl|reflexivity].
Qed.

(** X9: two [Set] operations that both succeed one after the other succeed in
    the other order as well and leave the same document, provided the two
    values have different creation tickets and neither value is the parent
    the other operation resolves. *)
Theorem Set_Execute_commute (o1 o2 : SetOp) (d d1 d12 : Document)
    (e1 e2 : Element) :
  heap d !! set_value o1 = Some e1 ->
  heap d !! set_value o2 = Some e2 ->
  Element_CreatedAt e1 <> Element_CreatedAt e2 ->
  Element_CreatedAt e1 <> set_parentCreatedAt o2 ->
  Element_CreatedAt e2 <> set_parentCreatedAt o1 ->
  Set_Execute o1 d = Returned (d1, None) ->
  Set_Execute o2 d1 = Returned (d12, None) ->
  exists d2,
    Set_Execute o2 d = Returned (d2, None)
    /\ Set_Execute o1 d2 = Returned (d12, None).
Proof.
  intros Hv1 Hv2 Hc Hp2 Hp1 H1 H2.
  destruct (Set_Execute_success _ _ _ H1)
    as (obj1 & t1 & e1' & Hf1 & Ho1 & Hv1' & ->).
  rewrite Hv1 in Hv1'. injection Hv1' as <-.
  destruct (Set_Execute_success _ _ _ H2)
    as (obj2 & t2' & e2' & Hf2 & Ho2 & Hv2' & ->).
  unfold Root_FindByCreatedAt in Hf1, Hf2. unfold executed in Hf2, Ho2, Hv2'.
  cbn [heap root elementMapByCreatedAt] in Hf2, Ho2, Hv2'.
  rewrite lookup_insert_ne in Hf2 by exact Hp2.
  destruct (insert_object_CreatedAt (heap d) obj1 (set_value o2) t1
              {| members := RHT_Set (set_key o1) (set_value o1)
                              (Element_CreatedAt e1) (members t1);
                 obj_createdAt := obj_createdAt t1 |} e2 Ho1 eq_refl Hv2)
    as (x2 & Hx2 & Hcx2).
  rewrite Hx2 in Hv2'. injection Hv2' as <-.
  destruct (decide (obj1 = obj2)) as [<-|Hobj].
  - rewrite lookup_insert_eq in Ho2. injection Ho2 as <-.
    exists (executed o2 d obj1 t1 e2).
    split; [apply Set_Execute_run; assumption|].
    destruct (insert_object_CreatedAt (heap d) obj1 (set_value o1) t1
                {| members := RHT_Set (set_key o2) (set_value o2)
                                (Element_CreatedAt e2) (members t1);
                   obj_createdAt := obj_createdAt t1 |} e1 Ho1 eq_refl Hv1)
      as (x1 & Hx1 & Hcx1).
    rewrite (Set_Execute_run o1 (executed o2 d obj1 t1 e2) obj1
               {| members := RHT_Set (set_key o2) (set_value o2)
                               (Element_CreatedAt e2) (members t1);
                  obj_createdAt := obj_createdAt t1 |} x1).
    + unfold executed. cbn [heap root elementMapByCreatedAt members obj_createdAt].
      rewrite Hcx1, Hcx2, !insert_insert_eq.
      rewrite (RHT_Set_commute (set_key o1) (set_key o2)) by (right; exact Hc).
      rewrite (insert_insert_ne _ (Element_CreatedAt e1) (Element_CreatedAt e2))
        by exact Hc.
      reflexivity.
    + unfold Root_FindByCreatedAt, executed. cbn [root elementMapByCreatedAt].
      rewrite lookup_insert_ne by exact Hp1. exact Hf1.
    + unfold executed. cbn [heap]. apply lookup_insert_eq.
    + exact Hx1.
  - rewrite lookup_insert_ne in Ho2 by exact Hobj.
    exists (executed o2 d obj2 t2' e2).
    split; [apply Set_Execute_run; assumption|].
    destruct (insert_object_CreatedAt (heap d) obj2 (set_value o1) t2'
                {| members := RHT_Set (set_key o2) (set_value o2)
                                (Element_CreatedAt e2) (members t2');
                   obj_createdAt := obj_createdAt t2' |} e1 Ho2 eq_refl Hv1)
      as (x1 & Hx1 & Hcx1).
    rewrite (Set_Execute_run o1 (executed o2 d obj2 t2' e2) obj1 t1 x1).
    + unfold executed. cbn [heap root elementMapByCreatedAt members obj_createdAt].
      rewrite Hcx1, Hcx2.
      rewrite (insert_insert_ne _ obj1 obj2) by exact Hobj.
      rewrite (insert_insert_ne _ (Element_CreatedAt e1) (Element_CreatedAt e2))
        by exact Hc.
      reflexivity.
    + unfold Root_FindByCreatedAt, executed. cbn [root elementMapByCreatedAt].
      rewrite lookup_insert_ne by exact Hp1. exact Hf1.
    + unfold executed. cbn [heap].
      rewrite lookup_insert_ne by congruence. exact Ho1.
    + exact Hx1.
Qed.

Lemma Set_Execute_commute_witness :
  exists d1 d12 d2,
    Set_Execute (NewSet "a" 3%positive (ticket 1) (ticket 11)) sample_document
    = Returned (d1, None)
    /\ Set_Execute (NewSet "b" 2%positive (ticket 1) (ticket 12)) d1
       = Returned (d12, None)
    /\ Set_Execute (NewSet "b" 2%positive (ticket 1) (ticket 12)) sample_document
       = Returned (d2, None)
    /\ Set_Execute (NewSet "a" 3%positive (ticket 1) (ticket 11)) d2
       = Returned (d12, None).
Proof.
  assert (H1 : Set_Execute (NewSet "a" 3%positive (ticket 1) (ticket 11))
                 sample_document
               = Returned
                   (executed (NewSet "a" 3%positive (ticket 1) (ticket 11))
                      sample_document 1%positive (NewObject NewRHT (ticket 1))
                      (ElemPrimitive "v" (ticket 10)), None))
    by reflexivity.
  assert (H2 : Set_Execute (NewSet "b" 2%positive (ticket 1) (ticket 12))
                 (executed (NewSet "a" 3%positive (ticket 1) (ticket 11))
                    sample_document 1%positive (NewObject NewRHT (ticket 1))
                    (ElemPrimitive "v" (ticket 10)))
               = Returned
                   (executed (NewSet "b" 2%positive (ticket 1) (ticket 12))
                      (executed (NewSet "a" 3%positive (ticket 1) (ticket 11))
                         sample_document 1%positive
                         (NewObject NewRHT (ticket 1))
                         (ElemPrimitive "v" (ticket 10)))
                      1%positive
                      (NewObject
                         (RHT_Set "a" 3%positive (ticket 10) NewRHT) (ticket 1))
                      (ElemText text5), None))
    by reflexivity.
  destruct (Set_Execute_commute
              (NewSet "a" 3%positive (ticket 1) (ticket 11))
              (NewSet "b" 2%positive (ticket 1) (ticket 12))
              sample_document _ _
              (ElemPrimitive "v" (ticket 10)) (ElemText text5)
              eq_refl eq_refl ltac:(discriminate) ltac:(discriminate)
              ltac:(discriminate) H1 H2)
    as (d2 & H3 & H4).
  eexists _, _, d2. split; [exact H1|]. split; [exact H2|].
  split; [exact H3|exact H4].
Defined.

Lemma Text_DeepCopy_returned (initialNodeID : RGATreeSplitNodeID) (t t' : Text) :
  Text_DeepCopy initialNodeID t = Returned t' ->
  insPrev_found [initialNodeID] (RGATreeSplit_nodes (rgaTreeSplit t)) = true
  /\ t' = NewText
            {| initialHead := InitialTextNode initialNodeID;
               after_head := RGATreeSplit_nodes (rgaTreeSplit t) |}
            (createdAt t).
Proof.
  unfold Text_DeepCopy, NewRGATreeSplit.
  change 0%nat with (length (@nil RGATreeSplitNode)).
  rewrite DeepCopy_loop_spec. simpl.
  destruct (insPrev_found _ _); [|discriminate].
  intros [= <-]. split; reflexivity.
Qed.

(** X10: when [Text.DeepCopy] returns, the copy reads as the original:
    [String], [Marshal] (whatever [EscapeString] and [RHT.Marshal] are),
    [Nodes] and [CreatedAt] give the same; but the copy never carries the
    tombstone, the move ticket or the selections of the original. *)
Theorem Text_DeepCopy_observables (EscapeString : string -> string)
    (RHT_Marshal : RHT string -> string) (initialNodeID : RGATreeSplitNodeID)
    (t t' : Text) :
  Text_DeepCopy initialNodeID t = Returned t' ->
  Text_String t' = Text_String t
  /\ Text_Marshal EscapeString RHT_Marshal t'
     = Text_Marshal EscapeString RHT_Marshal t
  /\ Text_Nodes t' = Text_Nodes t
  /\ Text_CreatedAt t' = Text_CreatedAt t
  /\ Text_RemovedAt t' = None
  /\ Text_MovedAt t' = None
  /\ selectionMap t' = ∅.
Proof.
  intros Hcopy. destruct (Text_DeepCopy_returned _ _ _ Hcopy) as [_ ->].
  repeat split.
Qed.

Lemma Text_DeepCopy_observables_witness :
  exists t',
    Text_DeepCopy (mkNodeID (ticket 0) 0) text5_selected = Returned t'
    /\ Text_String t' = Text_String text5_selected
    /\ selectionMap text5_selected <> ∅
    /\ selectionMap t' = ∅.
Proof.
  assert (Hcopy : Text_DeepCopy (mkNodeID (ticket 0) 0) text5_selected
                  = Returned text5) by reflexivity.
  destruct (Text_DeepCopy_observables id (fun _ => EmptyString) _ _ _ Hcopy)
    as (Hs & _ & _ & _ & _ & _ & Hsel).
  exists text5. split; [exact Hcopy|]. split; [exact Hs|].
  split; [|exact Hsel].
  intros Hempty.
  assert (Hl : selectionMap text5_selected !! Ticket_ActorIDHex (ticket 9)
               = None) by (rewrite Hempty; reflexivity).
  vm_compute in Hl. discriminate Hl.
Defined.

(** X11: a copy made by [Text.DeepCopy] is a fixed point of it: copying the
    copy returns, and returns the copy itself. *)
Theorem Text_DeepCopy_idempotent (initialNodeID : RGATreeSplitNodeID)
    (t t' : Text) :
  Text_DeepCopy initialNodeID t = Returned t' ->
  Text_DeepCopy initialNodeID t' = Returned t'.
Proof.
  intros Hcopy. destruct (Text_DeepCopy_returned _ _ _ Hcopy) as [Hfound ->].
  unfold Text_DeepCopy, NewRGATreeSplit.
  change 0%nat with (length (@nil RGATreeSplitNode)).
  rewrite DeepCopy_loop_spec. simpl. simpl in Hfound. rewrite Hfound.
  reflexivity.
Qed.

Lemma Text_DeepCopy_idempotent_witness :
  exists t',
    Text_DeepCopy (mkNodeID (ticket 0) 0) text5_selected = Returned t'
    /\ Text_DeepCopy (mkNodeID (ticket 0) 0) t' = Returned t'.
Proof.
  assert (Hcopy : Text_DeepCopy (mkNodeID (ticket 0) 0) text5_selected
                  = Returned text5) by reflexivity.
  exists text5. split; [exact Hcopy|].
  exact (Text_DeepCopy_idempotent _ _ _ Hcopy).
Defined.

Lemma set_attributes_lookup (attributes : gmap string string) (e : Ticket)
    (val : TextValue) (k : string) :
  tv_attrs (set_attributes attributes e val) !! k
  = match attributes !! k with
    | Some v => Some (written (tv_attrs val !! k) v e)
    | None => tv_attrs val !! k
    end.
Proof.
  unfold set_attributes. cbn [tv_attrs]. revert k.
  apply (map_fold_weak_ind
           (fun (r : RHT string) (m : gmap string string) =>
              forall k, r !! k
                        = match m !! k with
                          | Some v => Some (written (tv_attrs val !! k) v e)
                          | None => tv_attrs val !! k
                          end)).
  - intros k. rewrite lookup_empty. reflexivity.
  - intros i x m r Hi IH k. rewrite RHT_Set_lookup.
    destruct (decide (i = k)) as [<-|Hne].
    + rewrite lookup_insert_eq, (IH i), Hi. unfold written.
      destruct (tv_attrs val !! i) as [prev|]; [|reflexivity].
      destruct (supersedes e prev); reflexivity.
    + rewrite lookup_insert_ne by exact Hne. apply IH.
Qed.

Lemma set_attributes_in_order_foldr (entries : list (string * string))
    (e : Ticket) (val : TextValue) :
  tv_attrs (set_attributes_in_order entries e val)
  = foldr (fun kv attrs => RHT_Set kv.1 kv.2 e attrs) (tv_attrs val)
      (rev entries).
Proof.
  unfold set_attributes_in_order. cbn [tv_attrs]. symmetry.
  apply (fold_left_rev_right (fun kv attrs => RHT_Set kv.1 kv.2 e attrs)).
Qed.

(** X12: the attribute loop of [Text.Style] and [Text.Edit] gives the same
    value in whatever order it visits the entries of the map of attributes. *)
Theorem set_attributes_order (attributes : gmap string string)
    (entries : list (string * string)) (e : Ticket) (val : TextValue) :
  Permutation entries (map_to_list attributes) ->
  set_attributes_in_order entries e val = set_attributes attributes e val.
Proof.
  intros Hperm.
  assert (Hp : Permutation (rev entries) (map_to_list attributes))
    by (rewrite <- Hperm; symmetry; apply Permutation_rev).
  assert (Hattrs : tv_attrs (set_attributes_in_order entries e val)
                   = tv_attrs (set_attributes attributes e val)).
  { rewrite set_attributes_in_order_foldr. unfold set_attributes.
    cbn [tv_attrs]. rewrite map_fold_foldr.
    rewrite (foldr_ext _ (fun kv attrs => RHT_Set kv.1 kv.2 e attrs)
               (tv_attrs val) (tv_attrs val)
               (map_to_list attributes) (map_to_list attributes));
      [|intros [k v] a; reflexivity|reflexivity|reflexivity].
    apply (fun H => foldr_permutation eq _ _ _ _ H Hp).
    intros j1 [k1 v1] j2 [k2 v2] b Hj H1 H2. cbn [fst snd].
    apply RHT_Set_commute. left. intros ->.
    pose proof (NoDup_fst_map_to_list attributes) as Hnd.
    rewrite <- Hp in Hnd.
    apply Hj.
    apply (NoDup_lookup _ j1 j2 k2 Hnd);
      rewrite list_lookup_fmap; [rewrite H1|rewrite H2]; reflexivity. }
  unfold set_attributes_in_order, set_attributes in *. cbn [tv_attrs] in Hattrs.
  rewrite Hattrs. reflexivity.
Qed.

Lemma set_attributes_order_witness :
  set_attributes_in_order [("b", "2"); ("a", "1")] (ticket 9) hello
  = set_attributes {[ "a" := "1"; "b" := "2" ]} (ticket 9) hello.
Proof.
  apply set_attributes_order.
  assert (Hl : map_to_list ({[ "a" := "1"; "b" := "2" ]} : gmap string string)
               = [("a", "1"); ("b", "2")]
               \/ map_to_list ({[ "a" := "1"; "b" := "2" ]} : gmap string string)
                  = [("b", "2"); ("a", "1")]).
  { vm_compute. tauto. }
  destruct Hl as [-> | ->]; [apply perm_swap|reflexivity].
Defined.

(** X13: [Text.Edit] hands to the node sequence a new value that holds the
    content and exactly the given attributes, each written at [executedAt]
    and live; of the text it changes nothing but the node sequence, and it
    returns what [RGATreeSplit.edit] returns. *)
Theorem Text_Edit_value
    (RGATreeSplit_edit :
       RGATreeSplit -> RGATreeSplitNodePos -> RGATreeSplitNodePos ->
       gmap string Ticket -> TextValue -> Ticket ->
       outcome (RGATreeSplit * RGATreeSplitNodePos * gmap string Ticket))
    (t : Text) (from to : RGATreeSplitNodePos) (latest : gmap string Ticket)
    (content : string) (attributes : gmap string string) (e : Ticket) :
  Text_Edit RGATreeSplit_edit t from to latest content attributes e
  = match RGATreeSplit_edit (rgaTreeSplit t) from to latest
            {| tv_value := content;
               tv_attrs := (fun v => mkRHTEntry v e None) <$> attributes |} e
    with
    | Returned (s, cursorPos, latest') =>
        Returned (with_rgaTreeSplit t s, cursorPos, latest')
    | Panicked msg => Panicked msg
    end.
Proof.
  unfold Text_Edit.
  assert (Hval : set_attributes attributes e (NewTextValue content NewRHT)
                 = {| tv_value := content;
                      tv_attrs := (fun v => mkRHTEntry v e None) <$> attributes |}).
  { assert (Hattrs : tv_attrs (set_attributes attributes e
                                 (NewTextValue content NewRHT))
                     = (fun v => mkRHTEntry v e None) <$> attributes).
    { apply map_eq. intros k. rewrite set_attributes_lookup, lookup_fmap.
      cbn [NewTextValue tv_attrs]. unfold NewRHT. rewrite lookup_empty.
      destruct (attributes !! k); reflexivity. }
    unfold set_attributes in *. cbn [tv_attrs tv_value NewTextValue] in *.
    rewrite Hattrs. reflexivity. }
  rewrite Hval.
  destruct (RGATreeSplit_edit _ _ _ _ _ _) as [[[s cursorPos] latest']|msg];
    reflexivity.
Qed.

Lemma style_node_styled_from (attributes : gmap string string) (e : Ticket)
    (n n' : RGATreeSplitNode) :
  styled_from attributes e n n' ->
  styled_from attributes e n (style_node attributes e n').
Proof.
  assert (Hstyle : forall m,
            styled_from attributes e m (style_node attributes e m)).
  { intros m. right. split; [repeat split|].
    intros k. unfold style_node. cbn [node_value].
    apply set_attributes_lookup. }
  intros [-> | [Hsame Hattrs]]; [apply Hstyle|].
  right. destruct Hsame as (Hid & Hvalue & Hremoved & HinsPrev).
  split; [repeat split; assumption|].
  intros k. unfold style_node. cbn [node_value].
  rewrite set_attributes_lookup, Hattrs.
  destruct (attributes !! k) as [v|]; [|reflexivity].
  f_equal. unfold written.
  destruct (tv_attrs (node_value n) !! k) as [prev|].
  - destruct (supersedes e prev) eqn:Hafter.
    + rewrite supersedes_written, Ticket_After_irrefl. reflexivity.
    + rewrite Hafter. reflexivity.
  - rewrite supersedes_written, Ticket_After_irrefl. reflexivity.
Qed.

Lemma style_nodes_styled_from (attributes : gmap string string) (e : Ticket)
    (nodes : list nat) (l : list RGATreeSplitNode) (s : RGATreeSplit) :
  Forall2 (styled_from attributes e) l (all_nodes s) ->
  Forall2 (styled_from attributes e) l
    (all_nodes
       (fold_left (fun s p => alter_node (style_node attributes e) p s) nodes s)).
Proof.
  revert s. induction nodes as [|p nodes IH]; intros s Hl; simpl; [exact Hl|].
  apply IH. rewrite all_nodes_alter_node.
  apply Forall2_alter_r; [exact Hl|].
  intros x y _ _. apply style_node_styled_from.
Qed.

(** X14: when [Text.Style] returns, every node of the text is a node of the
    sequence as the two splits left it, either untouched or with nothing
    changed but its attributes: an attribute under a key that is not among
    the given ones is as it was, and one under a given key holds the given
    value written at [executedAt] where the node had no entry, or an entry
    whose write and removal are both older than [executedAt], and the entry
    the node had otherwise. *)
Theorem Text_Style_attributes (t t' : Text) (from to : RGATreeSplitNodePos)
    (attributes : gmap string string) (e : Ticket) :
  Text_Style t from to attributes e = Returned t' ->
  exists l1 l2,
    split_step (all_nodes (rgaTreeSplit t)) l1
    /\ split_step l1 l2
    /\ Forall2 (styled_from attributes e) l2 (all_nodes (rgaTreeSplit t')).
Proof.
  intros Hstyle.
  destruct (Text_Style_steps _ _ _ _ _ _ Hstyle)
    as (s1 & l1 & toRight & ins1 & s2 & l2 & fromRight & ins2
        & Hto & Hfrom & ->).
  exists (all_nodes s1), (all_nodes s2).
  split; [exact (findNodeWithSplit_split_step _ _ _ _ _ _ _ Hto)|].
  split; [exact (findNodeWithSplit_split_step _ _ _ _ _ _ _ Hfrom)|].
  cbn [with_rgaTreeSplit rgaTreeSplit].
  apply style_nodes_styled_from.
  apply Forall2_same_length_lookup_2; [reflexivity|].
  intros i x y Hx Hy. rewrite Hx in Hy. injection Hy as <-. left. reflexivity.
Qed.

Lemma Text_Style_attributes_witness :
  exists t' l1 l2,
    Text_Style text5 (pos 6 1) (pos 6 3) bold (ticket 9) = Returned t'
    /\ split_step (all_nodes (rgaTreeSplit text5)) l1
    /\ split_step l1 l2
    /\ Forall2 (styled_from bold (ticket 9)) l2 (all_nodes (rgaTreeSplit t')).
Proof.
  assert (Hret : exists t',
            Text_Style text5 (pos 6 1) (pos 6 3) bold (ticket 9) = Returned t')
    by (vm_compute; eauto).
  destruct Hret as [t' Ht'].
  destruct (Text_Style_attributes _ _ _ _ _ _ Ht') as (l1 & l2 & H).
  exists t', l1, l2. split; [exact Ht'|exact H].
Defined.

Lemma TextValue_Split_in_range (t head tail : TextValue) (k : Z) :
  TextValue_Split t k = Returned (head, tail) -> 0 <= k <= TextValue_Len t.
Proof.
  unfold TextValue_Split, TextValue_Len.
  destruct (k <? 0) eqn:Hlo; [discriminate|].
  destruct (Z.of_nat (length (utf16_Encode (runes_of_string (tv_value t)))) <? k)
    eqn:Hhi; [discriminate|].
  intros _. apply Z.ltb_ge in Hlo, Hhi. lia.
Qed.

Lemma live_length_app (c : Ticket) (l1 l2 : list RGATreeSplitNode) :
  live_length c (l1 ++ l2) = live_length c l1 + live_length c l2.
Proof.
  unfold live_length. rewrite filter_app, map_app.
  induction (map RGATreeSplitNode_contentLen
               (filter (fun n => contributes c n) l1)) as [|x xs IH];
    simpl; lia.
Qed.

Lemma live_length_cons (c : Ticket) (n : RGATreeSplitNode)
    (l : list RGATreeSplitNode) :
  live_length c (n :: l)
  = (if contributes c n then RGATreeSplitNode_contentLen n else 0)
    + live_length c l.
Proof.
  unfold live_length. destruct (contributes c n) eqn:Hn.
  - rewrite filter_cons_True by (rewrite Hn; exact I). reflexivity.
  - rewrite filter_cons_False by (rewrite Hn; exact id). reflexivity.
Qed.

Lemma live_length_split (c : Ticket) (n h tl : RGATreeSplitNode) (k : Z) :
  RGATreeSplitNode_split n k = Returned (h, tl) ->
  contributes c h = contributes c n
  /\ contributes c tl = contributes c n
  /\ RGATreeSplitNode_contentLen h + RGATreeSplitNode_contentLen tl
     = RGATreeSplitNode_contentLen n.
Proof.
  intros Hsplit.
  destruct (RGATreeSplitNode_split_spec _ _ _ _ Hsplit)
    as (Hvalue & Hid & Hidtl & Hrem & Hremtl).
  pose proof (TextValue_Split_in_range _ _ _ _ Hvalue) as Hrange.
  destruct (TextValue_Split_Len _ _ _ _ Hrange Hvalue) as [Hh Htl].
  unfold contributes, node_createdAt, RGATreeSplitNode_contentLen.
  rewrite Hid, Hidtl, Hrem, Hremtl. cbn [id_createdAt].
  split; [reflexivity|]. split; [reflexivity|]. lia.
Qed.

Lemma live_length_split_step (c : Ticket) (l l' : list RGATreeSplitNode) :
  split_step l l' -> live_length c l' = live_length c l.
Proof.
  intros [-> | (pre & n & post & k & h & tl & -> & Hsplit & ->)];
    [reflexivity|].
  destruct (live_length_split c _ _ _ _ Hsplit) as (Hh & Htl & Hlen).
  rewrite !live_length_app, !live_length_cons, Hh, Htl.
  destruct (contributes c n); lia.
Qed.

Lemma live_length_same_but_attrs (c : Ticket) (l l' : list RGATreeSplitNode) :
  Forall2 same_but_attrs l l' -> live_length c l' = live_length c l.
Proof.
  induction 1 as [|n n' l l' (Hid & Hvalue & Hrem & _) _ IH]; [reflexivity|].
  rewrite !live_length_cons, IH.
  unfold contributes, node_createdAt, RGATreeSplitNode_contentLen, TextValue_Len.
  rewrite Hid, Hvalue, Hrem. reflexivity.
Qed.

(** X15: [Text.Style] never changes the length of the text: when it returns,
    the lengths of the live nodes, in UTF-16 code units, add up to what they
    added up to before, wherever the two positions fall, between the two
    code units of a surrogate pair included. *)
Theorem Text_Style_length (t t' : Text) (from to : RGATreeSplitNodePos)
    (attributes : gmap string string) (e : Ticket) :
  Text_Style t from to attributes e = Returned t' ->
  live_length (createdAt t') (all_nodes (rgaTreeSplit t'))
  = live_length (createdAt t) (all_nodes (rgaTreeSplit t)).
Proof.
  intros Hstyle.
  destruct (Text_Style_steps _ _ _ _ _ _ Hstyle)
    as (s1 & l1 & toRight & ins1 & s2 & l2 & fromRight & ins2
        & Hto & Hfrom & ->).
  cbn [with_rgaTreeSplit rgaTreeSplit createdAt].
  rewrite (live_length_same_but_attrs _ _ _
             (style_nodes_same_but_attrs attributes e _ s2)).
  rewrite (live_length_split_step _ _ _
             (findNodeWithSplit_split_step _ _ _ _ _ _ _ Hfrom)).
  apply live_length_split_step.
  exact (findNodeWithSplit_split_step _ _ _ _ _ _ _ Hto).
Qed.

Lemma Text_Style_length_witness :
  exists t',
    Text_Style text_grinning (pos 6 0) (pos 6 1) bold (ticket 9) = Returned t'
    /\ Text_String t' <> Text_String text_grinning
    /\ live_length (createdAt t') (all_nodes (rgaTreeSplit t')) = 2.
Proof.
  assert (Hret : exists t',
            Text_Style text_grinning (pos 6 0) (pos 6 1) bold (ticket 9)
            = Returned t'
            /\ Text_String t' <> Text_String text_grinning).
  { vm_compute. eexists. split; [reflexivity|discriminate]. }
  destruct Hret as (t' & Ht' & Hneq).
  exists t'. split; [exact Ht'|]. split; [exact Hneq|].
  rewrite (Text_Style_length _ _ _ _ _ _ Ht'). reflexivity.
Defined.

Lemma string_of_bytes_of_string (s : string) :
  string_of_bytes (bytes_of_string s) = s.
Proof.
  unfold string_of_bytes, bytes_of_string. rewrite map_map.
  rewrite <- (string_of_list_ascii_of_string s) at 2. f_equal.
  rewrite <- (map_id (list_ascii_of_string s)) at 2.
  apply map_ext. intros c. unfold ascii_of_byte, byte_of_ascii.
  rewrite N2Z.id. apply ascii_N_embedding.
Qed.

Lemma length_bytes_of_string (s : string) :
  length (bytes_of_string s) = String.length s.
Proof.
  unfold bytes_of_string. rewrite length_map.
  induction s as [|c s IH]; simpl; congruence.
Qed.

Lemma length_string_of_bytes (p : list Z) :
  String.length (string_of_bytes p) = length p.
Proof.
  unfold string_of_bytes. induction p as [|b p IH]; simpl; congruence.
Qed.

Lemma is_ascii_bytes (s : string) :
  is_ascii s = true -> Forall (fun b => 0 <= b < 128) (bytes_of_string s).
Proof.
  unfold is_ascii, bytes_of_string.
  induction (list_ascii_of_string s) as [|c l IH]; [constructor|].
  cbn [map forallb]. intros [Hc Hl]%andb_true_iff. constructor.
  - apply Z.ltb_lt in Hc. unfold byte_of_ascii in *. lia.
  - apply IH. exact Hl.
Qed.

Lemma ascii_runes (l : list Z) :
  Forall (fun b => 0 <= b < 128) l ->
  decodeRunes l = l /\ utf16_Encode l = l /\ utf16_Decode l = l
  /\ flat_map utf8_AppendRune l = l.
Proof.
  induction 1 as [|b l Hb _ (IH1 & IH2 & IH3 & IH4)]; [repeat split|].
  repeat split.
  - cbn [decodeRunes].
    destruct (b <? 128) eqn:E; [|apply Z.ltb_ge in E; lia].
    rewrite IH1. reflexivity.
  - rewrite utf16_Encode_bmp by lia. rewrite IH2. reflexivity.
  - rewrite utf16_Decode_bmp by lia. rewrite IH3. reflexivity.
  - cbn [flat_map]. rewrite IH4. unfold utf8_AppendRune.
    destruct (0 <=? b) eqn:E0; [|apply Z.leb_gt in E0; lia].
    destruct (b <? 128) eqn:E1; [|apply Z.ltb_ge in E1; lia].
    reflexivity.
Qed.

(** X16: on a value that holds ASCII characters only, offsets are byte
    offsets: [Len] is the number of bytes of the string, and [Split] at an
    offset within the string returns two values whose strings are the first
    [offset] bytes and the rest. *)
Theorem TextValue_Split_ascii (t : TextValue) (k : Z) :
  is_ascii (tv_value t) = true ->
  0 <= k <= Z.of_nat (String.length (tv_value t)) ->
  TextValue_Len t = Z.of_nat (String.length (tv_value t))
  /\ exists head tail,
       TextValue_Split t k = Returned (head, tail)
       /\ Z.of_nat (String.length (tv_value head)) = k
       /\ tv_value head +:+ tv_value tail = tv_value t.
Proof.
  intros Hascii Hk. pose proof (is_ascii_bytes _ Hascii) as Hbytes.
  destruct (ascii_runes _ Hbytes) as (Hdec & Henc & _ & _).
  assert (Hlen : TextValue_Len t = Z.of_nat (String.length (tv_value t))).
  { unfold TextValue_Len, runes_of_string.
    rewrite Hdec, Henc, length_bytes_of_string. reflexivity. }
  split; [exact Hlen|].
  unfold TextValue_Split, runes_of_string. rewrite Hdec, Henc.
  rewrite length_bytes_of_string.
  destruct (k <? 0) eqn:Hlo; [apply Z.ltb_lt in Hlo; lia|].
  destruct (Z.of_nat (String.length (tv_value t)) <? k) eqn:Hhi;
    [apply Z.ltb_lt in Hhi; lia|].
  cbn [orb]. eexists _, _. split; [reflexivity|].
  cbn [tv_value NewTextValue]. unfold string_of_runes.
  assert (Htake : Forall (fun b => 0 <= b < 128)
                    (firstn (Z.to_nat k) (bytes_of_string (tv_value t))))
    by (apply Forall_take; exact Hbytes).
  assert (Hdrop : Forall (fun b => 0 <= b < 128)
                    (skipn (Z.to_nat k) (bytes_of_string (tv_value t))))
    by (apply Forall_drop; exact Hbytes).
  destruct (ascii_runes _ Htake) as (_ & _ & -> & ->).
  destruct (ascii_runes _ Hdrop) as (_ & _ & -> & ->).
  split.
  - rewrite length_string_of_bytes, length_take, length_bytes_of_string. lia.
  - rewrite <- string_of_bytes_app, take_drop. apply string_of_bytes_of_string.
Qed.

Lemma TextValue_Split_ascii_witness :
  TextValue_Len hello = 5
  /\ exists head tail,
       TextValue_Split hello 2 = Returned (head, tail)
       /\ Z.of_nat (String.length (tv_value head)) = 2
       /\ tv_value head +:+ tv_value tail = "HELLO".
Proof.
  apply (TextValue_Split_ascii hello 2); [reflexivity|simpl; lia].
Defined.

(** X17: [TextValue.Split] returns exactly for the offsets from 0 to [Len],
    counted in UTF-16 code units, and panics on the slice bounds for every
    other offset, whatever the number of bytes or of runes of the string. *)
Theorem TextValue_Split_bounds (t : TextValue) (k : Z) :
  ((exists head tail, TextValue_Split t k = Returned (head, tail))
   <-> 0 <= k <= TextValue_Len t)
  /\ (TextValue_Split t k = Panicked "slice bounds out of range"
      <-> k < 0 \/ TextValue_Len t < k).
Proof.
  split; split.
  - intros (head & tail & Hsplit).
    exact (TextValue_Split_in_range _ _ _ _ Hsplit).
  - intros Hrange. rewrite (TextValue_Split_returns _ _ Hrange). eauto.
  - intros Hpanic.
    destruct (Z_lt_dec k 0) as [Hlo|Hlo]; [left; exact Hlo|].
    destruct (Z_lt_dec (TextValue_Len t) k) as [Hhi|Hhi]; [right; exact Hhi|].
    rewrite TextValue_Split_returns in Hpanic by lia. discriminate.
  - intros Hout. unfold TextValue_Split, TextValue_Len in *.
    destruct (k <? 0) eqn:Hlo; [reflexivity|].
    destruct (Z.of_nat (length (utf16_Encode (runes_of_string (tv_value t))))
              <? k) eqn:Hhi; [reflexivity|].
    apply Z.ltb_ge in Hlo, Hhi. lia.
Qed.

Lemma decodeRunes_flat_map_app (rs q : list Z) :
  decodeRunes (flat_map utf8_AppendRune rs ++ q)
  = map sanitize rs ++ decodeRunes q.
Proof.
  induction rs as [|r rs IH]; [reflexivity|].
  cbn [flat_map map]. rewrite <- app_assoc, decodeRunes_AppendRune, IH.
  reflexivity.
Qed.

Lemma bytes_of_string_app (a b : string) :
  bytes_of_string (a +:+ b) = bytes_of_string a ++ bytes_of_string b.
Proof.
  unfold bytes_of_string. rewrite <- map_app. f_equal.
  induction a as [|c a IH]; [reflexivity|].
  rewrite string_app_cons. simpl. rewrite IH. reflexivity.
Qed.

Lemma flat_map_AppendRune_bytes (rs : list Z) :
  Forall (fun b => 0 <= b < 256) (flat_map utf8_AppendRune rs).
Proof.
  induction rs as [|r rs IH]; [constructor|].
  cbn [flat_map]. apply Forall_app. split; [apply utf8_AppendRune_bytes|exact IH].
Qed.

Lemma runes_of_string_app (a b : string) :
  valid_utf8 a = true ->
  runes_of_string (a +:+ b) = runes_of_string a ++ runes_of_string b.
Proof.
  unfold valid_utf8. intros Hvalid. apply String.eqb_eq in Hvalid.
  assert (Hbytes : bytes_of_string a
                   = flat_map utf8_AppendRune (runes_of_string a)).
  { rewrite <- Hvalid at 1. unfold string_of_runes.
    apply bytes_of_string_of_bytes, flat_map_AppendRune_bytes. }
  assert (Hsan : map sanitize (runes_of_string a) = runes_of_string a).
  { unfold runes_of_string at 2. rewrite Hbytes. symmetry.
    apply decodeRunes_flat_map. }
  unfold runes_of_string at 1.
  rewrite bytes_of_string_app, Hbytes, decodeRunes_flat_map_app, Hsan.
  reflexivity.
Qed.

Lemma TextValue_Len_app (a b : string) (attrs attrs1 attrs2 : RHT string) :
  valid_utf8 a = true ->
  TextValue_Len (NewTextValue (a +:+ b) attrs)
  = TextValue_Len (NewTextValue a attrs1) + TextValue_Len (NewTextValue b attrs2).
Proof.
  intros Hvalid. unfold TextValue_Len. cbn [tv_value NewTextValue].
  rewrite runes_of_string_app by exact Hvalid.
  rewrite utf16_Encode_app, length_app. lia.
Qed.

Lemma concat_strings_Len (l : list RGATreeSplitNode) (attrs : RHT string) :
  Forall (fun n => valid_utf8 (tv_value (node_value n)) = true) l ->
  TextValue_Len (NewTextValue (concat_strings (map RGATreeSplitNode_String l))
                   attrs)
  = fold_right Z.add 0 (map RGATreeSplitNode_contentLen l).
Proof.
  induction 1 as [|n l Hn _ IH]; [reflexivity|].
  cbn [map concat_strings fold_right].
  rewrite (TextValue_Len_app _ _ attrs (tv_attrs (node_value n)) attrs)
    by exact Hn.
  fold (concat_strings (map RGATreeSplitNode_String l)).
  rewrite IH. unfold RGATreeSplitNode_contentLen, RGATreeSplitNode_String.
  destruct (node_value n); reflexivity.
Qed.

(** X18: when every node that contributes to [Text.String] holds well-formed
    UTF-8 and the initial head is empty, the length of the string that
    [Text.String] returns, in UTF-16 code units, is the sum of the lengths of
    the live nodes. *)
Theorem Text_String_Len (t : Text) (attrs : RHT string) :
  head_empty (rgaTreeSplit t) ->
  Forall (fun n => valid_utf8 (tv_value (node_value n)) = true)
    (live_fragments t) ->
  TextValue_Len (NewTextValue (Text_String t) attrs)
  = live_length (createdAt t) (all_nodes (rgaTreeSplit t)).
Proof.
  intros Hhead Hvalid. rewrite Text_String_filter.
  unfold all_nodes. rewrite live_length_cons.
  rewrite (head_empty_contentLen _ Hhead).
  replace (if contributes (createdAt t) (initialHead (rgaTreeSplit t))
           then 0 else 0) with 0 by (destruct (contributes _ _); reflexivity).
  rewrite (concat_strings_Len _ attrs Hvalid). reflexivity.
Qed.

Lemma Text_String_Len_witness :
  TextValue_Len (NewTextValue (Text_String text_he) NewRHT)
  = live_length (createdAt text_he) (all_nodes (rgaTreeSplit text_he)).
Proof.
  apply Text_String_Len; [reflexivity|].
  apply (bool_decide_unpack _). vm_compute. exact I.
Defined.
